(** * A fixed-depth Merkle tree over a content-addressed key-value store

    Shallow embedding of [src/merkle_tree.ts] (class [MerkleTree]), the
    properties its specification states about it, and further properties
    of the code itself (numbered X1, X2, ... in their comments).

    The source file holds two renditions of the class.  The first one is
    embedded in [Module MerkleTree], the second one in [Module MerkleTree2];
    whatever the two share (buffers, the store, the hasher interface) is
    defined once, before them.

    Conventions of the embedding:
    - a [Buffer] is a list of bytes;
    - the LevelUp store is the log of the requests it has served, newest
      first: a [get] answers with the value of the most recent [put] under
      the same key, so every entry ever written stays visible in the log;
      requests take effect in program order; a [put] under an empty key is
      refused and leaves no entry;
    - an [async] method is a computation in a state-and-exception monad over
      that log; a call whose promise is not awaited makes its requests at
      once and its rejection is not thrown at the caller; an object method
      takes the receiver as its first argument and, when it assigns to a
      field, returns the updated receiver;
    - JavaScript numbers used as integers are [Z]; the 32-bit operators
      [>>] and [&] are written out with their wrap-around. *)

From Stdlib Require Import ZArith List Lia Bool String.
From Stdlib Require Import Strings.Byte.
From stdpp Require Import base decidable option list gmap.
Import ListNotations.
Local Open Scope Z_scope.

(* ===================================================================== *)
(** ** Bytes and buffers *)
(* ===================================================================== *)

#[global] Instance byte_eq_decision : EqDecision byte := Byte.byte_eq_dec.

Definition Z_of_byte (b : byte) : Z := Z.of_N (Byte.to_N b).

Definition byte_of_Z (z : Z) : byte :=
  match Byte.of_N (Z.to_N (z mod 256)) with
  | Some b => b
  | None => x00
  end.

Module Buffer.

Definition t := list byte.

(** [Buffer.alloc(n, fill)] *)
Definition alloc (n : nat) (fill : byte) : t := repeat fill n.

(** [buf.slice(start, end)] for constant non-negative bounds: the end is
    clamped to the length of the buffer. *)
Definition slice (buf : t) (start stop : nat) : t :=
  firstn (stop - start) (skipn start buf).

(** [src.copy(target, targetStart)]: overwrites [target] from
    [targetStart] with as many bytes of [src] as fit; returns the target
    as it is after the call. *)
Definition copy (src target : t) (targetStart : nat) : t :=
  firstn targetStart target
  ++ firstn (List.length target - targetStart) src
  ++ skipn (targetStart + List.length src) target.

(** [Buffer.concat(list)] *)
Definition concat (bufs : list t) : t := List.concat bufs.

(** [Buffer.from(name)] for a string given by its encoded bytes. *)
Definition from (s : string) : t := list_byte_of_string s.

Definition byte_at (buf : t) (i : nat) : Z := Z_of_byte (nth i buf x00).

(** [buf.readUInt32LE(offset)]: [None] stands for the RangeError thrown
    when the four bytes do not lie inside the buffer. *)
Definition readUInt32LE (buf : t) (offset : nat) : option Z :=
  if (offset + 4 <=? List.length buf)%nat
  then Some (byte_at buf offset
             + byte_at buf (offset + 1) * 2 ^ 8
             + byte_at buf (offset + 2) * 2 ^ 16
             + byte_at buf (offset + 3) * 2 ^ 24)
  else None.

(** [buf.writeUInt32LE(value, offset)]: [None] stands for the RangeError
    thrown for a value outside [0, 2^32) or an offset outside the buffer. *)
Definition writeUInt32LE (buf : t) (value : Z) (offset : nat) : option t :=
  if (0 <=? value) && (value <? 2 ^ 32) && (offset + 4 <=? List.length buf)%nat
  then Some (firstn offset buf
             ++ [byte_of_Z value; byte_of_Z (value / 2 ^ 8);
                 byte_of_Z (value / 2 ^ 16); byte_of_Z (value / 2 ^ 24)]
             ++ skipn (offset + 4) buf)
  else None.

End Buffer.

Abbreviation Buffer := Buffer.t.

(* ===================================================================== *)
(** ** JavaScript 32-bit integer operators *)
(* ===================================================================== *)

(** ToInt32: reduction modulo 2^32 into [-2^31, 2^31). *)
Definition to_int32 (x : Z) : Z := (x + 2 ^ 31) mod 2 ^ 32 - 2 ^ 31.

(** [x >> n]: sign-propagating shift of the 32-bit value, the shift count
    taken modulo 32. *)
Definition js_shr (x n : Z) : Z := Z.shiftr (to_int32 x) (n mod 32).

(** [x & y] *)
Definition js_and (x y : Z) : Z := to_int32 (Z.land (to_int32 x) (to_int32 y)).

(** A number used as a condition is true when it is not zero. *)
Definition truthy (x : Z) : bool := negb (x =? 0).

(* ===================================================================== *)
(** ** The hasher *)
(* ===================================================================== *)

(** The interface of [Sha256Hasher] as [MerkleTree] uses it. *)
Class Hasher := {
  hash : Buffer -> Buffer;
  compress : Buffer -> Buffer -> Buffer
}.

(** What the tree relies on: digests are 32 bytes long. *)
Class DigestLength (H : Hasher) : Prop := {
  hash_length : forall data, List.length (hash data) = 32%nat;
  compress_length : forall l r, List.length (compress l r) = 32%nat
}.

Definition hex_digit (b : byte) : Z :=
  let c := Z_of_byte b in
  if (48 <=? c) && (c <=? 57) then c - 48
  else if (97 <=? c) && (c <=? 102) then c - 87
  else 0.

(** A buffer written as a string of lower-case hexadecimal digits. *)
Fixpoint bytes_of_hex (ds : list byte) : Buffer :=
  match ds with
  | hi :: lo :: rest => byte_of_Z (hex_digit hi * 16 + hex_digit lo) :: bytes_of_hex rest
  | _ => []
  end.

Definition hex (s : string) : Buffer := bytes_of_hex (list_byte_of_string s).


(** *** SHA-256 *)

Module Sha256.

Definition w32 (x : Z) : Z := x mod 2 ^ 32.
Definition add32 (x y : Z) : Z := w32 (x + y).
Definition rotr (n x : Z) : Z :=
  Z.lor (Z.shiftr x n) (w32 (Z.shiftl x (32 - n))).
Definition not32 (x : Z) : Z := Z.lxor x (2 ^ 32 - 1).

Definition Ch (x y z : Z) : Z := Z.lxor (Z.land x y) (Z.land (not32 x) z).
Definition Maj (x y z : Z) : Z :=
  Z.lxor (Z.lxor (Z.land x y) (Z.land x z)) (Z.land y z).
Definition bsig0 (x : Z) : Z := Z.lxor (Z.lxor (rotr 2 x) (rotr 13 x)) (rotr 22 x).
Definition bsig1 (x : Z) : Z := Z.lxor (Z.lxor (rotr 6 x) (rotr 11 x)) (rotr 25 x).
Definition ssig0 (x : Z) : Z := Z.lxor (Z.lxor (rotr 7 x) (rotr 18 x)) (Z.shiftr x 3).
Definition ssig1 (x : Z) : Z := Z.lxor (Z.lxor (rotr 17 x) (rotr 19 x)) (Z.shiftr x 10).

(** Big-endian 32-bit words of a byte sequence. *)
Fixpoint words_of_bytes (n : nat) (bs : list byte) : list Z :=
  match n with
  | O => []
  | S n' =>
      (Z_of_byte (nth 0 bs x00) * 2 ^ 24 + Z_of_byte (nth 1 bs x00) * 2 ^ 16
       + Z_of_byte (nth 2 bs x00) * 2 ^ 8 + Z_of_byte (nth 3 bs x00))
      :: words_of_bytes n' (skipn 4 bs)
  end.

(** The sixty-four round constants, as the bytes of their big-endian
    words. *)
Definition K : list Z :=
  Eval vm_compute in
  words_of_bytes 64 (hex ("428a2f9871374491b5c0fbcfe9b5dba53956c25b59f111f1923f82a4ab1c5ed5"
                       ++ "d807aa9812835b01243185be550c7dc372be5d7480deb1fe9bdc06a7c19bf174"
                       ++ "e49b69c1efbe47860fc19dc6240ca1cc2de92c6f4a7484aa5cb0a9dc76f988da"
                       ++ "983e5152a831c66db00327c8bf597fc7c6e00bf3d5a7914706ca635114292967"
                       ++ "27b70a852e1b21384d2c6dfc53380d13650a7354766a0abb81c2c92e92722c85"
                       ++ "a2bfe8a1a81a664bc24b8b70c76c51a3d192e819d6990624f40e3585106aa070"
                       ++ "19a4c1161e376c082748774c34b0bcb5391c0cb34ed8aa4a5b9cca4f682e6ff3"
                       ++ "748f82ee78a5636f84c878148cc7020890befffaa4506cebbef9a3f7c67178f2")).

Record state := State { sa : Z; sb : Z; sc : Z; sd : Z; se : Z; sf : Z; sg : Z; sh : Z }.

Definition init : state :=
  State 0x6a09e667 0xbb67ae85 0x3c6ef372 0xa54ff53a
        0x510e527f 0x9b05688c 0x1f83d9ab 0x5be0cd19.

(** One round on the working variables, for round constant [k] and
    schedule word [w]. *)
Definition round (s : state) (k w : Z) : state :=
  let t1 := add32 (add32 (add32 (add32 (sh s) (bsig1 (se s))) (Ch (se s) (sf s) (sg s))) k) w in
  let t2 := add32 (bsig0 (sa s)) (Maj (sa s) (sb s) (sc s)) in
  State (add32 t1 t2) (sa s) (sb s) (sc s) (add32 (sd s) t1) (se s) (sf s) (sg s).

(** The schedule is kept as a window of sixteen words, the current word
    first. *)
Definition next_word (win : list Z) : Z :=
  add32 (add32 (add32 (ssig1 (nth 14 win 0)) (nth 9 win 0)) (ssig0 (nth 1 win 0)))
        (nth 0 win 0).

Fixpoint rounds (ks : list Z) (win : list Z) (s : state) : state :=
  match ks with
  | [] => s
  | k :: ks' =>
      rounds ks' (List.tl win ++ [next_word win]) (round s k (nth 0 win 0))
  end.

Definition add_state (s u : state) : state :=
  State (add32 (sa s) (sa u)) (add32 (sb s) (sb u)) (add32 (sc s) (sc u))
        (add32 (sd s) (sd u)) (add32 (se s) (se u)) (add32 (sf s) (sf u))
        (add32 (sg s) (sg u)) (add32 (sh s) (sh u)).

Definition process_block (s : state) (block : list byte) : state :=
  add_state s (rounds K (words_of_bytes 16 block) s).

Fixpoint blocks (n : nat) (bs : list byte) : list (list byte) :=
  match n with
  | O => []
  | S n' => firstn 64 bs :: blocks n' (skipn 64 bs)
  end.

Definition word_bytes (x : Z) : list byte :=
  [byte_of_Z (x / 2 ^ 24); byte_of_Z (x / 2 ^ 16); byte_of_Z (x / 2 ^ 8); byte_of_Z x].

(** The message, a [0x80] byte, zero bytes up to 56 modulo 64, and the
    length in bits on eight bytes, big-endian. *)
Definition pad (msg : list byte) : list byte :=
  let len := Z.of_nat (List.length msg) in
  msg ++ [byte_of_Z 128]
      ++ repeat x00 (Z.to_nat ((55 - len) mod 64))
      ++ word_bytes ((len * 8) / 2 ^ 32) ++ word_bytes (len * 8).

Definition digest_bytes (s : state) : list byte :=
  word_bytes (sa s) ++ word_bytes (sb s) ++ word_bytes (sc s) ++ word_bytes (sd s)
  ++ word_bytes (se s) ++ word_bytes (sf s) ++ word_bytes (sg s) ++ word_bytes (sh s).

Definition sha256 (msg : list byte) : list byte :=
  let padded := pad msg in
  digest_bytes
    (fold_left process_block (blocks (List.length padded / 64) padded) init).

End Sha256.

(** Modelled from the spec: [sha256_hasher.ts] is not part of the sources at
    hand.  The specification gives [hash] as SHA-256 of the input and
    [compress(left, right)] as [hash(left || right)]. *)
#[global] Instance Sha256Hasher : Hasher := {|
  hash := Sha256.sha256;
  compress := fun l r => Sha256.sha256 (l ++ r)
|}.

(* ===================================================================== *)
(** ** The store and the monad of asynchronous methods *)
(* ===================================================================== *)

(** A request served by the store. *)
Inductive event :=
  | Get (key : Buffer)
  | Put (key value : Buffer).

(** The store: its requests, newest first. *)
Definition log := list event.

(** The value a key is bound to: that of the most recent [Put]. *)
Fixpoint lookup_key (key : Buffer) (l : log) : option Buffer :=
  match l with
  | [] => None
  | Get _ :: older => lookup_key key older
  | Put k v :: older => if decide (k = key) then Some v else lookup_key key older
  end.

Inductive error :=
  | BadDepth                    (* Error('Bad depth') *)
  | HashNotFound (level : Z)    (* Error('Hash not found for level ...') *)
  | NotFound (key : Buffer)     (* the store has no entry under the key *)
  | RangeError                  (* a buffer read or write out of range *)
  | WriteError                  (* the store refuses a put *)
  | TypeError                   (* a method called on undefined *)
  | OutOfFuel.                  (* recursion bound of the embedding exhausted *)

Inductive result (A : Type) :=
  | Ok (a : A)
  | Err (e : error).
Arguments Ok {A} a.
Arguments Err {A} e.

(** A computation reads and extends the log; a thrown error keeps the
    requests made before it. *)
Definition M (A : Type) : Type := log -> result A * log.

Definition ret {A} (a : A) : M A := fun l => (Ok a, l).
Definition throw {A} (e : error) : M A := fun l => (Err e, l).
Definition bind {A B} (c : M A) (k : A -> M B) : M B :=
  fun l => match c l with
           | (Ok a, l') => k a l'
           | (Err e, l') => (Err e, l')
           end.

Notation "'let*' x ':=' c 'in' k" := (bind c (fun x => k))
  (at level 10, x name, c at level 100, k at level 200).

(** A call whose promise is dropped (no [await]; also one followed by a
    [.catch] that throws again): its requests are made, its rejection is
    not thrown at the caller. *)
Definition detached {A} (c : M A) : M unit := fun l => (Ok tt, snd (c l)).

Module LevelUp.

(** [await db.get(key)]: rejects when the store has no entry under the key
    (which includes the empty key, that the store refuses). *)
Definition get (key : Buffer) : M Buffer :=
  fun l => match lookup_key key l with
           | Some v => (Ok v, Get key :: l)
           | None => (Err (NotFound key), Get key :: l)
           end.

(** [await db.get(key).catch(() => {})]: undefined when the key is absent. *)
Definition get_or_undefined (key : Buffer) : M (option Buffer) :=
  fun l => (Ok (lookup_key key l), Get key :: l).

(** [await db.put(key, value)]: the store refuses an empty key, and then
    holds no entry for it. *)
Definition put (key value : Buffer) : M unit :=
  fun l => if decide (key = []) then (Err WriteError, l)
           else (Ok tt, Put key value :: l).

End LevelUp.

Definition MAX_DEPTH : Z := 32.
Definition LEAF_BYTES : Z := 64.

(** Modelled from the spec: [hash_path.ts] is not part of the sources at
    hand.  A hash path is the ordered sequence of sibling pairs it is built
    from. *)
Record HashPath := { data : list (Buffer * Buffer) }.

(* ===================================================================== *)
(** ** The class, first rendition *)
(* ===================================================================== *)

Module MerkleTree.

(** The fields of a tree object; [db] is the ambient store and [hasher] the
  [Hasher] instance. *)
Record t := {
name : string;
depth : Z;
root : Buffer
}.

Section WithHasher.
Context `{Hasher}.

(** One turn of the loop [for (let i = depth; i >= 0; i--)] of the
    constructor.  The [put] of the level is not awaited. *)
Definition levelStep (this_depth i : Z) (hashPerLevel : gmap Z Buffer)
  : M (gmap Z Buffer) :=
  if this_depth =? i then
    let buffer := Buffer.alloc 64 x00 in
    ret (<[i := hash buffer]> hashPerLevel)
  else
    match hashPerLevel !! (i + 1) with
    | None => throw (HashNotFound (i + 1))
    | Some childHash =>
        let combinedHash := compress childHash childHash in
        let hashPerLevel := <[i := combinedHash]> hashPerLevel in
        let levelBuffer := Buffer.alloc 64 x00 in
        let levelBuffer := Buffer.copy childHash levelBuffer 0 in
        let levelBuffer := Buffer.copy childHash levelBuffer 32 in
        let* _ := detached (LevelUp.put combinedHash levelBuffer) in
        ret hashPerLevel
    end.

(** The loop, from level [i] down to level 0. *)
Fixpoint levels (this_depth : Z) (i : nat) (hashPerLevel : gmap Z Buffer)
  : M (gmap Z Buffer) :=
  let* hashPerLevel := levelStep this_depth (Z.of_nat i) hashPerLevel in
  match i with
  | O => ret hashPerLevel
  | S j => levels this_depth j hashPerLevel
  end.

(** [new MerkleTree(db, name, depth, root?)] *)
Definition constructor (name : string) (depth : Z) (root : option Buffer)
  : M MerkleTree.t :=
  if negb ((1 <=? depth) && (depth <=? MAX_DEPTH)) then throw BadDepth
  else
    let this_root := Buffer.alloc 32 x00 in
    match root with
    | Some root =>
        ret {| name := name; depth := depth; root := Buffer.copy root this_root 0 |}
    | None =>
        let* hashPerLevel := levels depth (Z.to_nat depth) ∅ in
        match hashPerLevel !! 0 with
        | None => throw TypeError
        | Some top =>
            ret {| name := name; depth := depth; root := Buffer.copy top this_root 0 |}
        end
    end.

(** [writeMetaData()], without a batch. *)
Definition writeMetaData (this : MerkleTree.t) : M unit :=
  let data := Buffer.alloc 40 x00 in
  let data := Buffer.copy (root this) data 0 in
  match Buffer.writeUInt32LE data (depth this) 32 with
  | None => throw RangeError
  | Some data => LevelUp.put (Buffer.from (name this)) data
  end.

(** [MerkleTree.new(db, name, depth = MAX_DEPTH)] *)
Definition new (name : string) (depth : option Z) : M MerkleTree.t :=
  let depth := default MAX_DEPTH depth in
  let* meta := LevelUp.get_or_undefined (Buffer.from name) in
  match meta with
  | Some meta =>
      let root := Buffer.slice meta 0 32 in
      match Buffer.readUInt32LE meta 32 with
      | None => throw RangeError
      | Some depth => constructor name depth (Some root)
      end
  | None =>
      let* tree := constructor name depth None in
      let* _ := writeMetaData tree in
      ret tree
  end.

Definition getRoot (this : MerkleTree.t) : Buffer := root this.

(** The closure [getHashPathRecursively] of [getHashPath]. *)
Fixpoint getHashPathRecursively (this : MerkleTree.t) (index : Z) (fuel : nat)
    (current : Buffer) (depth : Z) : M (list (Buffer * Buffer)) :=
  match fuel with
  | O => throw OutOfFuel
  | S fuel =>
      let* fromDb := LevelUp.get current in
      let leftHash := Buffer.slice fromDb 0 32 in
      let rightHash := Buffer.slice fromDb 32 64 in
      if this.(MerkleTree.depth) =? depth + 1 then
        ret [(leftHash, rightHash)]
      else
        let shouldGoRight :=
          js_and (js_shr index (this.(MerkleTree.depth) - depth - 1)) 1 in
        let* accPath := getHashPathRecursively this index fuel
                     (if truthy shouldGoRight then rightHash else leftHash)
                     (depth + 1) in
        ret (accPath ++ [(leftHash, rightHash)])
  end.

(** [getHashPath(index)] *)
Definition getHashPath (this : MerkleTree.t) (index : Z) : M HashPath :=
  let* path := getHashPathRecursively this index
            (Z.to_nat this.(MerkleTree.depth)) (root this) 0 in
  ret {| data := path |}.

(** The closure [updateRecursively] of [updateElement].  The [put] of the
    new node is not awaited. *)
Fixpoint updateRecursively (this : MerkleTree.t) (index : Z) (value : Buffer)
    (fuel : nat) (current : Buffer) (depth : Z) : M Buffer :=
  if this.(MerkleTree.depth) =? depth then ret (hash value)
  else
    match fuel with
    | O => throw OutOfFuel
    | S fuel =>
        let* fromDb := LevelUp.get current in
        let shouldGoRight :=
          js_and (js_shr index (this.(MerkleTree.depth) - depth - 1)) 1 in
        let* leftHash :=             (if truthy shouldGoRight then ret (Buffer.slice fromDb 0 32)
           else updateRecursively this index value fuel
                  (Buffer.slice fromDb 0 32) (depth + 1)) in
        let* rightHash :=             (if truthy shouldGoRight
           then updateRecursively this index value fuel
                  (Buffer.slice fromDb 32 64) (depth + 1)
           else ret (Buffer.slice fromDb 32 64)) in
        let newHash := compress leftHash rightHash in
        let newChildrenBuffer := Buffer.alloc 64 x00 in
        let newChildrenBuffer := Buffer.copy leftHash newChildrenBuffer 0 in
        let newChildrenBuffer := Buffer.copy rightHash newChildrenBuffer 32 in
        let* _ := detached (LevelUp.put newHash newChildrenBuffer) in
        ret newHash
    end.

(** [updateElement(index, value)]: the tree returned is the receiver
    after the call; the method's own result is its root. *)
Definition updateElement (this : MerkleTree.t) (index : Z) (value : Buffer)
  : M MerkleTree.t :=
  let* newRoot := updateRecursively this index value
               (Z.to_nat this.(MerkleTree.depth)) (root this) 0 in
  let this := {| name := name this; depth := this.(MerkleTree.depth);
                 root := Buffer.copy newRoot (root this) 0 |} in
  let* _ := writeMetaData this in
  ret this.

End WithHasher.
End MerkleTree.

(* ===================================================================== *)
(** ** The class, second rendition *)
(* ===================================================================== *)

Module MerkleTree2.
Import MerkleTree(name, depth, root).

Section WithHasher.
Context `{Hasher}.

Definition isLeaf (this : MerkleTree.t) (index : Z) : bool :=
  this.(MerkleTree.depth) =? index.

(** [writeMetaData()], without a batch. *)
Definition writeMetaData (this : MerkleTree.t) : M unit :=
  let data := Buffer.alloc 40 x00 in
  let data := Buffer.copy (root this) data 0 in
  match Buffer.writeUInt32LE data (depth this) 32 with
  | None => throw RangeError
  | Some data => LevelUp.put (Buffer.from (name this)) data
  end.

(** One turn of the loop of the constructor; [this_depth =? i] is the
    local [isLeaf(i)].  The [put] of the level is not awaited. *)
Definition levelStep (this_depth i : Z) (nodes : gmap Z Buffer)
  : M (gmap Z Buffer) :=
  if this_depth =? i then
    ret (<[i := hash (Buffer.alloc 64 x00)]> nodes)
  else
    match nodes !! (i + 1) with
    | None => throw TypeError
    | Some child =>
        let nodes := <[i := compress child child]> nodes in
        let hashKey := compress child child in
        let hashValue := Buffer.concat [child; child] in
        let* _ := detached (LevelUp.put hashKey hashValue) in
        ret nodes
    end.

Fixpoint levels (this_depth : Z) (i : nat) (nodes : gmap Z Buffer)
  : M (gmap Z Buffer) :=
  let* nodes := levelStep this_depth (Z.of_nat i) nodes in
  match i with
  | O => ret nodes
  | S j => levels this_depth j nodes
  end.

(** [new MerkleTree(db, name, depth, root?)].  The metadata is written
    from inside the constructor while the [root] field still holds its
    initial 32 zero bytes; the field is assigned afterwards.  Neither the
    node entries nor the metadata are awaited. *)
Definition constructor (name : string) (depth : Z) (root : option Buffer)
  : M MerkleTree.t :=
  if negb ((1 <=? depth) && (depth <=? MAX_DEPTH)) then throw BadDepth
  else
    let this_root := Buffer.alloc 32 x00 in
    match root with
    | Some root => ret {| name := name; depth := depth; root := root |}
    | None =>
        let* nodes := levels depth (Z.to_nat depth) ∅ in
        let* _ := detached
                    (writeMetaData {| name := name; depth := depth; root := this_root |}) in
        match nodes !! 0 with
        | None => throw TypeError
        | Some top => ret {| name := name; depth := depth; root := top |}
        end
    end.

(** [MerkleTree.new(db, name, depth = MAX_DEPTH)] *)
Definition new (name : string) (depth : option Z) : M MerkleTree.t :=
  let depth := default MAX_DEPTH depth in
  let* meta := LevelUp.get_or_undefined (Buffer.from name) in
  match meta with
  | Some meta =>
      let root := Buffer.slice meta 0 32 in
      match Buffer.readUInt32LE meta 32 with
      | None => throw RangeError
      | Some depth => constructor name depth (Some root)
      end
  | None =>
      let* tree := constructor name depth None in
      let* _ := writeMetaData tree in
      ret tree
  end.

Definition getRoot (this : MerkleTree.t) : Buffer := root this.

(** The closure [getHashPathRecursive]; the array [hashPath] it pushes to
    is threaded through. *)
Fixpoint getHashPathRecursive (this : MerkleTree.t) (index : Z) (fuel : nat)
    (current : Buffer) (depth : Z) (hashPath : list (Buffer * Buffer))
  : M (list (Buffer * Buffer)) :=
  if isLeaf this depth then ret hashPath
  else
    match fuel with
    | O => throw OutOfFuel
    | S fuel =>
        let* parent := LevelUp.get current in
        let left := Buffer.slice parent 0 32 in
        let right := Buffer.slice parent 32 64 in
        let shouldGoRight :=
          js_and (js_shr index (this.(MerkleTree.depth) - depth - 1)) 1 in
        let* hashPath := getHashPathRecursive this index fuel
                      (if truthy shouldGoRight then right else left)
                      (depth + 1) hashPath in
        ret (hashPath ++ [(left, right)])
    end.

(** [getHashPath(index)] *)
Definition getHashPath (this : MerkleTree.t) (index : Z) : M HashPath :=
  let hashPath := [] in
  let* hashPath := getHashPathRecursive this index
                (Z.to_nat this.(MerkleTree.depth)) (root this) 0 hashPath in
  ret {| data := hashPath |}.

(** The closure [updateRecursive].  Here the [put] of the new node is
    awaited. *)
Fixpoint updateRecursive (this : MerkleTree.t) (index : Z) (value : Buffer)
    (fuel : nat) (current : Buffer) (depth : Z) : M Buffer :=
  if isLeaf this depth then
    let newHash := hash value in
    ret newHash
  else
    match fuel with
    | O => throw OutOfFuel
    | S fuel =>
        let* parent := LevelUp.get current in
        let left := Buffer.slice parent 0 32 in
        let right := Buffer.slice parent 32 64 in
        let shouldGoRight :=
          js_and (js_shr index (this.(MerkleTree.depth) - depth - 1)) 1 in
        if truthy shouldGoRight then
          let* newChildHash := updateRecursive this index value fuel right (depth + 1) in
          let compressedHash := compress left newChildHash in
          let newParentDbValue := Buffer.concat [left; newChildHash] in
          let* _ := LevelUp.put compressedHash newParentDbValue in
          ret compressedHash
        else
          let* newChildHash := updateRecursive this index value fuel left (depth + 1) in
          let compressedHash := compress newChildHash right in
          let newParentDbValue := Buffer.concat [newChildHash; right] in
          let* _ := LevelUp.put compressedHash newParentDbValue in
          ret compressedHash
    end.

(** [updateElement(index, value)] *)
Definition updateElement (this : MerkleTree.t) (index : Z) (value : Buffer)
  : M MerkleTree.t :=
  let* newRoot := updateRecursive this index value
               (Z.to_nat this.(MerkleTree.depth)) (root this) 0 in
  let this := {| name := name this; depth := this.(MerkleTree.depth);
                 root := newRoot |} in
  let* _ := writeMetaData this in
  ret this.

End WithHasher.
End MerkleTree2.


(* ===================================================================== *)
(** ** Vocabulary of the specification *)
(* ===================================================================== *)

(** The two halves of a node entry. *)
Definition lo (v : Buffer) : Buffer := Buffer.slice v 0 32.
Definition hi (v : Buffer) : Buffer := Buffer.slice v 32 64.

(** The routing decision taken [m] levels above the leaves. *)
Definition goesRight (index : Z) (m : nat) : bool :=
  truthy (js_and (js_shr index (Z.of_nat m)) 1).

Definition is_get (e : event) : bool :=
  match e with Get _ => true | Put _ _ => false end.

Definition put_event (e : Buffer * Buffer) : event := Put (fst e) (snd e).

(** The requests of a list that the store serves: a [put] under the empty
    key is refused. *)
Fixpoint served (l : log) : log :=
  match l with
  | [] => []
  | Get k :: older => Get k :: served older
  | Put k v :: older =>
      if decide (k = []) then served older else Put k v :: served older
  end.

(** Whether the key of the put at hand is the one the store refuses. *)
Ltac case_key :=
  match goal with
  | |- context [decide (?key = [])] => destruct (decide (key = []))
  end.

(** The entries [es], newest first, put one after the other from the
    oldest on, each put awaited. *)
Fixpoint puts (es : list (Buffer * Buffer)) : M unit :=
  match es with
  | [] => ret tt
  | e :: older => let* _ := puts older in LevelUp.put (fst e) (snd e)
  end.

(** The values stored by a 64-byte buffer filled by two copies (first
    rendition) and by a concatenation (second rendition). *)
Definition copied (l r : Buffer) : Buffer :=
  Buffer.copy r (Buffer.copy l (Buffer.alloc 64 x00) 0) 32.
Definition concatenated (l r : Buffer) : Buffer := Buffer.concat [l; r].

(** The metadata record [writeMetaData] builds for a tree, if the depth can
    be written. *)
Definition metadata (t : MerkleTree.t) : option Buffer :=
  Buffer.writeUInt32LE
    (Buffer.copy (MerkleTree.root t) (Buffer.alloc 40 x00) 0) (MerkleTree.depth t) 32.

(** The tree [updateElement] leaves behind, first rendition: the new
    digest is copied into the buffer of the root. *)
Definition updated (this : MerkleTree.t) (d : Buffer) : MerkleTree.t :=
  {| MerkleTree.name := MerkleTree.name this;
     MerkleTree.depth := MerkleTree.depth this;
     MerkleTree.root := Buffer.copy d (MerkleTree.root this) 0 |}.

(** Second rendition: the new digest becomes the root. *)
Definition updated2 (this : MerkleTree.t) (d : Buffer) : MerkleTree.t :=
  {| MerkleTree.name := MerkleTree.name this;
     MerkleTree.depth := MerkleTree.depth this;
     MerkleTree.root := d |}.

Section Vocabulary.
Context `{Hasher}.

(** What a stored value builder must do on two digests. *)
Definition joins (mk : Buffer -> Buffer -> Buffer) : Prop :=
  forall l r, List.length l = 32%nat -> List.length r = 32%nat -> mk l r = l ++ r.

(** A content-addressed node entry. *)
Definition addressed (e : Buffer * Buffer) : Prop :=
  List.length (snd e) = 64%nat /\ fst e = compress (lo (snd e)) (hi (snd e)).

(** Every content-addressed entry of [l] is still bound the same way in
    [l']. *)
Definition preserves (l l' : log) : Prop :=
  forall k v, lookup_key k l = Some v -> addressed (k, v) -> lookup_key k l' = Some v.

(** Every entry of [es] is bound in [l']. *)
Definition holds (l' : log) (es : list (Buffer * Buffer)) : Prop :=
  forall e, In e es -> lookup_key (fst e) l' = Some (snd e).


(** The store holds, under digest [d], a complete binary tree of height
    [n] in which every node is stored under the [compress] of its two
    children. *)
Fixpoint merkle (l : log) (d : Buffer) (n : nat) : bool :=
  match n with
  | O => true
  | S m =>
      match lookup_key d l with
      | None => false
      | Some v =>
          bool_decide (List.length v = 64%nat)
          && bool_decide (d = compress (lo v) (hi v))
          && merkle l (lo v) m && merkle l (hi v) m
      end
  end.

(** A tree object over a store: its depth is legal and the store holds a
    complete tree of that depth under its root. *)
Definition fullyConstructed (l : log) (t : MerkleTree.t) : bool :=
  (1 <=? MerkleTree.depth t) && (MerkleTree.depth t <=? MAX_DEPTH)
  && merkle l (MerkleTree.root t) (Z.to_nat (MerkleTree.depth t)).

(** The sibling pairs read on the way from [cur], [n] levels above the
    leaves, down to the leaf at [index]; leaf-most pair first. *)
Fixpoint path_from (l : log) (index : Z) (cur : Buffer) (n : nat)
  : result (list (Buffer * Buffer)) :=
  match n with
  | O => Ok []
  | S m =>
      match lookup_key cur l with
      | None => Err (NotFound cur)
      | Some v =>
          match path_from l index (if goesRight index m then hi v else lo v) m with
          | Ok p => Ok (p ++ [(lo v, hi v)])
          | Err e => Err e
          end
      end
  end.

(** The digest an update of the leaf at [index] to digest [leaf] gives the
    node [cur], with the entries it writes, newest first; [mk] builds the
    stored value from the two children. *)
Fixpoint update_from (mk : Buffer -> Buffer -> Buffer) (l : log) (index : Z)
    (leaf cur : Buffer) (n : nat) : result (Buffer * list (Buffer * Buffer)) :=
  match n with
  | O => Ok (leaf, [])
  | S m =>
      match lookup_key cur l with
      | None => Err (NotFound cur)
      | Some v =>
          let b := goesRight index m in
          match update_from mk l index leaf (if b then hi v else lo v) m with
          | Ok (d, es) =>
              let l' := if b then lo v else d in
              let r' := if b then d else hi v in
              Ok (compress l' r', (compress l' r', mk l' r') :: es)
          | Err e => Err e
          end
      end
  end.

(** The check a verifier makes on a hash path: starting from the digest of
    the leaf, at the [j]-th pair the slot selected by bit [j] of the index
    must hold the current digest, and the pair is compressed into the
    next one. *)
Fixpoint recompute (path : list (Buffer * Buffer)) (index : Z) (j : nat)
    (cur : Buffer) : option Buffer :=
  match path with
  | [] => Some cur
  | (l, r) :: rest =>
      if decide ((if Z.testbit index (Z.of_nat j) then r else l) = cur)
      then recompute rest index (S j) (compress l r)
      else None
  end.

(** The node visited at level [k] (the root is level 0) on the way to the
    leaf at [index] in a tree of depth [d]: descend right when bit
    [d - k - 1] of the index is 1, left otherwise. *)
Fixpoint node_at (l : log) (index : Z) (d : Z) (top : Buffer) (k : nat)
  : option Buffer :=
  match k with
  | O => Some top
  | S j =>
      match node_at l index d top j with
      | None => None
      | Some parent =>
          match lookup_key parent l with
          | None => None
          | Some v =>
              Some (if Z.testbit index (d - Z.of_nat j - 1) then hi v else lo v)
          end
      end
  end.

(** The values of the node entries written so far: every [Put] but the
    metadata of the tree called [name]. *)
Fixpoint node_values (name : string) (l : log) : list Buffer :=
  match l with
  | [] => []
  | Get _ :: older => node_values name older
  | Put k v :: older =>
      if decide (k = Buffer.from name) then node_values name older
      else v :: node_values name older
  end.

(** [compress] has sent no two of these node values to one digest. *)
Definition collision_free (name : string) (l : log) : bool :=
  let vs := node_values name l in
  forallb (fun v =>
    forallb (fun v' =>
      implb (bool_decide (compress (lo v) (hi v) = compress (lo v') (hi v')))
            (bool_decide (v = v'))) vs) vs.

(** The digest of a subtree of height [n] whose leaves all hold 64 zero
    bytes. *)
Fixpoint zero_digest (n : nat) : Buffer :=
  match n with
  | O => hash (Buffer.alloc 64 x00)
  | S m => let below := zero_digest m in compress below below
  end.

(** The entries a construction writes for the levels of height 1 to [n],
    newest first; [mk] builds the stored value from the two children. *)
Fixpoint zero_puts (mk : Buffer -> Buffer -> Buffer) (n : nat) : log :=
  match n with
  | O => []
  | S m => Put (zero_digest (S m)) (mk (zero_digest m) (zero_digest m))
             :: zero_puts mk m
  end.

(** The digest of level [i] of the all-zero tree of depth [d], level [d]
    being the leaves. *)
Definition level_digest (d i : nat) : Buffer := zero_digest (d - i).

(** The node entry of level [i] of the all-zero tree of depth [d]. *)
Definition level_entry (d i : nat) : event :=
  Put (level_digest d i) (level_digest d (S i) ++ level_digest d (S i)).

(** What an operation that takes the store from [l] to [l'] must do for
    the store to stay content-addressed: the node entries it writes are
    stored under the [compress] of their halves; and, [compress] having
    produced no collision, the node entries bound before are bound the
    same way after, as are those it has written. *)
Definition keeps_addressing (name : string) (l l' : log) : Prop :=
  exists new,
    l' = new ++ l
    /\ (forall k v, In (Put k v) new -> k <> Buffer.from name -> addressed (k, v))
    /\ (collision_free name l' = true ->
        preserves l l'
        /\ forall k v, In (Put k v) new -> k <> Buffer.from name ->
                       lookup_key k l' = Some v).

(** A sequence of updates, each on the tree the previous one left. *)
Fixpoint updateAll (this : MerkleTree.t) (us : list (Z * Buffer)) : M MerkleTree.t :=
  match us with
  | [] => ret this
  | (index, value) :: rest =>
      let* this := MerkleTree.updateElement this index value in
      updateAll this rest
  end.

End Vocabulary.

(** The store holds a record from which [new] rebuilds the tree [t]. *)
Definition restorable (l : log) (t : MerkleTree.t) : Prop :=
  1 <= MerkleTree.depth t <= 32
  /\ List.length (MerkleTree.root t) = 32%nat
  /\ exists m, lookup_key (Buffer.from (MerkleTree.name t)) l = Some m
               /\ Buffer.readUInt32LE m 32 = Some (MerkleTree.depth t)
               /\ Buffer.slice m 0 32 = MerkleTree.root t.

(* ===================================================================== *)
(** ** A worked scenario *)
(* ===================================================================== *)

(** The scenario of the specification, under SHA-256: a tree of depth 2
    called "test" built in an empty store, then the leaf of index 3 set to
    64 bytes [0x01]. *)
Module Scenario.

Definition value : Buffer := Buffer.alloc 64 x01.

Definition tree0 : MerkleTree.t :=
  {| MerkleTree.name := "test"; MerkleTree.depth := 2;
     MerkleTree.root := zero_digest 2 |}.

Definition log0 : log := snd (MerkleTree.new "test" (Some 2) []).

(** Index 3 is the right child of the right child of the root. *)
Definition tree1 : MerkleTree.t :=
  {| MerkleTree.name := "test"; MerkleTree.depth := 2;
     MerkleTree.root :=
       compress (zero_digest 1) (compress (zero_digest 0) (hash value)) |}.

Definition log1 : log := snd (MerkleTree.updateElement tree0 3 value log0).

(** The record the update leaves under the name. *)
Definition meta1 : Buffer :=
  MerkleTree.root tree1 ++ [x02; x00; x00; x00; x00; x00; x00; x00].

End Scenario.

(* ===================================================================== *)
(** ** Vocabulary of the further properties *)
(* ===================================================================== *)

(** The [get] requests made on the way down from [cur], [n] levels above
    the leaves, towards the leaf at [index]; newest first.  The descent
    stops at the first key the store does not hold. *)
Fixpoint reads (l : log) (index : Z) (cur : Buffer) (n : nat) : log :=
  match n with
  | O => []
  | S m =>
      match lookup_key cur l with
      | None => [Get cur]
      | Some v => reads l index (if goesRight index m then hi v else lo v) m ++ [Get cur]
      end
  end.

(** The digest the store holds for the leaf at [index] below [cur]. *)
Fixpoint leaf_digest (l : log) (index : Z) (cur : Buffer) (n : nat) : option Buffer :=
  match n with
  | O => Some cur
  | S m =>
      match lookup_key cur l with
      | None => None
      | Some v => leaf_digest l index (if goesRight index m then hi v else lo v) m
      end
  end.

(** The node values of a store, each with the digest [compress] gives it,
    computed once. *)
Definition keyed `{HH : Hasher} (name : string) (l : log) : list (Buffer * Buffer) :=
  map (fun v => (compress (lo v) (hi v), v)) (node_values name l).

(** No two different values of the list under one digest. *)
Definition distinct_keys (kvs : list (Buffer * Buffer)) : bool :=
  forallb (fun p =>
    forallb (fun q =>
      implb (bool_decide (fst p = fst q)) (bool_decide (snd p = snd q))) kvs) kvs.

Module Scenario2.
Import Scenario.

(** A leaf of zero bytes, as every leaf of a fresh tree. *)
Definition blank : Buffer := Buffer.alloc 64 x00.

(** Index 0 is the left child of the left child of the root. *)
Definition tree2 : MerkleTree.t :=
  {| MerkleTree.name := "test"; MerkleTree.depth := 2;
     MerkleTree.root :=
       compress (compress (hash value) (zero_digest 0)) (zero_digest 1) |}.

Definition log2 : log := snd (MerkleTree.updateElement tree0 0 value log0).

(** The tree of the scenario as the constructor builds it under the empty
    name from the same root. *)
Definition nameless : MerkleTree.t :=
  {| MerkleTree.name := ""; MerkleTree.depth := 2;
     MerkleTree.root := zero_digest 2 |}.

(** Stores whose record under the name cannot be decoded: an empty record,
    and a record of 40 zero bytes (depth 0). *)
Definition truncated : log := [Put (Buffer.from "test") []].

Definition zeroed : log := [Put (Buffer.from "test") (Buffer.alloc 40 x00)].

End Scenario2.

(* ===================================================================== *)
(** ** Facts about bytes, buffers and the 32-bit operators *)
(* ===================================================================== *)

Lemma Z_of_byte_of_Z (z : Z) : Z_of_byte (byte_of_Z z) = z mod 256.
Proof.
  unfold Z_of_byte, byte_of_Z.
  assert (Hr : 0 <= z mod 256 < 256) by (apply Z.mod_pos_bound; lia).
  destruct (Byte.of_N (Z.to_N (z mod 256))) as [b|] eqn:E.
  - apply Byte.to_of_N in E. rewrite E. lia.
  - apply Byte.of_N_None_iff in E. lia.
Qed.

Lemma Z_of_byte_small (z : Z) : 0 <= z < 256 -> Z_of_byte (byte_of_Z z) = z.
Proof. intros. rewrite Z_of_byte_of_Z. apply Z.mod_small. lia. Qed.

Lemma alloc_length n b : List.length (Buffer.alloc n b) = n.
Proof. apply repeat_length. Qed.

Lemma slice_app_lo (l r : Buffer) :
  List.length l = 32%nat -> Buffer.slice (l ++ r) 0 32 = l.
Proof.
  intros Hl. unfold Buffer.slice. rewrite drop_0.
  apply take_app_length'. rewrite Hl. reflexivity.
Qed.

Lemma slice_app_hi (l r : Buffer) :
  List.length l = 32%nat -> List.length r = 32%nat ->
  Buffer.slice (l ++ r) 32 64 = r.
Proof.
  intros Hl Hr. unfold Buffer.slice.
  rewrite (drop_app_length' l r 32) by (symmetry; exact Hl).
  change (64 - 32)%nat with 32%nat. apply take_ge. lia.
Qed.

Lemma slice_lo_length (v : Buffer) :
  (32 <= List.length v)%nat -> List.length (Buffer.slice v 0 32) = 32%nat.
Proof.
  intros. unfold Buffer.slice. rewrite drop_0.
  change (32 - 0)%nat with 32%nat. rewrite length_take. lia.
Qed.

Lemma slice_hi_length (v : Buffer) :
  (64 <= List.length v)%nat -> List.length (Buffer.slice v 32 64) = 32%nat.
Proof.
  intros. unfold Buffer.slice.
  change (64 - 32)%nat with 32%nat. rewrite length_take, length_drop. lia.
Qed.

Lemma slice_lo_hi (v : Buffer) :
  List.length v = 64%nat -> Buffer.slice v 0 32 ++ Buffer.slice v 32 64 = v.
Proof.
  intros Hv. unfold Buffer.slice. rewrite drop_0.
  change (32 - 0)%nat with 32%nat. change (64 - 32)%nat with 32%nat.
  rewrite (take_ge (drop 32 v)) by (rewrite length_drop; lia).
  apply take_drop.
Qed.

(** Copying a source that fills the target exactly. *)
Lemma copy_full (src target : Buffer) :
  List.length src = List.length target -> Buffer.copy src target 0 = src.
Proof.
  intros Hl. unfold Buffer.copy. rewrite take_0, Nat.sub_0_r. simpl.
  rewrite take_ge, drop_ge by lia. apply app_nil_r.
Qed.

Lemma copy_length (src target : Buffer) (start : nat) :
  (start <= List.length target)%nat ->
  List.length (Buffer.copy src target start) = List.length target.
Proof.
  intros. unfold Buffer.copy.
  rewrite !length_app, !length_take, length_drop. lia.
Qed.

(** A 32-byte source copied to the front of a longer zero buffer. *)
Lemma copy_front (src : Buffer) (n : nat) :
  List.length src = 32%nat -> (32 <= n)%nat ->
  Buffer.copy src (Buffer.alloc n x00) 0 = src ++ Buffer.alloc (n - 32) x00.
Proof.
  intros Hs Hn. unfold Buffer.copy. rewrite alloc_length, take_0, Nat.sub_0_r.
  simpl. rewrite take_ge by lia. f_equal.
  unfold Buffer.alloc. rewrite Hs.
  replace n with (32 + (n - 32))%nat at 1 by lia.
  rewrite repeat_app. apply drop_app_length'. rewrite repeat_length. reflexivity.
Qed.

(** Two 32-byte digests copied into a fresh 64-byte buffer at 0 and 32. *)
Lemma copy_pair (l r : Buffer) :
  List.length l = 32%nat -> List.length r = 32%nat ->
  Buffer.copy r (Buffer.copy l (Buffer.alloc 64 x00) 0) 32 = l ++ r.
Proof.
  intros Hl Hr. rewrite (copy_front l 64) by (assumption || lia).
  unfold Buffer.copy.
  rewrite length_app, alloc_length, Hl, Hr.
  rewrite (take_app_length' l _ 32) by (symmetry; exact Hl).
  rewrite take_ge by (rewrite Hr; simpl; lia).
  rewrite drop_ge by (rewrite length_app, alloc_length, Hl; simpl; lia).
  rewrite app_nil_r. reflexivity.
Qed.

Lemma writeUInt32LE_meta (r : Buffer) (d : Z) :
  List.length r = 32%nat -> 0 <= d < 2 ^ 32 ->
  Buffer.writeUInt32LE (r ++ Buffer.alloc 8 x00) d 32
  = Some (r ++ [byte_of_Z d; byte_of_Z (d / 2 ^ 8); byte_of_Z (d / 2 ^ 16);
                byte_of_Z (d / 2 ^ 24); x00; x00; x00; x00]).
Proof.
  intros Hr Hd. unfold Buffer.writeUInt32LE.
  rewrite length_app, alloc_length, Hr.
  replace (0 <=? d) with true by (symmetry; apply Z.leb_le; lia).
  replace (d <? 2 ^ 32) with true by (symmetry; apply Z.ltb_lt; lia).
  simpl andb. cbv iota.
  rewrite (take_app_length' r _ 32) by (symmetry; exact Hr).
  rewrite (drop_app_add' r _ 32 4) by (symmetry; exact Hr).
  reflexivity.
Qed.

Lemma readUInt32LE_meta (r : Buffer) (d : Z) :
  List.length r = 32%nat -> 0 <= d < 2 ^ 32 ->
  Buffer.readUInt32LE
    (r ++ [byte_of_Z d; byte_of_Z (d / 2 ^ 8); byte_of_Z (d / 2 ^ 16);
           byte_of_Z (d / 2 ^ 24); x00; x00; x00; x00]) 32
  = Some d.
Proof.
  intros Hr Hd. unfold Buffer.readUInt32LE, Buffer.byte_at.
  rewrite length_app, Hr. simpl Nat.leb. cbv iota.
  rewrite !app_nth2 by lia. rewrite Hr. simpl nth.
  rewrite !Z_of_byte_of_Z. f_equal.
  change 256 with (2 ^ 8).
  pose proof (Z.div_mod d (2 ^ 8) ltac:(lia)) as E0.
  pose proof (Z.div_mod (d / 2 ^ 8) (2 ^ 8) ltac:(lia)) as E1.
  pose proof (Z.div_mod (d / 2 ^ 16) (2 ^ 8) ltac:(lia)) as E2.
  assert (E16 : d / 2 ^ 16 = d / 2 ^ 8 / 2 ^ 8) by (rewrite Z.div_div by lia; reflexivity).
  assert (E24 : d / 2 ^ 24 = d / 2 ^ 16 / 2 ^ 8) by (rewrite Z.div_div by lia; reflexivity).
  assert (S24 : 0 <= d / 2 ^ 24 < 2 ^ 8).
  { split; [apply Z.div_pos; lia | apply Z.div_lt_upper_bound; lia]. }
  rewrite (Z.mod_small (d / 2 ^ 24)) by lia.
  rewrite <- E24 in E2. rewrite <- E16 in E1. lia.
Qed.

Lemma to_int32_range (x : Z) : - 2 ^ 31 <= to_int32 x < 2 ^ 31.
Proof.
  unfold to_int32. pose proof (Z.mod_pos_bound (x + 2 ^ 31) (2 ^ 32) ltac:(lia)). lia.
Qed.

Lemma to_int32_small (x : Z) : - 2 ^ 31 <= x < 2 ^ 31 -> to_int32 x = x.
Proof. intros. unfold to_int32. rewrite Z.mod_small by lia. lia. Qed.

Lemma to_int32_testbit (x s : Z) :
  0 <= s < 32 -> Z.testbit (to_int32 x) s = Z.testbit x s.
Proof.
  intros Hs.
  rewrite <- (Z.mod_pow2_bits_low (to_int32 x) 32 s) by lia.
  rewrite <- (Z.mod_pow2_bits_low x 32 s) by lia.
  f_equal. unfold to_int32.
  rewrite Zminus_mod_idemp_l. f_equal. lia.
Qed.

(** The routing bit computed by [(index >> s) & 1] is bit [s] of [index]. *)
Lemma shouldGoRight_testbit (index s : Z) :
  0 <= s < 32 -> truthy (js_and (js_shr index s) 1) = Z.testbit index s.
Proof.
  intros Hs. unfold js_and, js_shr.
  rewrite (Z.mod_small s 32) by lia.
  pose proof (to_int32_range index) as Hr.
  set (a := to_int32 index) in *.
  assert (Hy : - 2 ^ 31 <= Z.shiftr a s < 2 ^ 31).
  { rewrite Z.shiftr_div_pow2 by lia.
    assert (0 < 2 ^ s) by (apply Z.pow_pos_nonneg; lia).
    assert (1 <= 2 ^ s) by lia.
    split.
    - apply Z.div_le_lower_bound; [lia|]. nia.
    - apply Z.div_lt_upper_bound; [lia|]. nia. }
  rewrite (to_int32_small (Z.shiftr a s)) by exact Hy.
  rewrite (to_int32_small 1) by lia.
  change 1 with (Z.ones 1) at 1. rewrite Z.land_ones by lia.
  change (2 ^ 1) with 2.
  rewrite <- (to_int32_testbit index s) by lia. fold a.
  replace (Z.testbit a s) with (Z.testbit (Z.shiftr a s) 0)
    by (rewrite Z.shiftr_spec by lia; f_equal; lia).
  rewrite Z.bit0_odd.
  pose proof (Z.mod_pos_bound (Z.shiftr a s) 2 ltac:(lia)) as Hm.
  rewrite (to_int32_small (Z.shiftr a s mod 2)) by lia.
  unfold truthy. rewrite Zodd_mod.
  destruct (Z.eqb_spec (Z.shiftr a s mod 2) 0) as [E|E];
    destruct (Z.eqb_spec (Z.shiftr a s mod 2) 1) as [E'|E']; simpl; try reflexivity; lia.
Qed.

(** SHA-256 digests are 32 bytes long. *)
#[global] Instance Sha256_DigestLength : DigestLength Sha256Hasher.
Proof. split; intros; reflexivity. Qed.

(* ===================================================================== *)
(** ** The store *)
(* ===================================================================== *)

Lemma lookup_key_app (k : Buffer) (new old : log) :
  lookup_key k (new ++ old)
  = match lookup_key k new with Some v => Some v | None => lookup_key k old end.
Proof.
  induction new as [|[g|k' v] new IH]; simpl; auto.
  destruct (decide (k' = k)); auto.
Qed.

Lemma lookup_key_gets (k : Buffer) (gets old : log) :
  forallb is_get gets = true -> lookup_key k (gets ++ old) = lookup_key k old.
Proof.
  induction gets as [|[g|k' v] gets IH]; simpl; intros Hg; auto.
  discriminate.
Qed.

Lemma lookup_key_In (k v : Buffer) (l : log) :
  lookup_key k l = Some v -> In (Put k v) l.
Proof.
  induction l as [|[g|k' v'] l IH]; simpl; intros E.
  - discriminate.
  - right; auto.
  - destruct (decide (k' = k)) as [->|].
    + injection E as ->. left; reflexivity.
    + right; auto.
Qed.

Lemma In_lookup_key (k v : Buffer) (l : log) :
  In (Put k v) l -> exists v', lookup_key k l = Some v'.
Proof.
  induction l as [|[g|k' v'] l IH]; simpl; intros Hin.
  - contradiction.
  - destruct Hin as [E|Hin]; [discriminate | auto].
  - destruct (decide (k' = k)) as [->|Hne].
    + eauto.
    + destruct Hin as [E|Hin]; [injection E; intros; congruence | auto].
Qed.

Lemma forallb_is_get_app (a b : log) :
  forallb is_get a = true -> forallb is_get b = true ->
  forallb is_get (a ++ b) = true.
Proof. intros Ha Hb. rewrite forallb_app, Ha, Hb. reflexivity. Qed.

(** A log whose [put]s all have a key is served as it is. *)
Lemma served_keyed (l : log) :
  (forall k v, In (Put k v) l -> k <> []) -> served l = l.
Proof.
  induction l as [|[k|k v] l IH]; simpl; intros Hk; [reflexivity | |].
  - rewrite IH; [reflexivity|]. intros k' v' Hin. apply (Hk k' v'). right. exact Hin.
  - rewrite decide_False by (apply (Hk k v); left; reflexivity).
    rewrite IH; [reflexivity|]. intros k' v' Hin. apply (Hk k' v'). right. exact Hin.
Qed.


(** A put that is not awaited. *)
Lemma detached_put (k v : Buffer) (l : log) :
  detached (LevelUp.put k v) l = (Ok tt, served [Put k v] ++ l).
Proof.
  unfold detached, LevelUp.put. simpl. destruct (decide (k = [])); reflexivity.
Qed.

(** Awaited puts of entries that all have a key. *)
Lemma puts_keyed (es : list (Buffer * Buffer)) (l : log) :
  Forall (fun e => fst e <> []) es -> puts es l = (Ok tt, map put_event es ++ l).
Proof.
  induction 1 as [|e es He _ IH]; [reflexivity|].
  simpl. unfold bind. rewrite IH. unfold LevelUp.put.
  rewrite decide_False by exact He. reflexivity.
Qed.

(** Awaited puts throw nothing but the refusal of the store. *)
Lemma puts_throws (es : list (Buffer * Buffer)) (l : log) :
  fst (puts es l) = Ok tt \/ fst (puts es l) = Err WriteError.
Proof.
  induction es as [|e es IH]; [left; reflexivity|].
  simpl. unfold bind. destruct (puts es l) as [[[]|x] l1]; simpl in *.
  - unfold LevelUp.put. destruct (decide (fst e = [])); simpl; auto.
  - destruct IH as [IH|IH]; [discriminate | auto].
Qed.


Section Renditions.
Context `{Hasher}.

Lemma path_from_ext (l1 l2 : log) (index : Z) :
  (forall k, lookup_key k l1 = lookup_key k l2) ->
  forall n cur, path_from l1 index cur n = path_from l2 index cur n.
Proof.
  intros Hl. induction n as [|n IH]; intros cur; simpl; auto.
  rewrite Hl. destruct (lookup_key cur l2); auto. rewrite IH. reflexivity.
Qed.

Lemma update_from_ext mk (l1 l2 : log) (index : Z) (leaf : Buffer) :
  (forall k, lookup_key k l1 = lookup_key k l2) ->
  forall n cur, update_from mk l1 index leaf cur n = update_from mk l2 index leaf cur n.
Proof.
  intros Hl. induction n as [|n IH]; intros cur; simpl; auto.
  rewrite Hl. destruct (lookup_key cur l2); auto. rewrite IH. reflexivity.
Qed.

Lemma path_from_S (l : log) (index : Z) (cur : Buffer) (m : nat) :
  path_from l index cur (S m)
  = match lookup_key cur l with
    | None => Err (NotFound cur)
    | Some v =>
        match path_from l index (if goesRight index m then hi v else lo v) m with
        | Ok p => Ok (p ++ [(lo v, hi v)])
        | Err e => Err e
        end
    end.
Proof. reflexivity. Qed.

Lemma update_from_S mk (l : log) (index : Z) (leaf cur : Buffer) (m : nat) :
  update_from mk l index leaf cur (S m)
  = match lookup_key cur l with
    | None => Err (NotFound cur)
    | Some v =>
        match update_from mk l index leaf
                (if goesRight index m then hi v else lo v) m with
        | Ok (d, es) =>
            Ok (compress (if goesRight index m then lo v else d)
                         (if goesRight index m then d else hi v),
                (compress (if goesRight index m then lo v else d)
                          (if goesRight index m then d else hi v),
                 mk (if goesRight index m then lo v else d)
                    (if goesRight index m then d else hi v)) :: es)
        | Err e => Err e
        end
    end.
Proof. reflexivity. Qed.

Lemma getHashPathRecursively_S this index fuel cur k :
  MerkleTree.getHashPathRecursively this index (S fuel) cur k
  = bind (LevelUp.get cur) (fun fromDb =>
      if MerkleTree.depth this =? k + 1
      then ret [(lo fromDb, hi fromDb)]
      else bind (MerkleTree.getHashPathRecursively this index fuel
                   (if truthy (js_and (js_shr index (MerkleTree.depth this - k - 1)) 1)
                    then hi fromDb else lo fromDb) (k + 1))
                (fun accPath => ret (accPath ++ [(lo fromDb, hi fromDb)]))).
Proof. reflexivity. Qed.

(** [getHashPathRecursively], first rendition, reads the path. *)
Lemma getHashPathRecursively_spec (this : MerkleTree.t) (index : Z) :
  forall n cur k l,
    Z.of_nat (S n) = MerkleTree.depth this - k ->
    exists gets, forallb is_get gets = true /\
      MerkleTree.getHashPathRecursively this index (S n) cur k l
      = (path_from l index cur (S n), gets ++ l).
Proof.
  induction n as [|n IH]; intros cur k l Hk;
    rewrite getHashPathRecursively_S, path_from_S;
    unfold bind at 1; unfold LevelUp.get;
    destruct (lookup_key cur l) as [v|];
    try (exists [Get cur]; split; reflexivity).
  - exists [Get cur]. split; [reflexivity|].
    replace (MerkleTree.depth this =? k + 1) with true
      by (symmetry; apply Z.eqb_eq; lia).
    reflexivity.
  - replace (MerkleTree.depth this =? k + 1) with false
      by (symmetry; apply Z.eqb_neq; lia).
    replace (MerkleTree.depth this - k - 1) with (Z.of_nat (S n)) by lia.
    fold (goesRight index (S n)).
    destruct (IH (if goesRight index (S n) then hi v else lo v)
                (k + 1) (Get cur :: l) ltac:(lia)) as (gets & Hg & E).
    exists (gets ++ [Get cur]). split.
    { apply forallb_is_get_app; auto. }
    rewrite <- app_assoc. simpl app.
    unfold bind. rewrite E.
    rewrite (path_from_ext (Get cur :: l) l) by reflexivity.
    destruct (path_from l index _ (S n)); reflexivity.
Qed.

Lemma updateRecursively_S this index value fuel cur k :
  MerkleTree.updateRecursively this index value (S fuel) cur k
  = if MerkleTree.depth this =? k then ret (hash value)
    else bind (LevelUp.get cur) (fun fromDb =>
      bind (if truthy (js_and (js_shr index (MerkleTree.depth this - k - 1)) 1)
            then ret (lo fromDb)
            else MerkleTree.updateRecursively this index value fuel (lo fromDb) (k + 1))
        (fun leftHash =>
      bind (if truthy (js_and (js_shr index (MerkleTree.depth this - k - 1)) 1)
            then MerkleTree.updateRecursively this index value fuel (hi fromDb) (k + 1)
            else ret (hi fromDb))
        (fun rightHash =>
      bind (detached
              (LevelUp.put (compress leftHash rightHash) (copied leftHash rightHash)))
        (fun _ => ret (compress leftHash rightHash))))).
Proof. reflexivity. Qed.

(** [updateRecursively], first rendition: the reads all come before the
    writes, and on an error nothing is written.  The puts are not awaited:
    one the store refuses leaves no entry and stops nothing. *)
Lemma updateRecursively_spec (this : MerkleTree.t) (index : Z) (value : Buffer) :
  forall n cur k l,
    Z.of_nat n = MerkleTree.depth this - k ->
    exists gets, forallb is_get gets = true /\
      MerkleTree.updateRecursively this index value n cur k l
      = match update_from copied l index (hash value) cur n with
        | Ok (d, es) => (Ok d, served (map put_event es) ++ gets ++ l)
        | Err e => (Err e, gets ++ l)
        end.
Proof.
  induction n as [|n IH]; intros cur k l Hk.
  - exists []. split; [reflexivity|]. simpl.
    replace (MerkleTree.depth this =? k) with true
      by (symmetry; apply Z.eqb_eq; lia).
    reflexivity.
  - rewrite updateRecursively_S, update_from_S.
    replace (MerkleTree.depth this =? k) with false
      by (symmetry; apply Z.eqb_neq; lia).
    unfold bind at 1. unfold LevelUp.get.
    destruct (lookup_key cur l) as [v|];
      [|exists [Get cur]; split; reflexivity].
    replace (MerkleTree.depth this - k - 1) with (Z.of_nat n) by lia.
    fold (goesRight index n).
    destruct (IH (if goesRight index n then hi v else lo v)
                (k + 1) (Get cur :: l) ltac:(lia)) as (gets & Hg & E).
    rewrite (update_from_ext copied (Get cur :: l) l) in E by reflexivity.
    exists (gets ++ [Get cur]). split.
    { apply forallb_is_get_app; auto. }
    rewrite <- !app_assoc. simpl app.
    destruct (goesRight index n); unfold bind, ret; rewrite E;
      destruct (update_from copied l index (hash value) _ n) as [[d es]|e];
      try reflexivity;
      rewrite detached_put; cbn [map put_event fst snd served app];
      case_key; reflexivity.
Qed.

Lemma getHashPathRecursive_S this index fuel cur k acc :
  MerkleTree2.getHashPathRecursive this index (S fuel) cur k acc
  = if MerkleTree2.isLeaf this k then ret acc
    else bind (LevelUp.get cur) (fun parent =>
      bind (MerkleTree2.getHashPathRecursive this index fuel
              (if truthy (js_and (js_shr index (MerkleTree.depth this - k - 1)) 1)
               then hi parent else lo parent) (k + 1) acc)
           (fun hashPath => ret (hashPath ++ [(lo parent, hi parent)]))).
Proof. reflexivity. Qed.

(** [getHashPathRecursive], second rendition, appends the path to the
    array it is given. *)
Lemma getHashPathRecursive_spec (this : MerkleTree.t) (index : Z) :
  forall n cur k acc l,
    Z.of_nat n = MerkleTree.depth this - k ->
    exists gets, forallb is_get gets = true /\
      MerkleTree2.getHashPathRecursive this index n cur k acc l
      = (match path_from l index cur n with
         | Ok p => Ok (acc ++ p)
         | Err e => Err e
         end, gets ++ l).
Proof.
  induction n as [|n IH]; intros cur k acc l Hk.
  - exists []. split; [reflexivity|]. simpl. unfold MerkleTree2.isLeaf.
    replace (MerkleTree.depth this =? k) with true
      by (symmetry; apply Z.eqb_eq; lia).
    rewrite app_nil_r. reflexivity.
  - rewrite getHashPathRecursive_S, path_from_S. unfold MerkleTree2.isLeaf.
    replace (MerkleTree.depth this =? k) with false
      by (symmetry; apply Z.eqb_neq; lia).
    unfold bind at 1. unfold LevelUp.get.
    destruct (lookup_key cur l) as [v|];
      [|exists [Get cur]; split; reflexivity].
    replace (MerkleTree.depth this - k - 1) with (Z.of_nat n) by lia.
    fold (goesRight index n).
    destruct (IH (if goesRight index n then hi v else lo v)
                (k + 1) acc (Get cur :: l) ltac:(lia)) as (gets & Hg & E).
    rewrite (path_from_ext (Get cur :: l) l) in E by reflexivity.
    exists (gets ++ [Get cur]). split.
    { apply forallb_is_get_app; auto. }
    rewrite <- !app_assoc. simpl app.
    unfold bind, ret. rewrite E.
    destruct (path_from l index _ n) as [p|e]; [|reflexivity].
    rewrite app_assoc. reflexivity.
Qed.

Lemma updateRecursive_S this index value fuel cur k :
  MerkleTree2.updateRecursive this index value (S fuel) cur k
  = if MerkleTree2.isLeaf this k then ret (hash value)
    else bind (LevelUp.get cur) (fun parent =>
      if truthy (js_and (js_shr index (MerkleTree.depth this - k - 1)) 1)
      then bind (MerkleTree2.updateRecursive this index value fuel (hi parent) (k + 1))
             (fun newChildHash =>
                bind (LevelUp.put (compress (lo parent) newChildHash)
                                  (concatenated (lo parent) newChildHash))
                     (fun _ => ret (compress (lo parent) newChildHash)))
      else bind (MerkleTree2.updateRecursive this index value fuel (lo parent) (k + 1))
             (fun newChildHash =>
                bind (LevelUp.put (compress newChildHash (hi parent))
                                  (concatenated newChildHash (hi parent)))
                     (fun _ => ret (compress newChildHash (hi parent))))).
Proof. reflexivity. Qed.

(** [updateRecursive], second rendition.  The puts are awaited: the first
    one the store refuses stops the update. *)
Lemma updateRecursive_spec (this : MerkleTree.t) (index : Z) (value : Buffer) :
  forall n cur k l,
    Z.of_nat n = MerkleTree.depth this - k ->
    exists gets, forallb is_get gets = true /\
      MerkleTree2.updateRecursive this index value n cur k l
      = match update_from concatenated l index (hash value) cur n with
        | Ok (d, es) => bind (puts es) (fun _ => ret d) (gets ++ l)
        | Err e => (Err e, gets ++ l)
        end.
Proof.
  induction n as [|n IH]; intros cur k l Hk.
  - exists []. split; [reflexivity|]. simpl. unfold MerkleTree2.isLeaf.
    replace (MerkleTree.depth this =? k) with true
      by (symmetry; apply Z.eqb_eq; lia).
    reflexivity.
  - rewrite updateRecursive_S, update_from_S. unfold MerkleTree2.isLeaf.
    replace (MerkleTree.depth this =? k) with false
      by (symmetry; apply Z.eqb_neq; lia).
    unfold bind at 1. unfold LevelUp.get.
    destruct (lookup_key cur l) as [v|];
      [|exists [Get cur]; split; reflexivity].
    replace (MerkleTree.depth this - k - 1) with (Z.of_nat n) by lia.
    fold (goesRight index n).
    destruct (IH (if goesRight index n then hi v else lo v)
                (k + 1) (Get cur :: l) ltac:(lia)) as (gets & Hg & E).
    rewrite (update_from_ext concatenated (Get cur :: l) l) in E by reflexivity.
    exists (gets ++ [Get cur]). split.
    { apply forallb_is_get_app; auto. }
    rewrite <- !app_assoc. simpl app.
    destruct (goesRight index n); unfold bind, ret; rewrite E;
      destruct (update_from concatenated l index (hash value) _ n) as [[d es]|e];
      try reflexivity;
      cbn [puts fst snd]; unfold bind, ret;
      destruct (puts es (gets ++ Get cur :: l)) as [[[]|x] l1]; try reflexivity;
      destruct (LevelUp.put _ _ l1) as [[[]|x] l2]; reflexivity.
Qed.

End Renditions.

(* ===================================================================== *)
(** ** Complete trees, paths and updates *)
(* ===================================================================== *)

Section Trees.
Context `{HH : Hasher} `{!DigestLength HH}.

Lemma copied_joins : joins copied.
Proof. intros l r Hl Hr. apply copy_pair; assumption. Qed.

Lemma concatenated_joins : joins concatenated.
Proof.
  intros l r _ _. unfold concatenated, Buffer.concat. simpl.
  rewrite app_nil_r. reflexivity.
Qed.

Lemma merkle_S_inv (l : log) (d : Buffer) (m : nat) :
  merkle l d (S m) = true ->
  exists v, lookup_key d l = Some v /\ addressed (d, v)
            /\ merkle l (lo v) m = true /\ merkle l (hi v) m = true.
Proof.
  simpl. destruct (lookup_key d l) as [v|]; [|discriminate].
  intros Hm. apply andb_prop in Hm as [Hm H4]. apply andb_prop in Hm as [Hm H3].
  apply andb_prop in Hm as [H1 H2].
  apply bool_decide_eq_true in H1. apply bool_decide_eq_true in H2.
  exists v. unfold addressed. cbn [fst snd]. auto.
Qed.

Lemma merkle_S_intro (l : log) (d v : Buffer) (m : nat) :
  lookup_key d l = Some v -> addressed (d, v) ->
  merkle l (lo v) m = true -> merkle l (hi v) m = true ->
  merkle l d (S m) = true.
Proof.
  intros Hv [H1 H2] H3 H4. simpl in *. rewrite Hv, H3, H4.
  rewrite !bool_decide_eq_true_2 by assumption. reflexivity.
Qed.

Lemma lo_length v : List.length v = 64%nat -> List.length (lo v) = 32%nat.
Proof. intros. apply slice_lo_length. lia. Qed.

Lemma hi_length v : List.length v = 64%nat -> List.length (hi v) = 32%nat.
Proof. intros. apply slice_hi_length. lia. Qed.

Lemma lo_app l r : List.length l = 32%nat -> lo (l ++ r) = l.
Proof. apply slice_app_lo. Qed.

Lemma hi_app l r :
  List.length l = 32%nat -> List.length r = 32%nat -> hi (l ++ r) = r.
Proof. apply slice_app_hi. Qed.

Lemma merkle_preserved (l l' : log) :
  preserves l l' ->
  forall n d, merkle l d n = true -> merkle l' d n = true.
Proof.
  intros Hp. induction n as [|n IH]; intros d Hm; [reflexivity|].
  apply merkle_S_inv in Hm as (v & Hv & Ha & Hl & Hr).
  apply (merkle_S_intro l' d v); auto.
Qed.

Lemma path_from_preserved (l l' : log) (index : Z) :
  preserves l l' ->
  forall n d, merkle l d n = true ->
              path_from l' index d n = path_from l index d n.
Proof.
  intros Hp. induction n as [|n IH]; intros d Hm; [reflexivity|].
  apply merkle_S_inv in Hm as (v & Hv & Ha & Hl & Hr).
  rewrite !path_from_S, Hv, (Hp d v Hv Ha).
  rewrite IH by (destruct (goesRight index n); assumption).
  reflexivity.
Qed.

(** On a complete tree the path to any leaf can be read, one pair per
    level. *)
Lemma merkle_path (l : log) (index : Z) :
  forall n d, merkle l d n = true ->
              exists p, path_from l index d n = Ok p /\ List.length p = n.
Proof.
  induction n as [|n IH]; intros d Hm.
  - exists []. split; reflexivity.
  - apply merkle_S_inv in Hm as (v & Hv & Ha & Hl & Hr).
    destruct (IH (if goesRight index n then hi v else lo v)) as (p & Hp & Hlen).
    { destruct (goesRight index n); assumption. }
    exists (p ++ [(lo v, hi v)]). rewrite path_from_S, Hv, Hp.
    split; [reflexivity|]. rewrite length_app, Hlen. simpl. lia.
Qed.

(** On a complete tree every update goes through; it writes one entry per
    level, each content-addressed, and gives a 32-byte digest. *)
Lemma merkle_update mk (l : log) (index : Z) (leaf : Buffer) :
  joins mk -> List.length leaf = 32%nat ->
  forall n cur, merkle l cur n = true ->
    exists d es, update_from mk l index leaf cur n = Ok (d, es)
                 /\ List.length es = n /\ List.length d = 32%nat
                 /\ Forall addressed es.
Proof.
  intros Hmk Hleaf. induction n as [|n IH]; intros cur Hm.
  - exists leaf, []. repeat split; auto.
  - apply merkle_S_inv in Hm as (v & Hv & [Hlen Hk] & Hl & Hr).
    cbn [fst snd] in Hlen.
    pose proof (lo_length v Hlen) as Hlo. pose proof (hi_length v Hlen) as Hhi.
    rewrite update_from_S, Hv.
    destruct (goesRight index n).
    + destruct (IH (hi v) Hr) as (d & es & E & Hn & Hd & Hes). rewrite E.
      eexists _, _. split; [reflexivity|].
      split; [simpl; lia|]. split; [apply compress_length|].
      constructor; [|exact Hes].
      unfold addressed. cbn [fst snd]. rewrite (Hmk _ _ Hlo Hd).
      rewrite lo_app, hi_app by assumption.
      split; [rewrite length_app; lia | reflexivity].
    + destruct (IH (lo v) Hl) as (d & es & E & Hn & Hd & Hes). rewrite E.
      eexists _, _. split; [reflexivity|].
      split; [simpl; lia|]. split; [apply compress_length|].
      constructor; [|exact Hes].
      unfold addressed. cbn [fst snd]. rewrite (Hmk _ _ Hd Hhi).
      rewrite lo_app, hi_app by assumption.
      split; [rewrite length_app; lia | reflexivity].
Qed.

Lemma recompute_app (p q : list (Buffer * Buffer)) (index : Z) :
  forall j cur,
    recompute (p ++ q) index j cur
    = match recompute p index j cur with
      | Some c => recompute q index (j + List.length p) c
      | None => None
      end.
Proof.
  induction p as [|[a b] p IH]; intros j cur; simpl.
  - rewrite Nat.add_0_r. reflexivity.
  - destruct (decide _); [|reflexivity].
    rewrite IH. replace (S j + List.length p)%nat with (j + S (List.length p))%nat by lia.
    reflexivity.
Qed.

(** After an update, in any store that binds the entries written, the
    path to the same leaf is made of exactly these entries, and checking
    it from the new leaf digest gives the new digest of the node. *)
Lemma update_then_path mk (l l' : log) (index : Z) (leaf : Buffer) :
  joins mk -> List.length leaf = 32%nat ->
  forall n cur d es,
    merkle l cur n = true ->
    update_from mk l index leaf cur n = Ok (d, es) ->
    holds l' es ->
    (forall m, (m < n)%nat -> goesRight index m = Z.testbit index (Z.of_nat m)) ->
    exists p, path_from l' index d n = Ok p /\ List.length p = n
              /\ recompute p index 0 leaf = Some d.
Proof.
  intros Hmk Hleaf. induction n as [|n IH]; intros cur d es Hm E Hh Hb.
  - injection E as <- <-. exists []. repeat split.
  - apply merkle_S_inv in Hm as (v & Hv & [Hlen Hk] & Hl & Hr).
    cbn [fst snd] in Hlen.
    pose proof (lo_length v Hlen) as Hlo. pose proof (hi_length v Hlen) as Hhi.
    rewrite update_from_S, Hv in E.
    pose proof (Hb n ltac:(lia)) as Hbn.
    assert (Hb' : forall m, (m < n)%nat ->
                    goesRight index m = Z.testbit index (Z.of_nat m))
      by (intros m Hlt; apply Hb; lia).
    destruct (goesRight index n) eqn:B.
    + destruct (merkle_update mk l index leaf Hmk Hleaf n (hi v) Hr)
        as (d0 & es0 & E0 & _ & Hd0 & _).
      rewrite E0 in E. injection E as <- <-.
      destruct (IH (hi v) d0 es0 Hr E0) as (p & Hp & Hlp & Hrec); auto.
      { intros e He. apply Hh. right. exact He. }
      pose proof (Hh _ (or_introl eq_refl)) as Hroot. cbn [fst snd] in Hroot.
      rewrite (Hmk _ _ Hlo Hd0) in Hroot.
      exists (p ++ [(lo v, d0)]).
      rewrite path_from_S, Hroot, lo_app, hi_app, B, Hp by assumption.
      split; [reflexivity|]. split; [rewrite length_app, Hlp; simpl; lia|].
      rewrite recompute_app, Hrec. simpl. rewrite Hlp, <- Hbn.
      rewrite decide_True by reflexivity. reflexivity.
    + destruct (merkle_update mk l index leaf Hmk Hleaf n (lo v) Hl)
        as (d0 & es0 & E0 & _ & Hd0 & _).
      rewrite E0 in E. injection E as <- <-.
      destruct (IH (lo v) d0 es0 Hl E0) as (p & Hp & Hlp & Hrec); auto.
      { intros e He. apply Hh. right. exact He. }
      pose proof (Hh _ (or_introl eq_refl)) as Hroot. cbn [fst snd] in Hroot.
      rewrite (Hmk _ _ Hd0 Hhi) in Hroot.
      exists (p ++ [(d0, hi v)]).
      rewrite path_from_S, Hroot, lo_app, hi_app, B, Hp by assumption.
      split; [reflexivity|]. split; [rewrite length_app, Hlp; simpl; lia|].
      rewrite recompute_app, Hrec. simpl. rewrite Hlp, <- Hbn.
      rewrite decide_True by reflexivity. reflexivity.
Qed.

(** An update of a complete tree gives a complete tree, in any store that
    keeps the old entries and binds the new ones. *)
Lemma update_merkle mk (l l' : log) (index : Z) (leaf : Buffer) :
  joins mk -> List.length leaf = 32%nat -> preserves l l' ->
  forall n cur d es,
    merkle l cur n = true ->
    update_from mk l index leaf cur n = Ok (d, es) ->
    holds l' es ->
    merkle l' d n = true.
Proof.
  intros Hmk Hleaf Hp. induction n as [|n IH]; intros cur d es Hm E Hh; [reflexivity|].
  apply merkle_S_inv in Hm as (v & Hv & [Hlen Hk] & Hl & Hr).
  cbn [fst snd] in Hlen.
  pose proof (lo_length v Hlen) as Hlo. pose proof (hi_length v Hlen) as Hhi.
  rewrite update_from_S, Hv in E.
  pose proof (merkle_preserved l l' Hp n _ Hl) as Hl'.
  pose proof (merkle_preserved l l' Hp n _ Hr) as Hr'.
  destruct (goesRight index n).
  - destruct (merkle_update mk l index leaf Hmk Hleaf n (hi v) Hr)
      as (d0 & es0 & E0 & _ & Hd0 & _).
    rewrite E0 in E. injection E as <- <-.
    assert (Hd0m : merkle l' d0 n = true).
    { apply (IH (hi v) d0 es0 Hr E0). intros e He. apply Hh. right. exact He. }
    pose proof (Hh _ (or_introl eq_refl)) as Hroot. cbn [fst snd] in Hroot.
    rewrite (Hmk _ _ Hlo Hd0) in Hroot.
    apply (merkle_S_intro l' _ (lo v ++ d0)); auto.
    + unfold addressed. cbn [fst snd]. rewrite lo_app, hi_app by assumption.
      split; [rewrite length_app; lia | reflexivity].
    + rewrite lo_app by assumption. exact Hl'.
    + rewrite hi_app by assumption. exact Hd0m.
  - destruct (merkle_update mk l index leaf Hmk Hleaf n (lo v) Hl)
      as (d0 & es0 & E0 & _ & Hd0 & _).
    rewrite E0 in E. injection E as <- <-.
    assert (Hd0m : merkle l' d0 n = true).
    { apply (IH (lo v) d0 es0 Hl E0). intros e He. apply Hh. right. exact He. }
    pose proof (Hh _ (or_introl eq_refl)) as Hroot. cbn [fst snd] in Hroot.
    rewrite (Hmk _ _ Hd0 Hhi) in Hroot.
    apply (merkle_S_intro l' _ (d0 ++ hi v)); auto.
    + unfold addressed. cbn [fst snd]. rewrite lo_app, hi_app by assumption.
      split; [rewrite length_app; lia | reflexivity].
    + rewrite lo_app by assumption. exact Hd0m.
    + rewrite hi_app by assumption. exact Hr'.
Qed.

End Trees.

(* ===================================================================== *)
(** ** Collisions and what the store keeps *)
(* ===================================================================== *)

Section Binding.
Context `{HH : Hasher} `{!DigestLength HH}.

Lemma node_values_app (name : string) (a b : log) :
  node_values name (a ++ b) = node_values name a ++ node_values name b.
Proof.
  induction a as [|[g|k v] a IH]; simpl; auto.
  destruct (decide (k = Buffer.from name)); simpl; congruence.
Qed.

Lemma node_values_In (name : string) (k v : Buffer) (l : log) :
  In (Put k v) l -> k <> Buffer.from name -> In v (node_values name l).
Proof.
  induction l as [|[g|k' v'] l IH]; simpl; intros Hin Hne.
  - contradiction.
  - destruct Hin as [E|Hin]; [discriminate | auto].
  - destruct Hin as [E|Hin].
    + injection E as -> ->. rewrite decide_False by assumption. left; reflexivity.
    + destruct (decide (k' = Buffer.from name)); [|right]; auto.
Qed.

Lemma collision_free_spec (name : string) (l : log) :
  collision_free name l = true ->
  forall v v', In v (node_values name l) -> In v' (node_values name l) ->
               compress (lo v) (hi v) = compress (lo v') (hi v') -> v = v'.
Proof.
  unfold collision_free. intros Hcf v v' Hv Hv' E.
  rewrite forallb_forall in Hcf. specialize (Hcf v Hv).
  rewrite forallb_forall in Hcf. specialize (Hcf v' Hv').
  rewrite bool_decide_eq_true_2 in Hcf by exact E. simpl in Hcf.
  apply bool_decide_eq_true in Hcf. exact Hcf.
Qed.

(** Dropping the newest requests keeps a log free of collisions. *)
Lemma collision_free_older (name : string) (new old : log) :
  collision_free name (new ++ old) = true -> collision_free name old = true.
Proof.
  intros Hcf. pose proof (collision_free_spec _ _ Hcf) as Hs.
  unfold collision_free. apply forallb_forall. intros v Hv.
  apply forallb_forall. intros v' Hv'.
  destruct (bool_decide (compress (lo v) (hi v) = compress (lo v') (hi v'))) eqn:E;
    [|reflexivity].
  apply bool_decide_eq_true in E. simpl. apply bool_decide_eq_true.
  apply Hs; auto; rewrite node_values_app; apply in_or_app; right; assumption.
Qed.

Lemma addressed_key_length (k v : Buffer) :
  addressed (k, v) -> List.length k = 32%nat.
Proof. intros [_ E]. cbn [fst snd] in E. rewrite E. apply compress_length. Qed.

(** When a log free of collisions is extended by content-addressed node
    entries, every one of them is bound in the result, and so is every
    content-addressed entry that was bound before. *)
Lemma binding_kept (name : string) (new old : log) :
  List.length (Buffer.from name) <> 32%nat ->
  (forall k v, In (Put k v) new -> k <> Buffer.from name -> addressed (k, v)) ->
  collision_free name (new ++ old) = true ->
  (forall k v, In (Put k v) new -> k <> Buffer.from name ->
               lookup_key k (new ++ old) = Some v)
  /\ preserves old (new ++ old).
Proof.
  intros Hname Hnew Hcf. pose proof (collision_free_spec _ _ Hcf) as Hs.
  assert (Hfound : forall k v v', In (Put k v) (new ++ old) -> addressed (k, v) ->
                     lookup_key k new = Some v' -> v' = v).
  { intros k v v' Hin Ha Hl.
    assert (Hne : k <> Buffer.from name).
    { intros ->. apply addressed_key_length in Ha. contradiction. }
    apply lookup_key_In in Hl.
    pose proof (Hnew _ _ Hl Hne) as Ha'.
    apply Hs.
    - apply (node_values_In name k); auto. apply in_or_app; left; exact Hl.
    - apply (node_values_In name k); auto.
    - destruct Ha as [_ Ha], Ha' as [_ Ha']. cbn [fst snd] in *. congruence. }
  split.
  - intros k v Hin Hne. rewrite lookup_key_app.
    destruct (In_lookup_key _ _ _ Hin) as [v' Hv']. rewrite Hv'. f_equal.
    apply (Hfound k v v'); auto. apply in_or_app; left; exact Hin.
  - intros k v Hl Ha. rewrite lookup_key_app.
    destruct (lookup_key k new) as [v'|] eqn:Hv'; [|exact Hl]. f_equal.
    apply (Hfound k v v'); auto. apply in_or_app; right.
    apply lookup_key_In; exact Hl.
Qed.

End Binding.

(* ===================================================================== *)
(** ** The methods in terms of paths and updates *)
(* ===================================================================== *)

Section Methods.
Context `{HH : Hasher}.

Lemma metadata_Some (t : MerkleTree.t) :
  0 <= MerkleTree.depth t < 2 ^ 32 -> exists m, metadata t = Some m.
Proof.
  intros Hd. unfold metadata, Buffer.writeUInt32LE.
  rewrite copy_length by (rewrite alloc_length; lia). rewrite alloc_length.
  replace (0 <=? MerkleTree.depth t) with true by (symmetry; apply Z.leb_le; lia).
  replace (MerkleTree.depth t <? 2 ^ 32) with true by (symmetry; apply Z.ltb_lt; lia).
  simpl. eauto.
Qed.

(** The record of a tree with a 32-byte root: the root, the depth on four
    bytes, least significant first, and four zero bytes. *)
Lemma metadata_root32 (t : MerkleTree.t) :
  List.length (MerkleTree.root t) = 32%nat -> 0 <= MerkleTree.depth t < 2 ^ 32 ->
  metadata t
  = Some (MerkleTree.root t
          ++ [byte_of_Z (MerkleTree.depth t); byte_of_Z (MerkleTree.depth t / 2 ^ 8);
              byte_of_Z (MerkleTree.depth t / 2 ^ 16);
              byte_of_Z (MerkleTree.depth t / 2 ^ 24); x00; x00; x00; x00]).
Proof.
  intros Hr Hd. unfold metadata.
  rewrite (copy_front _ 40) by (assumption || lia).
  apply writeUInt32LE_meta; assumption.
Qed.

(** The empty name is the one whose key is the empty buffer. *)
Lemma from_nil (name : string) : Buffer.from name = [] <-> name = ""%string.
Proof.
  destruct name as [|a name]; [split; reflexivity|].
  split; intros E; discriminate E.
Qed.

(** The record is written under the name; the store refuses the empty
    name. *)
Lemma writeMetaData_spec (t : MerkleTree.t) (l : log) :
  MerkleTree.writeMetaData t l
  = match metadata t with
    | Some m =>
        if decide (Buffer.from (MerkleTree.name t) = []) then (Err WriteError, l)
        else (Ok tt, Put (Buffer.from (MerkleTree.name t)) m :: l)
    | None => (Err RangeError, l)
    end.
Proof.
  unfold MerkleTree.writeMetaData, metadata.
  destruct (Buffer.writeUInt32LE _ _ _); reflexivity.
Qed.

Lemma writeMetaData_named (t : MerkleTree.t) (m : Buffer) (l : log) :
  MerkleTree.name t <> ""%string -> metadata t = Some m ->
  MerkleTree.writeMetaData t l = (Ok tt, Put (Buffer.from (MerkleTree.name t)) m :: l).
Proof.
  intros Hname Hm. rewrite writeMetaData_spec, Hm.
  rewrite decide_False by (rewrite from_nil; exact Hname). reflexivity.
Qed.

Lemma writeMetaData2_spec (t : MerkleTree.t) (l : log) :
  MerkleTree2.writeMetaData t l = MerkleTree.writeMetaData t l.
Proof. reflexivity. Qed.

Lemma getHashPath_spec (this : MerkleTree.t) (index : Z) (l : log) :
  1 <= MerkleTree.depth this ->
  exists gets, forallb is_get gets = true /\
    MerkleTree.getHashPath this index l
    = (match path_from l index (MerkleTree.root this)
               (Z.to_nat (MerkleTree.depth this)) with
       | Ok p => Ok {| data := p |}
       | Err e => Err e
       end, gets ++ l).
Proof.
  intros Hd. unfold MerkleTree.getHashPath.
  destruct (Z.to_nat (MerkleTree.depth this)) as [|n] eqn:En; [lia|].
  destruct (getHashPathRecursively_spec this index n (MerkleTree.root this) 0 l
              ltac:(lia)) as (gets & Hg & E).
  exists gets. split; [exact Hg|].
  unfold bind. rewrite E.
  destruct (path_from l index (MerkleTree.root this) (S n)); reflexivity.
Qed.

Lemma getHashPath2_spec (this : MerkleTree.t) (index : Z) (l : log) :
  0 <= MerkleTree.depth this ->
  exists gets, forallb is_get gets = true /\
    MerkleTree2.getHashPath this index l
    = (match path_from l index (MerkleTree.root this)
               (Z.to_nat (MerkleTree.depth this)) with
       | Ok p => Ok {| data := p |}
       | Err e => Err e
       end, gets ++ l).
Proof.
  intros Hd. unfold MerkleTree2.getHashPath.
  destruct (getHashPathRecursive_spec this index (Z.to_nat (MerkleTree.depth this))
              (MerkleTree.root this) 0 [] l ltac:(lia)) as (gets & Hg & E).
  exists gets. split; [exact Hg|].
  unfold bind. rewrite E.
  destruct (path_from l index (MerkleTree.root this) _); reflexivity.
Qed.

Lemma updateElement_spec (this : MerkleTree.t) (index : Z) (value : Buffer) (l : log) :
  0 <= MerkleTree.depth this ->
  exists gets, forallb is_get gets = true /\
    MerkleTree.updateElement this index value l
    = match update_from copied l index (hash value) (MerkleTree.root this)
              (Z.to_nat (MerkleTree.depth this)) with
      | Ok (d, es) =>
          match metadata (updated this d) with
          | Some m =>
              if decide (Buffer.from (MerkleTree.name this) = [])
              then (Err WriteError, served (map put_event es) ++ gets ++ l)
              else (Ok (updated this d),
                    Put (Buffer.from (MerkleTree.name this)) m
                      :: served (map put_event es) ++ gets ++ l)
          | None => (Err RangeError, served (map put_event es) ++ gets ++ l)
          end
      | Err e => (Err e, gets ++ l)
      end.
Proof.
  intros Hd. unfold MerkleTree.updateElement.
  destruct (updateRecursively_spec this index value (Z.to_nat (MerkleTree.depth this))
              (MerkleTree.root this) 0 l ltac:(lia)) as (gets & Hg & E).
  exists gets. split; [exact Hg|].
  unfold bind at 1. rewrite E.
  destruct (update_from copied l index (hash value) _ _) as [[d es]|e]; [|reflexivity].
  fold (updated this d). unfold bind. rewrite writeMetaData_spec.
  change (MerkleTree.name (updated this d)) with (MerkleTree.name this).
  destruct (metadata (updated this d)); [|reflexivity].
  destruct (decide (Buffer.from (MerkleTree.name this) = [])); reflexivity.
Qed.

Lemma updateElement2_spec (this : MerkleTree.t) (index : Z) (value : Buffer) (l : log) :
  0 <= MerkleTree.depth this ->
  exists gets, forallb is_get gets = true /\
    MerkleTree2.updateElement this index value l
    = match update_from concatenated l index (hash value) (MerkleTree.root this)
              (Z.to_nat (MerkleTree.depth this)) with
      | Ok (d, es) =>
          bind (puts es)
               (fun _ => bind (MerkleTree.writeMetaData (updated2 this d))
                              (fun _ => ret (updated2 this d)))
               (gets ++ l)
      | Err e => (Err e, gets ++ l)
      end.
Proof.
  intros Hd. unfold MerkleTree2.updateElement.
  destruct (updateRecursive_spec this index value (Z.to_nat (MerkleTree.depth this))
              (MerkleTree.root this) 0 l ltac:(lia)) as (gets & Hg & E).
  exists gets. split; [exact Hg|].
  unfold bind at 1. rewrite E.
  destruct (update_from concatenated l index (hash value) _ _) as [[d es]|e];
    [|reflexivity].
  fold (updated2 this d). unfold bind, ret.
  destruct (puts es (gets ++ l)) as [[[]|x] l1]; reflexivity.
Qed.

End Methods.

(* ===================================================================== *)
(** ** Construction *)
(* ===================================================================== *)

Section Construction.
Context `{HH : Hasher}.

Lemma levels_0 d hpl :
  MerkleTree.levels d 0 hpl
  = bind (MerkleTree.levelStep d (Z.of_nat 0) hpl) (fun hpl => ret hpl).
Proof. reflexivity. Qed.

Lemma levels_S d j hpl :
  MerkleTree.levels d (S j) hpl
  = bind (MerkleTree.levelStep d (Z.of_nat (S j)) hpl)
         (fun hpl => MerkleTree.levels d j hpl).
Proof. reflexivity. Qed.

Lemma levels2_0 d hpl :
  MerkleTree2.levels d 0 hpl
  = bind (MerkleTree2.levelStep d (Z.of_nat 0) hpl) (fun hpl => ret hpl).
Proof. reflexivity. Qed.

Lemma levels2_S d j hpl :
  MerkleTree2.levels d (S j) hpl
  = bind (MerkleTree2.levelStep d (Z.of_nat (S j)) hpl)
         (fun hpl => MerkleTree2.levels d j hpl).
Proof. reflexivity. Qed.

(** One turn of the loop at the level of height [h]: the digest of the
    level is recorded, and above the leaves its entry is put, without
    waiting for the answer of the store. *)
Lemma levelStep_spec (n h i : nat) (hpl : gmap Z Buffer) (l0 : log) :
  (h + i = n)%nat ->
  (h = 0%nat \/ hpl !! (Z.of_nat i + 1) = Some (zero_digest (h - 1))) ->
  MerkleTree.levelStep (Z.of_nat n) (Z.of_nat i) hpl (served (zero_puts copied (h - 1)) ++ l0)
  = (Ok (<[Z.of_nat i := zero_digest h]> hpl), served (zero_puts copied h) ++ l0).
Proof.
  intros Hsum Hpre. unfold MerkleTree.levelStep. destruct h as [|h].
  - replace (Z.of_nat n =? Z.of_nat i) with true by (symmetry; apply Z.eqb_eq; lia).
    reflexivity.
  - replace (Z.of_nat n =? Z.of_nat i) with false by (symmetry; apply Z.eqb_neq; lia).
    destruct Hpre as [Hpre|Hpre]; [discriminate|].
    rewrite Hpre. simpl Nat.sub. rewrite Nat.sub_0_r.
    unfold bind. rewrite detached_put. cbn [zero_puts served app].
    change (zero_digest (S h)) with (compress (zero_digest h) (zero_digest h)).
    case_key; reflexivity.
Qed.

Lemma levelStep2_spec (n h i : nat) (hpl : gmap Z Buffer) (l0 : log) :
  (h + i = n)%nat ->
  (h = 0%nat \/ hpl !! (Z.of_nat i + 1) = Some (zero_digest (h - 1))) ->
  MerkleTree2.levelStep (Z.of_nat n) (Z.of_nat i) hpl
    (served (zero_puts concatenated (h - 1)) ++ l0)
  = (Ok (<[Z.of_nat i := zero_digest h]> hpl), served (zero_puts concatenated h) ++ l0).
Proof.
  intros Hsum Hpre. unfold MerkleTree2.levelStep. destruct h as [|h].
  - replace (Z.of_nat n =? Z.of_nat i) with true by (symmetry; apply Z.eqb_eq; lia).
    reflexivity.
  - replace (Z.of_nat n =? Z.of_nat i) with false by (symmetry; apply Z.eqb_neq; lia).
    destruct Hpre as [Hpre|Hpre]; [discriminate|].
    rewrite Hpre. simpl Nat.sub. rewrite Nat.sub_0_r.
    unfold bind. rewrite detached_put. cbn [zero_puts served app].
    change (zero_digest (S h)) with (compress (zero_digest h) (zero_digest h)).
    case_key; reflexivity.
Qed.

(** The loop from level [i] down to the root. *)
Lemma levels_spec (n : nat) :
  forall i h hpl l0,
    (h + i = n)%nat ->
    (h = 0%nat \/ hpl !! (Z.of_nat i + 1) = Some (zero_digest (h - 1))) ->
    exists hpl',
      MerkleTree.levels (Z.of_nat n) i hpl (served (zero_puts copied (h - 1)) ++ l0)
      = (Ok hpl', served (zero_puts copied n) ++ l0)
      /\ hpl' !! 0 = Some (zero_digest n).
Proof.
  induction i as [|j IH]; intros h hpl l0 Hsum Hpre.
  - rewrite levels_0. unfold bind.
    rewrite (levelStep_spec n h 0) by assumption.
    replace h with n by lia.
    eexists. split; [reflexivity|]. apply lookup_insert_eq.
  - rewrite levels_S. unfold bind.
    rewrite (levelStep_spec n h (S j)) by assumption.
    replace (zero_puts copied h) with (zero_puts copied (S h - 1))
      by (f_equal; lia).
    apply IH; [lia|].
    right. replace (Z.of_nat j + 1) with (Z.of_nat (S j)) by lia.
    replace (S h - 1)%nat with h by lia. apply lookup_insert_eq.
Qed.

Lemma levels2_spec (n : nat) :
  forall i h hpl l0,
    (h + i = n)%nat ->
    (h = 0%nat \/ hpl !! (Z.of_nat i + 1) = Some (zero_digest (h - 1))) ->
    exists hpl',
      MerkleTree2.levels (Z.of_nat n) i hpl (served (zero_puts concatenated (h - 1)) ++ l0)
      = (Ok hpl', served (zero_puts concatenated n) ++ l0)
      /\ hpl' !! 0 = Some (zero_digest n).
Proof.
  induction i as [|j IH]; intros h hpl l0 Hsum Hpre.
  - rewrite levels2_0. unfold bind.
    rewrite (levelStep2_spec n h 0) by assumption.
    replace h with n by lia.
    eexists. split; [reflexivity|]. apply lookup_insert_eq.
  - rewrite levels2_S. unfold bind.
    rewrite (levelStep2_spec n h (S j)) by assumption.
    replace (zero_puts concatenated h) with (zero_puts concatenated (S h - 1))
      by (f_equal; lia).
    apply IH; [lia|].
    right. replace (Z.of_nat j + 1) with (Z.of_nat (S j)) by lia.
    replace (S h - 1)%nat with h by lia. apply lookup_insert_eq.
Qed.

Lemma depth_check (d : Z) :
  negb ((1 <=? d) && (d <=? MAX_DEPTH)) = false <-> 1 <= d <= 32.
Proof.
  unfold MAX_DEPTH. rewrite negb_false_iff, andb_true_iff, Z.leb_le, Z.leb_le.
  reflexivity.
Qed.

(** A fresh construction, first rendition. *)
Lemma constructor_fresh (name : string) (d : Z) (l : log) :
  1 <= d <= 32 ->
  MerkleTree.constructor name d None l
  = (Ok {| MerkleTree.name := name; MerkleTree.depth := d;
           MerkleTree.root :=
             Buffer.copy (zero_digest (Z.to_nat d)) (Buffer.alloc 32 x00) 0 |},
     served (zero_puts copied (Z.to_nat d)) ++ l).
Proof.
  intros Hd. unfold MerkleTree.constructor.
  rewrite (proj2 (depth_check d) Hd).
  destruct (levels_spec (Z.to_nat d) (Z.to_nat d) 0 ∅ l ltac:(lia) ltac:(left; reflexivity))
    as (hpl & E & Htop).
  simpl in E. rewrite Z2Nat.id in E by lia.
  unfold bind. rewrite E, Htop. reflexivity.
Qed.

(** A fresh construction, second rendition: the constructor itself
    puts a metadata record, with a root of 32 zero bytes. *)
Lemma constructor2_fresh (name : string) (d : Z) (l : log) :
  1 <= d <= 32 ->
  exists meta0,
    metadata {| MerkleTree.name := name; MerkleTree.depth := d;
                MerkleTree.root := Buffer.alloc 32 x00 |} = Some meta0 /\
    MerkleTree2.constructor name d None l
    = (Ok {| MerkleTree.name := name; MerkleTree.depth := d;
             MerkleTree.root := zero_digest (Z.to_nat d) |},
       served (Put (Buffer.from name) meta0 :: zero_puts concatenated (Z.to_nat d))
         ++ l).
Proof.
  intros Hd. unfold MerkleTree2.constructor.
  rewrite (proj2 (depth_check d) Hd).
  destruct (levels2_spec (Z.to_nat d) (Z.to_nat d) 0 ∅ l ltac:(lia) ltac:(left; reflexivity))
    as (hpl & E & Htop).
  simpl in E. rewrite Z2Nat.id in E by lia.
  destruct (metadata_Some {| MerkleTree.name := name; MerkleTree.depth := d;
                             MerkleTree.root := Buffer.alloc 32 x00 |})
    as [meta0 Hm0]; [simpl; lia|].
  exists meta0. split; [exact Hm0|].
  unfold bind. rewrite E. unfold detached.
  rewrite writeMetaData2_spec, writeMetaData_spec, Hm0, Htop.
  cbn [MerkleTree.name served app].
  destruct (decide (Buffer.from name = [])); reflexivity.
Qed.

End Construction.

(* ===================================================================== *)
(** ** Properties of the specification *)
(* ===================================================================== *)

Section Reading.
Context `{HH : Hasher}.

Lemma getHashPathRecursively_reads (this : MerkleTree.t) (index : Z) :
  forall fuel cur k l,
    exists gets, forallb is_get gets = true /\
      snd (MerkleTree.getHashPathRecursively this index fuel cur k l) = gets ++ l.
Proof.
  induction fuel as [|fuel IH]; intros cur k l.
  - exists []. split; reflexivity.
  - rewrite getHashPathRecursively_S. unfold bind at 1. unfold LevelUp.get.
    destruct (lookup_key cur l) as [v|];
      [|exists [Get cur]; split; reflexivity].
    destruct (MerkleTree.depth this =? k + 1);
      [exists [Get cur]; split; reflexivity|].
    destruct (IH (if truthy (js_and (js_shr index (MerkleTree.depth this - k - 1)) 1)
                  then hi v else lo v) (k + 1) (Get cur :: l)) as (gets & Hg & E).
    exists (gets ++ [Get cur]). split; [apply forallb_is_get_app; auto|].
    rewrite <- app_assoc. simpl app. rewrite <- E. unfold bind, ret.
    destruct (MerkleTree.getHashPathRecursively this index fuel _ (k + 1) (Get cur :: l))
      as [[p|e] l']; reflexivity.
Qed.

Lemma getHashPathRecursive_reads (this : MerkleTree.t) (index : Z) :
  forall fuel cur k acc l,
    exists gets, forallb is_get gets = true /\
      snd (MerkleTree2.getHashPathRecursive this index fuel cur k acc l) = gets ++ l.
Proof.
  induction fuel as [|fuel IH]; intros cur k acc l.
  - exists []. split; [reflexivity|]. simpl.
    destruct (MerkleTree2.isLeaf this k); reflexivity.
  - rewrite getHashPathRecursive_S.
    destruct (MerkleTree2.isLeaf this k); [exists []; split; reflexivity|].
    unfold bind at 1. unfold LevelUp.get.
    destruct (lookup_key cur l) as [v|];
      [|exists [Get cur]; split; reflexivity].
    destruct (IH (if truthy (js_and (js_shr index (MerkleTree.depth this - k - 1)) 1)
                  then hi v else lo v) (k + 1) acc (Get cur :: l)) as (gets & Hg & E).
    exists (gets ++ [Get cur]). split; [apply forallb_is_get_app; auto|].
    rewrite <- app_assoc. simpl app. rewrite <- E. unfold bind, ret.
    destruct (MerkleTree2.getHashPathRecursive this index fuel _ (k + 1) acc (Get cur :: l))
      as [[p|e] l']; reflexivity.
Qed.

(** C9.  [getHashPath] only reads: in both renditions, whatever the tree
    object, the index and the store, and whether the call succeeds or
    throws, the requests it adds to the store are all [get]s, so every key
    is bound after the call exactly as before it.  (The method has no
    assignment to a field of the receiver: the embedding gives it no
    receiver to return.) *)
Theorem getHashPath_read_only (this : MerkleTree.t) (index : Z) (l : log) :
  (exists gets, forallb is_get gets = true
                /\ snd (MerkleTree.getHashPath this index l) = gets ++ l
                /\ forall k, lookup_key k (snd (MerkleTree.getHashPath this index l))
                             = lookup_key k l)
  /\ (exists gets, forallb is_get gets = true
                /\ snd (MerkleTree2.getHashPath this index l) = gets ++ l
                /\ forall k, lookup_key k (snd (MerkleTree2.getHashPath this index l))
                             = lookup_key k l).
Proof.
  split.
  - destruct (getHashPathRecursively_reads this index
                (Z.to_nat (MerkleTree.depth this)) (MerkleTree.root this) 0 l)
      as (gets & Hg & E).
    assert (E' : snd (MerkleTree.getHashPath this index l) = gets ++ l).
    { rewrite <- E. unfold MerkleTree.getHashPath, bind, ret.
      destruct (MerkleTree.getHashPathRecursively this index _ _ 0 l) as [[p|e] l'];
        reflexivity. }
    exists gets. split; [exact Hg|]. split; [exact E'|].
    intros k. rewrite E'. apply lookup_key_gets; exact Hg.
  - destruct (getHashPathRecursive_reads this index
                (Z.to_nat (MerkleTree.depth this)) (MerkleTree.root this) 0 [] l)
      as (gets & Hg & E).
    assert (E' : snd (MerkleTree2.getHashPath this index l) = gets ++ l).
    { rewrite <- E. unfold MerkleTree2.getHashPath, bind, ret.
      destruct (MerkleTree2.getHashPathRecursive this index _ _ 0 [] l) as [[p|e] l'];
        reflexivity. }
    exists gets. split; [exact Hg|]. split; [exact E'|].
    intros k. rewrite E'. apply lookup_key_gets; exact Hg.
Qed.

(** C7.  In both renditions the constructor throws the bad-depth error
    exactly when the depth lies outside [1, 32]: inside the range it
    returns a tree, with or without a root to restore; outside it throws
    before any request to the store, which is left as it was. *)
Theorem constructor_depth_check (name : string) (depth : Z) (root : option Buffer)
    (l : log) :
  (1 <= depth <= 32 ->
     (exists t l', MerkleTree.constructor name depth root l = (Ok t, l'))
     /\ (exists t l', MerkleTree2.constructor name depth root l = (Ok t, l')))
  /\ (~ (1 <= depth <= 32) ->
     MerkleTree.constructor name depth root l = (Err BadDepth, l)
     /\ MerkleTree2.constructor name depth root l = (Err BadDepth, l))
  /\ (MerkleTree.constructor name depth root l = (Err BadDepth, l)
      <-> ~ (1 <= depth <= 32))
  /\ (MerkleTree2.constructor name depth root l = (Err BadDepth, l)
      <-> ~ (1 <= depth <= 32)).
Proof.
  assert (Hin : 1 <= depth <= 32 ->
     (exists t l', MerkleTree.constructor name depth root l = (Ok t, l'))
     /\ (exists t l', MerkleTree2.constructor name depth root l = (Ok t, l'))).
  { intros Hd. destruct root as [r|].
    - unfold MerkleTree.constructor, MerkleTree2.constructor.
      rewrite (proj2 (depth_check depth) Hd). split; eexists _, _; reflexivity.
    - split.
      + rewrite constructor_fresh by assumption. eexists _, _; reflexivity.
      + destruct (constructor2_fresh name depth l Hd) as (m & _ & E).
        rewrite E. eexists _, _; reflexivity. }
  assert (Hout : ~ (1 <= depth <= 32) ->
     MerkleTree.constructor name depth root l = (Err BadDepth, l)
     /\ MerkleTree2.constructor name depth root l = (Err BadDepth, l)).
  { intros Hd. unfold MerkleTree.constructor, MerkleTree2.constructor.
    destruct (negb ((1 <=? depth) && (depth <=? MAX_DEPTH))) eqn:E.
    - split; reflexivity.
    - apply depth_check in E. contradiction. }
  split; [exact Hin|]. split; [exact Hout|].
  split; (split; [|intros Hd; apply Hout; exact Hd]); intros E Hd;
    destruct (Hin Hd) as [(t & l' & E1) (t2 & l2 & E2)]; congruence.
Qed.

(** C8.  When the store has a record under the name of the tree, [new]
    never looks at its [depth] argument: two calls that differ in it only
    give the same outcome, and the only request made to the store is the
    [get] of the record, so no node entry is read or written.  When the
    record has 40 bytes and holds a depth in [1, 32], the tree returned
    has the name asked for, the depth read from bytes 32 to 35 and the
    root held in bytes 0 to 31.  Both renditions. *)
Theorem new_restores_from_metadata (name : string) (l : log) (meta : Buffer) :
  lookup_key (Buffer.from name) l = Some meta ->
  forall depthArg depthArg' : option Z,
    MerkleTree.new name depthArg l = MerkleTree.new name depthArg' l
    /\ MerkleTree2.new name depthArg l = MerkleTree2.new name depthArg' l
    /\ snd (MerkleTree.new name depthArg l) = Get (Buffer.from name) :: l
    /\ snd (MerkleTree2.new name depthArg l) = Get (Buffer.from name) :: l
    /\ forall d, List.length meta = 40%nat ->
         Buffer.readUInt32LE meta 32 = Some d -> 1 <= d <= 32 ->
         MerkleTree.new name depthArg l
         = (Ok {| MerkleTree.name := name; MerkleTree.depth := d;
                  MerkleTree.root := Buffer.slice meta 0 32 |},
            Get (Buffer.from name) :: l)
         /\ MerkleTree2.new name depthArg l
            = (Ok {| MerkleTree.name := name; MerkleTree.depth := d;
                     MerkleTree.root := Buffer.slice meta 0 32 |},
               Get (Buffer.from name) :: l).
Proof.
  intros Hl depthArg depthArg'.
  assert (E1 : forall a, MerkleTree.new name a l
               = match Buffer.readUInt32LE meta 32 with
                 | None => throw RangeError
                 | Some d => MerkleTree.constructor name d (Some (Buffer.slice meta 0 32))
                 end (Get (Buffer.from name) :: l)).
  { intros a. unfold MerkleTree.new, bind, LevelUp.get_or_undefined.
    rewrite Hl. reflexivity. }
  assert (E2 : forall a, MerkleTree2.new name a l
               = match Buffer.readUInt32LE meta 32 with
                 | None => throw RangeError
                 | Some d => MerkleTree2.constructor name d (Some (Buffer.slice meta 0 32))
                 end (Get (Buffer.from name) :: l)).
  { intros a. unfold MerkleTree2.new, bind, LevelUp.get_or_undefined.
    rewrite Hl. reflexivity. }
  split; [rewrite !E1; reflexivity|]. split; [rewrite !E2; reflexivity|].
  split; [|split].
  - rewrite E1. destruct (Buffer.readUInt32LE meta 32) as [d|]; [|reflexivity].
    unfold MerkleTree.constructor.
    destruct (negb ((1 <=? d) && (d <=? MAX_DEPTH))); reflexivity.
  - rewrite E2. destruct (Buffer.readUInt32LE meta 32) as [d|]; [|reflexivity].
    unfold MerkleTree2.constructor.
    destruct (negb ((1 <=? d) && (d <=? MAX_DEPTH))); reflexivity.
  - intros d Hlen Hread Hd. rewrite E1, E2, Hread.
    unfold MerkleTree.constructor, MerkleTree2.constructor.
    rewrite (proj2 (depth_check d) Hd). unfold ret.
    rewrite copy_full; [split; reflexivity|].
    rewrite alloc_length. apply slice_lo_length. lia.
Qed.

End Reading.

Section Fresh.
Context `{HH : Hasher} `{!DigestLength HH}.

Lemma zero_digest_length (n : nat) : List.length (zero_digest n) = 32%nat.
Proof. destruct n; simpl; [apply hash_length | apply compress_length]. Qed.

Lemma level_entry_S (n i : nat) : level_entry (S n) (S i) = level_entry n i.
Proof. reflexivity. Qed.

(** The entries a construction writes are those of the levels 0 to
    [n - 1], the root level being the newest. *)
Lemma zero_puts_levels mk (n : nat) :
  joins mk -> zero_puts mk n = map (level_entry n) (seq 0 n).
Proof.
  intros Hmk. induction n as [|n IH]; [reflexivity|].
  simpl zero_puts. rewrite IH.
  rewrite (Hmk _ _ (zero_digest_length n) (zero_digest_length n)).
  change (seq 0 (S n)) with (0%nat :: seq 1 n).
  rewrite <- seq_shift, map_cons, map_map.
  f_equal.
  unfold level_entry, level_digest. simpl. rewrite Nat.sub_0_r. reflexivity.
Qed.

(** [new] on a store without a record for the name, first rendition. *)
(** The entries of the levels all have a key. *)
Lemma served_zero_puts mk (n : nat) : served (zero_puts mk n) = zero_puts mk n.
Proof.
  induction n as [|n IH]; [reflexivity|].
  cbn [zero_puts served]. rewrite IH.
  rewrite decide_False; [reflexivity|].
  intros E. pose proof (zero_digest_length (S n)) as Hlen.
  rewrite E in Hlen. discriminate Hlen.
Qed.

Lemma new_fresh (name : string) (depthArg : option Z) (l : log) :
  let depth := default MAX_DEPTH depthArg in
  let tree := {| MerkleTree.name := name; MerkleTree.depth := depth;
                 MerkleTree.root := zero_digest (Z.to_nat depth) |} in
  1 <= depth <= 32 ->
  name <> ""%string ->
  lookup_key (Buffer.from name) l = None ->
  exists meta,
    metadata tree = Some meta
    /\ MerkleTree.new name depthArg l
       = (Ok tree,
          Put (Buffer.from name) meta
            :: zero_puts copied (Z.to_nat depth) ++ Get (Buffer.from name) :: l).
Proof.
  intros depth tree Hd Hname Hfresh.
  destruct (metadata_Some tree) as [meta Hmeta]; [simpl; lia|].
  exists meta. split; [exact Hmeta|].
  unfold MerkleTree.new. fold depth. unfold bind at 1.
  unfold LevelUp.get_or_undefined. rewrite Hfresh.
  unfold bind at 1. rewrite constructor_fresh, served_zero_puts by assumption.
  rewrite copy_full by (rewrite alloc_length; apply zero_digest_length).
  fold tree. unfold bind.
  rewrite (writeMetaData_named tree meta) by assumption. reflexivity.
Qed.

(** The same for the second rendition, which writes the metadata twice. *)
Lemma new2_fresh (name : string) (depthArg : option Z) (l : log) :
  let depth := default MAX_DEPTH depthArg in
  let tree := {| MerkleTree.name := name; MerkleTree.depth := depth;
                 MerkleTree.root := zero_digest (Z.to_nat depth) |} in
  1 <= depth <= 32 ->
  name <> ""%string ->
  lookup_key (Buffer.from name) l = None ->
  exists meta0 meta,
    metadata tree = Some meta
    /\ MerkleTree2.new name depthArg l
       = (Ok tree,
          Put (Buffer.from name) meta :: Put (Buffer.from name) meta0
            :: zero_puts concatenated (Z.to_nat depth) ++ Get (Buffer.from name) :: l).
Proof.
  intros depth tree Hd Hname Hfresh.
  destruct (metadata_Some tree) as [meta Hmeta]; [simpl; lia|].
  destruct (constructor2_fresh name depth (Get (Buffer.from name) :: l) Hd)
    as (meta0 & _ & E).
  exists meta0, meta. split; [exact Hmeta|].
  unfold MerkleTree2.new. fold depth. unfold bind at 1.
  unfold LevelUp.get_or_undefined. rewrite Hfresh.
  unfold bind at 1. rewrite E. fold tree.
  cbn [served]. rewrite decide_False by (rewrite from_nil; exact Hname).
  rewrite served_zero_puts.
  unfold bind. rewrite writeMetaData2_spec.
  rewrite (writeMetaData_named tree meta) by assumption. reflexivity.
Qed.

(** A fresh [new] that has succeeded was given a legal depth and a name
    that is not empty. *)
Lemma new_fresh_succeeded (name : string) (depthArg : option Z) (l l' : log)
    (t : MerkleTree.t) :
  lookup_key (Buffer.from name) l = None ->
  MerkleTree.new name depthArg l = (Ok t, l') ->
  1 <= default MAX_DEPTH depthArg <= 32 /\ name <> ""%string.
Proof.
  intros Hfresh E.
  unfold MerkleTree.new, bind at 1, LevelUp.get_or_undefined in E.
  rewrite Hfresh in E.
  assert (Hd : 1 <= default MAX_DEPTH depthArg <= 32).
  { unfold MerkleTree.constructor, bind in E.
    destruct (negb _) eqn:Hc in E; [discriminate|].
    apply depth_check in Hc. exact Hc. }
  split; [exact Hd|]. intros ->.
  unfold bind at 1 in E. rewrite constructor_fresh in E by exact Hd.
  unfold bind in E. rewrite writeMetaData_spec in E.
  cbn [MerkleTree.name] in E.
  destruct (metadata _) in E; [|discriminate].
  rewrite decide_True in E by reflexivity. discriminate.
Qed.

(** C2.  A fresh construction (no record under the name, depth in
    [1, 32], given or defaulted to 32), under a name that is not empty
    (the store refuses the record of the empty name).  With [digest[i]]
    the digest of
    level [i]: [digest[depth]] is the hash of 64 zero bytes, [digest[i]] is
    [compress (digest[i+1], digest[i+1])] below, and the tree returned has
    root [digest[0]].  The requests made to the store are, in order: the
    [get] of the metadata, then for the levels [depth - 1] down to 0 one
    [put] of [digest[i]] with value [digest[i+1] || digest[i+1]], then the
    metadata; so exactly [depth] node entries are written, none for the
    leaves.  The second rendition writes the metadata twice, the first
    time from inside the constructor. *)
Theorem fresh_construction (name : string) (depthArg : option Z) (l : log) :
  let depth := default MAX_DEPTH depthArg in
  let n := Z.to_nat depth in
  let tree := {| MerkleTree.name := name; MerkleTree.depth := depth;
                 MerkleTree.root := level_digest n 0 |} in
  1 <= depth <= 32 ->
  name <> ""%string ->
  lookup_key (Buffer.from name) l = None ->
  level_digest n n = hash (Buffer.alloc 64 x00)
  /\ (forall i, (i < n)%nat ->
        level_digest n i = compress (level_digest n (S i)) (level_digest n (S i)))
  /\ (exists meta,
        metadata tree = Some meta
        /\ MerkleTree.new name depthArg l
           = (Ok tree,
              Put (Buffer.from name) meta
                :: map (level_entry n) (seq 0 n) ++ Get (Buffer.from name) :: l))
  /\ (exists meta0 meta,
        metadata tree = Some meta
        /\ MerkleTree2.new name depthArg l
           = (Ok tree,
              Put (Buffer.from name) meta :: Put (Buffer.from name) meta0
                :: map (level_entry n) (seq 0 n) ++ Get (Buffer.from name) :: l))
  /\ List.length (map (level_entry n) (seq 0 n)) = n.
Proof.
  intros depth n tree Hd Hname Hfresh.
  assert (Hroot : level_digest n 0 = zero_digest n)
    by (unfold level_digest; rewrite Nat.sub_0_r; reflexivity).
  split; [unfold level_digest; rewrite Nat.sub_diag; reflexivity|].
  split.
  { intros i Hi. unfold level_digest.
    replace (n - i)%nat with (S (n - S i)) by lia. reflexivity. }
  unfold tree. rewrite Hroot.
  split; [|split].
  - rewrite <- (zero_puts_levels copied n copied_joins).
    apply new_fresh; assumption.
  - rewrite <- (zero_puts_levels concatenated n concatenated_joins).
    apply new2_fresh; assumption.
  - rewrite length_map, length_seq. reflexivity.
Qed.

End Fresh.

Section Paths.
Context `{HH : Hasher}.

Lemma path_from_length (l : log) (index : Z) :
  forall n cur p, path_from l index cur n = Ok p -> List.length p = n.
Proof.
  induction n as [|n IH]; intros cur p E.
  - injection E as <-. reflexivity.
  - rewrite path_from_S in E.
    destruct (lookup_key cur l) as [v|]; [|discriminate].
    destruct (path_from l index _ n) as [p0|] eqn:E0; [|discriminate].
    injection E as <-. rewrite length_app, (IH _ _ E0). simpl. lia.
Qed.

Lemma node_at_S (l : log) (index d : Z) (top : Buffer) (j : nat) :
  node_at l index d top (S j)
  = match node_at l index d top j with
    | None => None
    | Some parent =>
        match lookup_key parent l with
        | None => None
        | Some v => Some (if Z.testbit index (d - Z.of_nat j - 1) then hi v else lo v)
        end
    end.
Proof. reflexivity. Qed.

(** The nodes visited below the top are those visited from the child the
    top routes to. *)
Lemma node_at_child (l : log) (index : Z) (m : nat) (cur v : Buffer) :
  lookup_key cur l = Some v -> (m < 32)%nat ->
  forall k,
    node_at l index (Z.of_nat (S m)) cur (S k)
    = node_at l index (Z.of_nat m) (if goesRight index m then hi v else lo v) k.
Proof.
  intros Hv Hm. induction k as [|k IH].
  - rewrite node_at_S. cbn [node_at]. rewrite Hv. unfold goesRight.
    rewrite shouldGoRight_testbit by lia.
    replace (Z.of_nat (S m) - Z.of_nat 0 - 1) with (Z.of_nat m) by lia.
    reflexivity.
  - rewrite node_at_S, IH, (node_at_S _ _ _ _ k).
    replace (Z.of_nat (S m) - Z.of_nat (S k) - 1) with (Z.of_nat m - Z.of_nat k - 1)
      by lia.
    reflexivity.
Qed.

(** The pair at position [n - 1 - k] of a path is the pair of children of
    the node visited at level [k]. *)
Lemma path_nodes (l : log) (index : Z) :
  forall n cur p,
    (n <= 32)%nat -> path_from l index cur n = Ok p ->
    forall k, (k < n)%nat ->
      exists d v, node_at l index (Z.of_nat n) cur k = Some d
                  /\ lookup_key d l = Some v
                  /\ nth_error p (n - 1 - k) = Some (lo v, hi v).
Proof.
  induction n as [|n IH]; intros cur p Hn E k Hk; [lia|].
  pose proof (path_from_length _ _ _ _ _ E) as Hlen.
  rewrite path_from_S in E.
  destruct (lookup_key cur l) as [v|] eqn:Hv; [|discriminate].
  destruct (path_from l index _ n) as [p0|] eqn:E0; [|discriminate].
  injection E as <-.
  pose proof (path_from_length _ _ _ _ _ E0) as Hlen0.
  destruct k as [|k].
  - exists cur, v. split; [reflexivity|]. split; [exact Hv|].
    rewrite nth_error_app2 by lia.
    replace (S n - 1 - 0 - List.length p0)%nat with 0%nat by lia. reflexivity.
  - destruct (IH _ p0 ltac:(lia) E0 k ltac:(lia)) as (d & v0 & Hd & Hv0 & Hnth).
    exists d, v0. split; [|split; [exact Hv0|]].
    + rewrite (node_at_child l index n cur v Hv) by lia. exact Hd.
    + rewrite nth_error_app1 by lia.
      replace (S n - 1 - S k)%nat with (n - 1 - k)%nat by lia. exact Hnth.
Qed.

(** Two paths from the same node agree from the position of the highest
    bit in which their indices differ upwards. *)
Lemma path_from_shared (l : log) (i j : Z) (p : nat) :
  forall n cur a b,
    (p < n)%nat ->
    (forall q, (p < q < n)%nat -> goesRight i q = goesRight j q) ->
    path_from l i cur n = Ok a -> path_from l j cur n = Ok b ->
    skipn p a = skipn p b.
Proof.
  induction n as [|n IH]; intros cur a b Hp Hq Ea Eb; [lia|].
  rewrite path_from_S in Ea, Eb.
  destruct (lookup_key cur l) as [v|]; [|discriminate].
  destruct (path_from l i _ n) as [a0|] eqn:Ea0; [|discriminate].
  destruct (path_from l j _ n) as [b0|] eqn:Eb0; [|discriminate].
  injection Ea as <-. injection Eb as <-.
  pose proof (path_from_length _ _ _ _ _ Ea0) as Hla.
  pose proof (path_from_length _ _ _ _ _ Eb0) as Hlb.
  rewrite !skipn_app, Hla, Hlb.
  destruct (decide (p = n)) as [->|Hne].
  - rewrite (drop_ge a0), (drop_ge b0) by lia. reflexivity.
  - f_equal. rewrite <- (Hq n ltac:(lia)) in Eb0.
    apply (IH _ a0 b0 ltac:(lia) ltac:(intros q Hlt; apply Hq; lia) Ea0 Eb0).
Qed.

(** C4.  On a fully constructed tree [getHashPath] returns, in both
    renditions and for every index, a path of exactly [depth] pairs.  With
    the node of level 0 the root and the node of level [k + 1] the right
    child of the node of level [k] when bit [depth - k - 1] of the index
    is 1 and its left child otherwise, the pair at position
    [depth - 1 - k] is the pair of children of the node of level [k]: the
    first pair belongs to the node next to the leaf, the last to the
    root. *)
Theorem getHashPath_leaf_to_root (l : log) (this : MerkleTree.t) (index : Z) :
  fullyConstructed l this = true ->
  let n := Z.to_nat (MerkleTree.depth this) in
  exists path,
    (exists gets, forallb is_get gets = true
       /\ MerkleTree.getHashPath this index l = (Ok {| data := path |}, gets ++ l))
    /\ (exists gets, forallb is_get gets = true
       /\ MerkleTree2.getHashPath this index l = (Ok {| data := path |}, gets ++ l))
    /\ List.length path = n
    /\ forall k, (k < n)%nat ->
         exists d v,
           node_at l index (MerkleTree.depth this) (MerkleTree.root this) k = Some d
           /\ lookup_key d l = Some v
           /\ nth_error path (n - 1 - k) = Some (lo v, hi v).
Proof.
  intros Hfc n. unfold fullyConstructed in Hfc.
  apply andb_prop in Hfc as [Hd Hm]. apply andb_prop in Hd as [Hd1 Hd2].
  apply Z.leb_le in Hd1, Hd2. unfold MAX_DEPTH in Hd2. fold n in Hm.
  destruct (merkle_path l index n _ Hm) as (path & Hp & Hlen).
  exists path.
  destruct (getHashPath_spec this index l Hd1) as (g1 & Hg1 & E1).
  destruct (getHashPath2_spec this index l ltac:(lia)) as (g2 & Hg2 & E2).
  fold n in E1, E2. rewrite Hp in E1, E2.
  split; [exists g1; auto|]. split; [exists g2; auto|]. split; [exact Hlen|].
  intros k Hk.
  destruct (path_nodes l index n _ path ltac:(lia) Hp k Hk) as (d & v & H1 & H2 & H3).
  exists d, v. unfold n in H1. rewrite Z2Nat.id in H1 by lia. auto.
Qed.

End Paths.

Section Updating.
Context `{HH : Hasher} `{!DigestLength HH}.

Lemma fullyConstructed_inv (l : log) (t : MerkleTree.t) :
  fullyConstructed l t = true ->
  1 <= MerkleTree.depth t <= 32
  /\ merkle l (MerkleTree.root t) (Z.to_nat (MerkleTree.depth t)) = true.
Proof.
  unfold fullyConstructed, MAX_DEPTH. intros Hfc.
  apply andb_prop in Hfc as [Hd Hm]. apply andb_prop in Hd as [Hd1 Hd2].
  apply Z.leb_le in Hd1, Hd2. auto.
Qed.

Lemma fullyConstructed_intro (l : log) (t : MerkleTree.t) :
  1 <= MerkleTree.depth t <= 32 ->
  merkle l (MerkleTree.root t) (Z.to_nat (MerkleTree.depth t)) = true ->
  fullyConstructed l t = true.
Proof.
  unfold fullyConstructed, MAX_DEPTH. intros [H1 H2] Hm.
  rewrite Hm, (proj2 (Z.leb_le _ _) H1), (proj2 (Z.leb_le _ _) H2). reflexivity.
Qed.

Lemma fullyConstructed_root_length (l : log) (t : MerkleTree.t) :
  fullyConstructed l t = true -> List.length (MerkleTree.root t) = 32%nat.
Proof.
  intros Hfc. apply fullyConstructed_inv in Hfc as [Hd Hm].
  destruct (Z.to_nat (MerkleTree.depth t)) as [|n] eqn:En; [lia|].
  apply merkle_S_inv in Hm as (v & _ & Ha & _).
  apply (addressed_key_length _ _ Ha).
Qed.

(** Content-addressed entries all have a key, so the store serves their
    puts. *)
Lemma addressed_keyed (es : list (Buffer * Buffer)) :
  Forall addressed es -> Forall (fun e => fst e <> []) es.
Proof.
  intros Hes. eapply Forall_impl; [exact Hes|].
  intros [k v] Ha E. cbn [fst] in E. apply addressed_key_length in Ha.
  rewrite E in Ha. discriminate Ha.
Qed.

Lemma served_addressed (es : list (Buffer * Buffer)) :
  Forall addressed es -> served (map put_event es) = map put_event es.
Proof.
  intros Hes. apply served_keyed. intros k v Hin.
  apply in_map_iff in Hin as ([k' v'] & E & Hin). injection E as -> ->.
  apply addressed_keyed in Hes. rewrite List.Forall_forall in Hes.
  apply (Hes _ Hin).
Qed.

Lemma puts_addressed (es : list (Buffer * Buffer)) (l : log) :
  Forall addressed es -> puts es l = (Ok tt, map put_event es ++ l).
Proof. intros Hes. apply puts_keyed, addressed_keyed, Hes. Qed.

(** What [updateElement] does on a fully constructed tree, first
    rendition: the descent, the node entries, then the record, which the
    store refuses when the name is empty. *)
Lemma updateElement_outcome (l : log) (this : MerkleTree.t) (index : Z)
    (value : Buffer) :
  fullyConstructed l this = true ->
  exists d es gets m,
    forallb is_get gets = true
    /\ update_from copied l index (hash value) (MerkleTree.root this)
         (Z.to_nat (MerkleTree.depth this)) = Ok (d, es)
    /\ List.length d = 32%nat
    /\ List.length es = Z.to_nat (MerkleTree.depth this)
    /\ Forall addressed es
    /\ metadata (updated2 this d) = Some m
    /\ MerkleTree.updateElement this index value l
       = if decide (Buffer.from (MerkleTree.name this) = [])
         then (Err WriteError, map put_event es ++ gets ++ l)
         else (Ok (updated2 this d),
               Put (Buffer.from (MerkleTree.name this)) m
                 :: map put_event es ++ gets ++ l).
Proof.
  intros Hfc. pose proof (fullyConstructed_root_length _ _ Hfc) as Hroot.
  apply fullyConstructed_inv in Hfc as [Hd Hm].
  destruct (merkle_update copied l index (hash value) copied_joins (hash_length value)
              _ _ Hm) as (d & es & E & Hn & Hlen & Hes).
  destruct (updateElement_spec this index value l ltac:(lia)) as (gets & Hg & Eu).
  rewrite E, (served_addressed es Hes) in Eu.
  assert (Hup : updated this d = updated2 this d).
  { unfold updated, updated2. rewrite copy_full by congruence. reflexivity. }
  rewrite Hup in Eu.
  destruct (metadata_Some (updated2 this d)) as [m Hmeta]; [simpl; lia|].
  rewrite Hmeta in Eu.
  exists d, es, gets, m. auto 10.
Qed.

(** Under a name that is not empty the update succeeds. *)
Lemma updateElement_on_tree (l : log) (this : MerkleTree.t) (index : Z)
    (value : Buffer) :
  fullyConstructed l this = true ->
  MerkleTree.name this <> ""%string ->
  exists d es gets m,
    forallb is_get gets = true
    /\ update_from copied l index (hash value) (MerkleTree.root this)
         (Z.to_nat (MerkleTree.depth this)) = Ok (d, es)
    /\ List.length d = 32%nat
    /\ List.length es = Z.to_nat (MerkleTree.depth this)
    /\ Forall addressed es
    /\ metadata (updated2 this d) = Some m
    /\ MerkleTree.updateElement this index value l
       = (Ok (updated2 this d),
          Put (Buffer.from (MerkleTree.name this)) m :: map put_event es ++ gets ++ l).
Proof.
  intros Hfc Hname.
  destruct (updateElement_outcome l this index value Hfc)
    as (d & es & gets & m & Hg & E & Hd & Hn & Hes & Hmeta & Eu).
  rewrite decide_False in Eu by (rewrite from_nil; exact Hname).
  exists d, es, gets, m. auto 10.
Qed.

(** An update that has succeeded: what it returned and what it left. *)
Lemma updateElement_succeeded (l l' : log) (this this' : MerkleTree.t) (index : Z)
    (value : Buffer) :
  fullyConstructed l this = true ->
  MerkleTree.updateElement this index value l = (Ok this', l') ->
  exists d es gets m,
    forallb is_get gets = true
    /\ update_from copied l index (hash value) (MerkleTree.root this)
         (Z.to_nat (MerkleTree.depth this)) = Ok (d, es)
    /\ List.length d = 32%nat
    /\ List.length es = Z.to_nat (MerkleTree.depth this)
    /\ Forall addressed es
    /\ metadata (updated2 this d) = Some m
    /\ MerkleTree.name this <> ""%string
    /\ this' = updated2 this d
    /\ l' = Put (Buffer.from (MerkleTree.name this)) m :: map put_event es ++ gets ++ l.
Proof.
  intros Hfc Eu.
  destruct (updateElement_outcome l this index value Hfc)
    as (d & es & gets & m & Hg & E & Hd & Hn & Hes & Hmeta & Eu').
  rewrite Eu' in Eu.
  destruct (decide (Buffer.from (MerkleTree.name this) = [])) as [Hk|Hk];
    [discriminate|].
  injection Eu as <- <-.
  exists d, es, gets, m. rewrite from_nil in Hk. auto 12.
Qed.

(** The same for the second rendition. *)
Lemma updateElement2_on_tree (l : log) (this : MerkleTree.t) (index : Z)
    (value : Buffer) :
  fullyConstructed l this = true ->
  MerkleTree.name this <> ""%string ->
  exists d es gets m,
    forallb is_get gets = true
    /\ update_from concatenated l index (hash value) (MerkleTree.root this)
         (Z.to_nat (MerkleTree.depth this)) = Ok (d, es)
    /\ List.length d = 32%nat
    /\ List.length es = Z.to_nat (MerkleTree.depth this)
    /\ Forall addressed es
    /\ metadata (updated2 this d) = Some m
    /\ MerkleTree2.updateElement this index value l
       = (Ok (updated2 this d),
          Put (Buffer.from (MerkleTree.name this)) m :: map put_event es ++ gets ++ l).
Proof.
  intros Hfc Hname. apply fullyConstructed_inv in Hfc as [Hd Hm].
  destruct (merkle_update concatenated l index (hash value) concatenated_joins
              (hash_length value) _ _ Hm) as (d & es & E & Hn & Hlen & Hes).
  destruct (updateElement2_spec this index value l ltac:(lia)) as (gets & Hg & Eu).
  rewrite E in Eu. unfold bind in Eu. rewrite (puts_addressed es _ Hes) in Eu.
  destruct (metadata_Some (updated2 this d)) as [m Hmeta]; [simpl; lia|].
  rewrite (writeMetaData_named (updated2 this d) m) in Eu by assumption.
  exists d, es, gets, m. auto 10.
Qed.

(** The node entries among the requests of an update are content-addressed. *)
Lemma update_requests_addressed (nk m : Buffer) (es : list (Buffer * Buffer))
    (gets : log) :
  Forall addressed es -> forallb is_get gets = true ->
  forall k v, In (Put k v) (Put nk m :: map put_event es ++ gets) -> k <> nk ->
              addressed (k, v).
Proof.
  intros Hes Hg k v [E|Hin] Hne.
  - injection E as -> ->. contradiction.
  - apply in_app_or in Hin as [Hin|Hin].
    + apply in_map_iff in Hin as ([k' v'] & E & Hin). injection E as -> ->.
      rewrite List.Forall_forall in Hes. apply (Hes _ Hin).
    + rewrite forallb_forall in Hg. specialize (Hg _ Hin). discriminate.
Qed.

(** In a store free of collisions an update keeps every older
    content-addressed entry and binds every entry it writes. *)
Lemma update_binding (name : string) (m : Buffer) (es : list (Buffer * Buffer))
    (gets l : log) :
  List.length (Buffer.from name) <> 32%nat ->
  Forall addressed es -> forallb is_get gets = true ->
  collision_free name (Put (Buffer.from name) m :: map put_event es ++ gets ++ l) = true ->
  holds (Put (Buffer.from name) m :: map put_event es ++ gets ++ l) es
  /\ preserves l (Put (Buffer.from name) m :: map put_event es ++ gets ++ l).
Proof.
  intros Hname Hes Hg Hcf.
  replace (Put (Buffer.from name) m :: map put_event es ++ gets ++ l)
    with ((Put (Buffer.from name) m :: map put_event es ++ gets) ++ l) in *
    by (simpl; rewrite <- app_assoc; reflexivity).
  destruct (binding_kept name _ l Hname
              (update_requests_addressed _ m es gets Hes Hg) Hcf) as [Hb Hp].
  split; [|exact Hp].
  intros [k v] Hin. cbn [fst snd]. apply Hb.
  - right. apply in_or_app; left. apply in_map_iff. exists (k, v). auto.
  - intros ->. rewrite List.Forall_forall in Hes.
    apply Hes, addressed_key_length in Hin. contradiction.
Qed.

(** An update of a fully constructed tree leaves a fully constructed
    tree, as long as [compress] has produced no collision. *)
Lemma updateElement_fullyConstructed (l l' : log) (this this' : MerkleTree.t)
    (index : Z) (value : Buffer) :
  fullyConstructed l this = true ->
  List.length (Buffer.from (MerkleTree.name this)) <> 32%nat ->
  MerkleTree.updateElement this index value l = (Ok this', l') ->
  collision_free (MerkleTree.name this) l' = true ->
  fullyConstructed l' this' = true.
Proof.
  intros Hfc Hname Eu Hcf.
  destruct (updateElement_succeeded l _ this _ index value Hfc Eu)
    as (d & es & gets & m & Hg & E & Hd & Hn & Hes & Hmeta & _ & -> & ->).
  destruct (update_binding _ m es gets l Hname Hes Hg Hcf) as [Hh Hp].
  apply fullyConstructed_inv in Hfc as [Hdep Hm].
  apply fullyConstructed_intro; [exact Hdep|]. simpl.
  apply (update_merkle copied l _ index (hash value) copied_joins (hash_length value)
           Hp _ _ d es Hm E Hh).
Qed.

(** C10.  [updateElement] does not look at the length of the value: on a
    fully constructed tree whose name is not empty (the store refuses the
    record of a tree with the empty name) the call succeeds for a buffer
    of any length; at the level of the leaves the recursion returns
    [hash value] without a request to the store, and the root of the tree
    after the call is the digest obtained by carrying that leaf digest up
    the path. *)
Theorem updateElement_any_length (l : log) (this : MerkleTree.t) (index : Z)
    (value : Buffer) :
  fullyConstructed l this = true ->
  MerkleTree.name this <> ""%string ->
  (exists this' l' es,
     MerkleTree.updateElement this index value l = (Ok this', l')
     /\ update_from copied l index (hash value) (MerkleTree.root this)
          (Z.to_nat (MerkleTree.depth this)) = Ok (MerkleTree.getRoot this', es))
  /\ forall fuel cur l0,
       MerkleTree.updateRecursively this index value fuel cur (MerkleTree.depth this) l0
       = (Ok (hash value), l0).
Proof.
  intros Hfc Hnamed. split.
  - destruct (updateElement_on_tree l this index value Hfc Hnamed)
      as (d & es & gets & m & Hg & E & Hd & Hn & Hes & Hmeta & Eu).
    eexists _, _, es. split; [exact Eu | exact E].
  - intros fuel cur l0. destruct fuel; simpl; rewrite Z.eqb_refl; reflexivity.
Qed.

(** C1.  After [updateElement (index, value)] has succeeded on a fully
    constructed tree, [getHashPath (index)] returns a path of [depth]
    pairs on which the verifier's computation succeeds and ends in
    [getRoot ()]: starting from [hash value], at each pair, leaf-most
    first, the slot selected by the next bit of the index holds the
    current digest, and compressing the pair gives the next one.  Stated
    for a store in which [compress] has produced no collision among the
    node values written, and a tree name that is not 32 bytes long. *)
Theorem update_then_verify (l l' : log) (this this' : MerkleTree.t) (index : Z)
    (value : Buffer) :
  fullyConstructed l this = true ->
  List.length (Buffer.from (MerkleTree.name this)) <> 32%nat ->
  MerkleTree.updateElement this index value l = (Ok this', l') ->
  collision_free (MerkleTree.name this) l' = true ->
  exists path gets,
    forallb is_get gets = true
    /\ MerkleTree.getHashPath this' index l' = (Ok path, gets ++ l')
    /\ List.length (data path) = Z.to_nat (MerkleTree.depth this)
    /\ recompute (data path) index 0 (hash value) = Some (MerkleTree.getRoot this').
Proof.
  intros Hfc Hname Eu Hcf.
  destruct (updateElement_succeeded l _ this _ index value Hfc Eu)
    as (d & es & gets & m & Hg & E & Hd & Hn & Hes & Hmeta & _ & -> & ->).
  destruct (update_binding _ m es gets l Hname Hes Hg Hcf) as [Hh Hp].
  apply fullyConstructed_inv in Hfc as [Hdep Hm].
  destruct (update_then_path copied l _ index (hash value) copied_joins
              (hash_length value) _ _ d es Hm E Hh) as (p & Ep & Hlen & Hrec).
  { intros k Hk. unfold goesRight. apply shouldGoRight_testbit. lia. }
  destruct (getHashPath_spec (updated2 this d) index
              (Put (Buffer.from (MerkleTree.name this)) m
                 :: map put_event es ++ gets ++ l))
    as (gets' & Hg' & Eg); [simpl; lia|].
  simpl MerkleTree.root in Eg. simpl MerkleTree.depth in Eg. rewrite Ep in Eg.
  exists {| data := p |}, gets'. auto.
Qed.

End Updating.

Section ContentAddressing.
Context `{HH : Hasher} `{!DigestLength HH}.

Lemma zero_puts_addressed mk (n : nat) :
  joins mk ->
  forall k v, In (Put k v) (zero_puts mk n) -> addressed (k, v).
Proof.
  intros Hmk. induction n as [|n IH]; intros k v Hin; [contradiction|].
  destruct Hin as [E|Hin]; [|auto].
  injection E as <- <-.
  rewrite (Hmk _ _ (zero_digest_length n) (zero_digest_length n)).
  unfold addressed. cbn [fst snd].
  rewrite lo_app, hi_app by apply zero_digest_length.
  split; [rewrite length_app, zero_digest_length; reflexivity | reflexivity].
Qed.

(** A fresh construction in a store free of collisions gives a fully
    constructed tree. *)
Lemma new_fullyConstructed (name : string) (depthArg : option Z) (l l' : log)
    (t : MerkleTree.t) :
  List.length (Buffer.from name) <> 32%nat ->
  lookup_key (Buffer.from name) l = None ->
  MerkleTree.new name depthArg l = (Ok t, l') ->
  collision_free name l' = true ->
  fullyConstructed l' t = true.
Proof.
  intros Hname Hfresh E Hcf.
  destruct (new_fresh_succeeded name depthArg l l' t Hfresh E) as [[H1 H2] Hnamed].
  destruct (Z_le_dec 1 (default MAX_DEPTH depthArg)) as [H1'|H1'];
    [destruct (Z_le_dec (default MAX_DEPTH depthArg) 32) as [H2'|H2']|].
  - destruct (new_fresh name depthArg l (conj H1 H2) Hnamed Hfresh)
      as (meta & Hmeta & E').
    rewrite E' in E. injection E as <- <-.
    apply fullyConstructed_intro; [simpl; lia|]. simpl.
    set (n := Z.to_nat (default MAX_DEPTH depthArg)) in *.
    set (new := Put (Buffer.from name) meta :: zero_puts copied n ++ [Get (Buffer.from name)]).
    replace (Put (Buffer.from name) meta :: zero_puts copied n ++ Get (Buffer.from name) :: l)
      with (new ++ l) in *
      by (unfold new; simpl; rewrite <- app_assoc; reflexivity).
    assert (Hadd : forall k v, In (Put k v) new -> k <> Buffer.from name -> addressed (k, v)).
    { intros k v [E|Hin] Hne; [injection E as E1 E2; congruence|].
      apply in_app_or in Hin as [Hin|[E|[]]]; [|discriminate].
      apply (zero_puts_addressed copied n copied_joins _ _ Hin). }
    destruct (binding_kept name new l Hname Hadd Hcf) as [Hb _].
    assert (Hall : forall h, (h <= n)%nat -> merkle (new ++ l) (zero_digest h) h = true).
    { induction h as [|h IH]; intros Hh; [reflexivity|].
      assert (Hin : In (Put (zero_digest (S h)) (zero_digest h ++ zero_digest h)) new).
      { right. apply in_or_app; left.
        clear -Hh DigestLength0. induction n as [|n IHn]; [lia|].
        destruct (decide (h = n)) as [->|Hne].
        - left. rewrite (copied_joins _ _ (zero_digest_length n) (zero_digest_length n)).
          reflexivity.
        - right. apply IHn. lia. }
      apply (merkle_S_intro _ _ (zero_digest h ++ zero_digest h)).
      - apply Hb; [exact Hin|].
        intros Ek. apply Hname. rewrite <- Ek. apply zero_digest_length.
      - unfold addressed. cbn [fst snd].
        rewrite lo_app, hi_app by apply zero_digest_length.
        split; [rewrite length_app, zero_digest_length; reflexivity | reflexivity].
      - rewrite lo_app by apply zero_digest_length. apply IH. lia.
      - rewrite hi_app by apply zero_digest_length. apply IH. lia. }
    apply Hall. lia.
  - exfalso. unfold MerkleTree.new, bind, LevelUp.get_or_undefined in E.
    rewrite Hfresh in E. unfold MerkleTree.constructor in E.
    destruct (negb _) eqn:Hc in E; [discriminate|].
    apply depth_check in Hc. lia.
  - exfalso. unfold MerkleTree.new, bind, LevelUp.get_or_undefined in E.
    rewrite Hfresh in E. unfold MerkleTree.constructor in E.
    destruct (negb _) eqn:Hc in E; [discriminate|].
    apply depth_check in Hc. lia.
Qed.

(** C5.  The store stays content-addressed.  Every node entry written by
    a fresh construction or by [updateElement] on a fully constructed
    tree has 64 bytes and is stored under [compress] of its two halves.
    In a store where [compress] has produced no collision among the node
    values written, no such operation changes the value bound to the key
    of a content-addressed entry, and every node entry it writes is bound
    in the store after it: what was reachable from an old root still is.
    Stated for a tree name that is not 32 bytes long, so that the
    metadata cannot take the place of a node. *)
Theorem store_content_addressed :
  (forall (name : string) (depthArg : option Z) (l l' : log) (t : MerkleTree.t),
      List.length (Buffer.from name) <> 32%nat ->
      lookup_key (Buffer.from name) l = None ->
      MerkleTree.new name depthArg l = (Ok t, l') ->
      keeps_addressing name l l')
  /\ (forall (l l' : log) (this this' : MerkleTree.t) (index : Z) (value : Buffer),
      List.length (Buffer.from (MerkleTree.name this)) <> 32%nat ->
      fullyConstructed l this = true ->
      MerkleTree.updateElement this index value l = (Ok this', l') ->
      keeps_addressing (MerkleTree.name this) l l').
Proof.
  split.
  - intros name depthArg l l' t Hname Hfresh E.
    assert (Hd : 1 <= default MAX_DEPTH depthArg <= 32).
    { unfold MerkleTree.new, bind, LevelUp.get_or_undefined in E.
      rewrite Hfresh in E. unfold MerkleTree.constructor in E.
      destruct (negb _) eqn:Hc in E; [discriminate|].
      apply depth_check in Hc. exact Hc. }
    destruct (new_fresh_succeeded name depthArg l l' t Hfresh E) as [_ Hnamed].
    destruct (new_fresh name depthArg l Hd Hnamed Hfresh) as (meta & Hmeta & E').
    rewrite E' in E. injection E as <- <-.
    set (n := Z.to_nat (default MAX_DEPTH depthArg)).
    exists (Put (Buffer.from name) meta :: zero_puts copied n ++ [Get (Buffer.from name)]).
    assert (Hadd : forall k v,
               In (Put k v) (Put (Buffer.from name) meta
                               :: zero_puts copied n ++ [Get (Buffer.from name)]) ->
               k <> Buffer.from name -> addressed (k, v)).
    { intros k v [E|Hin] Hne; [injection E as E1 E2; congruence|].
      apply in_app_or in Hin as [Hin|[E|[]]]; [|discriminate].
      apply (zero_puts_addressed copied n copied_joins _ _ Hin). }
    split; [simpl; rewrite <- app_assoc; reflexivity|].
    split; [exact Hadd|].
    intros Hcf.
    replace (Put (Buffer.from name) meta :: zero_puts copied n ++ Get (Buffer.from name) :: l)
      with ((Put (Buffer.from name) meta :: zero_puts copied n ++ [Get (Buffer.from name)]) ++ l)
      in * by (simpl; rewrite <- app_assoc; reflexivity).
    destruct (binding_kept name _ l Hname Hadd Hcf) as [Hb Hp]. auto.
  - intros l l' this this' index value Hname Hfc E.
    destruct (updateElement_succeeded l _ this _ index value Hfc E)
      as (d & es & gets & m & Hg & Eu & Hd & Hn & Hes & Hmeta & _ & -> & ->).
    exists (Put (Buffer.from (MerkleTree.name this)) m :: map put_event es ++ gets).
    split; [simpl; rewrite <- app_assoc; reflexivity|].
    split; [apply update_requests_addressed; assumption|].
    intros Hcf.
    replace (Put (Buffer.from (MerkleTree.name this)) m :: map put_event es ++ gets ++ l)
      with ((Put (Buffer.from (MerkleTree.name this)) m :: map put_event es ++ gets) ++ l)
      in * by (simpl; rewrite <- app_assoc; reflexivity).
    destruct (binding_kept _ _ l Hname
                (update_requests_addressed _ m es gets Hes Hg) Hcf) as [Hb Hp].
    auto.
Qed.

End ContentAddressing.

Section Frame.
Context `{HH : Hasher} `{!DigestLength HH}.

(** Below the level at which the path to [j] leaves the path to the
    updated leaf [i], the pairs on the path to [j] are those of before the
    update. *)
Lemma update_frame mk (l l' : log) (i j : Z) (leaf : Buffer) (p : nat) :
  joins mk -> List.length leaf = 32%nat -> preserves l l' ->
  forall n cur d es,
    merkle l cur n = true ->
    update_from mk l i leaf cur n = Ok (d, es) ->
    holds l' es ->
    (p < n)%nat ->
    goesRight i p <> goesRight j p ->
    (forall q, (p < q < n)%nat -> goesRight i q = goesRight j q) ->
    exists a b, path_from l j cur n = Ok a /\ path_from l' j d n = Ok b
                /\ firstn p b = firstn p a.
Proof.
  intros Hmk Hleaf Hpres.
  induction n as [|n IH]; intros cur d es Hm E Hh Hp Hdiff Hsame; [lia|].
  apply merkle_S_inv in Hm as (v & Hv & [Hlen Hk] & Hl & Hr).
  cbn [fst snd] in Hlen.
  pose proof (lo_length v Hlen) as Hlo. pose proof (hi_length v Hlen) as Hhi.
  rewrite update_from_S, Hv in E.
  destruct (goesRight i n) eqn:Bi.
  - destruct (merkle_update mk l i leaf Hmk Hleaf n (hi v) Hr)
      as (d0 & es0 & E0 & _ & Hd0 & _).
    rewrite E0 in E. injection E as <- <-.
    pose proof (Hh _ (or_introl eq_refl)) as Hroot. cbn [fst snd] in Hroot.
    rewrite (Hmk _ _ Hlo Hd0) in Hroot.
    destruct (decide (p = n)) as [->|Hne].
    + assert (Bj : goesRight j n = false)
        by (destruct (goesRight j n); [congruence | reflexivity]).
      destruct (merkle_path l j n (lo v) Hl) as (a0 & Ea0 & Hla0).
      exists (a0 ++ [(lo v, hi v)]), (a0 ++ [(lo v, d0)]).
      rewrite !path_from_S, Hv, Hroot, lo_app, hi_app, Bj, Ea0 by assumption.
      rewrite (path_from_preserved l l' j Hpres n (lo v) Hl), Ea0.
      split; [reflexivity|]. split; [reflexivity|].
      rewrite !take_app_length' by (symmetry; assumption). reflexivity.
    + assert (Bj : goesRight j n = true) by (rewrite <- (Hsame n) by lia; exact Bi).
      destruct (IH (hi v) d0 es0 Hr E0) as (a0 & b0 & Ea0 & Eb0 & Hfirst); auto.
      { intros e He. apply Hh. right. exact He. }
      { lia. }
      { intros q Hq. apply Hsame. lia. }
      exists (a0 ++ [(lo v, hi v)]), (b0 ++ [(lo v, d0)]).
      rewrite !path_from_S, Hv, Hroot, lo_app, hi_app, Bj, Ea0, Eb0 by assumption.
      split; [reflexivity|]. split; [reflexivity|].
      pose proof (path_from_length _ _ _ _ _ Ea0) as Hla.
      pose proof (path_from_length _ _ _ _ _ Eb0) as Hlb.
      rewrite !take_app_le by lia. exact Hfirst.
  - destruct (merkle_update mk l i leaf Hmk Hleaf n (lo v) Hl)
      as (d0 & es0 & E0 & _ & Hd0 & _).
    rewrite E0 in E. injection E as <- <-.
    pose proof (Hh _ (or_introl eq_refl)) as Hroot. cbn [fst snd] in Hroot.
    rewrite (Hmk _ _ Hd0 Hhi) in Hroot.
    destruct (decide (p = n)) as [->|Hne].
    + assert (Bj : goesRight j n = true)
        by (destruct (goesRight j n); [reflexivity | congruence]).
      destruct (merkle_path l j n (hi v) Hr) as (a0 & Ea0 & Hla0).
      exists (a0 ++ [(lo v, hi v)]), (a0 ++ [(d0, hi v)]).
      rewrite !path_from_S, Hv, Hroot, lo_app, hi_app, Bj, Ea0 by assumption.
      rewrite (path_from_preserved l l' j Hpres n (hi v) Hr), Ea0.
      split; [reflexivity|]. split; [reflexivity|].
      rewrite !take_app_length' by (symmetry; assumption). reflexivity.
    + assert (Bj : goesRight j n = false) by (rewrite <- (Hsame n) by lia; exact Bi).
      destruct (IH (lo v) d0 es0 Hl E0) as (a0 & b0 & Ea0 & Eb0 & Hfirst); auto.
      { intros e He. apply Hh. right. exact He. }
      { lia. }
      { intros q Hq. apply Hsame. lia. }
      exists (a0 ++ [(lo v, hi v)]), (b0 ++ [(d0, hi v)]).
      rewrite !path_from_S, Hv, Hroot, lo_app, hi_app, Bj, Ea0, Eb0 by assumption.
      split; [reflexivity|]. split; [reflexivity|].
      pose proof (path_from_length _ _ _ _ _ Ea0) as Hla.
      pose proof (path_from_length _ _ _ _ _ Eb0) as Hlb.
      rewrite !take_app_le by lia. exact Hfirst.
Qed.

(** C6, as the code has it.  Let [p] be the highest bit position below
    [depth] in which [i] and [j] differ.  After [updateElement (i, value)]
    on a fully constructed tree, the first [p] pairs of [getHashPath (j)]
    (those of the levels below the node where the two paths part) are the
    pairs of before the update; the pairs from position [p] up to the
    root are those of [getHashPath (i)] after the update, the nodes from
    there up being common to the two paths.  Stated for a store in which
    [compress] has produced no collision among the node values written,
    and a tree name that is not 32 bytes long. *)
Theorem update_keeps_pairs_below_fork (l l' : log) (this this' : MerkleTree.t)
    (i j : Z) (value : Buffer) (p : Z) :
  fullyConstructed l this = true ->
  List.length (Buffer.from (MerkleTree.name this)) <> 32%nat ->
  MerkleTree.updateElement this i value l = (Ok this', l') ->
  collision_free (MerkleTree.name this) l' = true ->
  0 <= p < MerkleTree.depth this ->
  Z.testbit i p <> Z.testbit j p ->
  (forall q, p < q < MerkleTree.depth this -> Z.testbit i q = Z.testbit j q) ->
  exists before after after_i,
    fst (MerkleTree.getHashPath this j l) = Ok before
    /\ fst (MerkleTree.getHashPath this' j l') = Ok after
    /\ fst (MerkleTree.getHashPath this' i l') = Ok after_i
    /\ List.length (data after) = Z.to_nat (MerkleTree.depth this)
    /\ firstn (Z.to_nat p) (data after) = firstn (Z.to_nat p) (data before)
    /\ skipn (Z.to_nat p) (data after) = skipn (Z.to_nat p) (data after_i).
Proof.
  intros Hfc Hname Eu Hcf Hp Hdiff Hsame.
  destruct (updateElement_succeeded l _ this _ i value Hfc Eu)
    as (d & es & gets & m & Hg & E & Hd & Hn & Hes & Hmeta & _ & -> & ->).
  destruct (update_binding _ m es gets l Hname Hes Hg Hcf) as [Hh Hpres].
  apply fullyConstructed_inv in Hfc as [Hdep Hm].
  set (n := Z.to_nat (MerkleTree.depth this)) in *.
  set (l' := Put (Buffer.from (MerkleTree.name this)) m :: map put_event es ++ gets ++ l) in *.
  assert (Hbit : forall x q, (q < n)%nat -> goesRight x q = Z.testbit x (Z.of_nat q)).
  { intros x q Hq. unfold goesRight. apply shouldGoRight_testbit. lia. }
  destruct (update_frame copied l l' i j (hash value) (Z.to_nat p) copied_joins
              (hash_length value) Hpres n _ d es Hm E Hh)
    as (a & b & Ea & Eb & Hfirst).
  { lia. }
  { rewrite !Hbit by lia. rewrite Z2Nat.id by lia. exact Hdiff. }
  { intros q Hq. rewrite !Hbit by lia. apply Hsame. lia. }
  destruct (update_then_path copied l l' i (hash value) copied_joins
              (hash_length value) n _ d es Hm E Hh) as (c & Ec & Hlc & _).
  { intros q Hq. apply Hbit. exact Hq. }
  destruct (getHashPath_spec this j l ltac:(lia)) as (g0 & _ & E0).
  destruct (getHashPath_spec (updated2 this d) j l' ltac:(simpl; lia)) as (g1 & _ & E1).
  destruct (getHashPath_spec (updated2 this d) i l' ltac:(simpl; lia)) as (g2 & _ & E2).
  simpl MerkleTree.root in E1, E2. simpl MerkleTree.depth in E1, E2.
  fold n in E0, E1, E2. rewrite Ea in E0. rewrite Eb in E1. rewrite Ec in E2.
  exists {| data := a |}, {| data := b |}, {| data := c |}.
  rewrite E0, E1, E2. simpl.
  split; [reflexivity|]. split; [reflexivity|]. split; [reflexivity|].
  split; [apply (path_from_length _ _ _ _ _ Eb)|]. split; [exact Hfirst|].
  apply (path_from_shared l' j i (Z.to_nat p) n d b c); auto.
  - lia.
  - intros q Hq. rewrite !Hbit by lia. symmetry. apply Hsame. lia.
Qed.

End Frame.

Section Restoring.
Context `{HH : Hasher}.

Lemma eta (t : MerkleTree.t) :
  {| MerkleTree.name := MerkleTree.name t; MerkleTree.depth := MerkleTree.depth t;
     MerkleTree.root := MerkleTree.root t |} = t.
Proof. destruct t; reflexivity. Qed.

(** The record written for a tree with a 32-byte root can be read back. *)
Lemma metadata_restorable (t : MerkleTree.t) (m : Buffer) (l : log) :
  1 <= MerkleTree.depth t <= 32 ->
  List.length (MerkleTree.root t) = 32%nat ->
  metadata t = Some m ->
  List.length m = 40%nat
  /\ restorable (Put (Buffer.from (MerkleTree.name t)) m :: l) t.
Proof.
  intros Hd Hr Hm. rewrite metadata_root32 in Hm by (assumption || lia).
  injection Hm as <-. split.
  - rewrite length_app, Hr. reflexivity.
  - split; [exact Hd|]. split; [exact Hr|].
    eexists. split; [simpl; rewrite decide_True by reflexivity; reflexivity|].
    split; [apply readUInt32LE_meta; assumption || lia|].
    apply slice_app_lo; assumption.
Qed.

(** A tree rebuilt by [new] is the tree the record was written for. *)
Lemma restorable_new (l : log) (t : MerkleTree.t) (depthArg : option Z) :
  restorable l t ->
  MerkleTree.new (MerkleTree.name t) depthArg l
  = (Ok t, Get (Buffer.from (MerkleTree.name t)) :: l).
Proof.
  intros (Hd & Hr & m & Hm & Hread & Hslice).
  unfold MerkleTree.new, bind, LevelUp.get_or_undefined.
  rewrite Hm, Hread, Hslice. unfold MerkleTree.constructor.
  rewrite (proj2 (depth_check _) Hd). unfold ret.
  rewrite copy_full by (rewrite alloc_length; exact Hr).
  rewrite eta. reflexivity.
Qed.

(** Whatever [new] returns can be rebuilt from the store it leaves. *)
Lemma new_restorable (name : string) (depthArg : option Z) (l l' : log)
    (t : MerkleTree.t) :
  MerkleTree.new name depthArg l = (Ok t, l') ->
  MerkleTree.name t = name /\ restorable l' t.
Proof.
  unfold MerkleTree.new, bind at 1, LevelUp.get_or_undefined.
  destruct (lookup_key (Buffer.from name) l) as [m|] eqn:Hm.
  - destruct (Buffer.readUInt32LE m 32) as [d|] eqn:Hread; [|discriminate].
    unfold MerkleTree.constructor.
    destruct (negb _) eqn:Hc; [discriminate|]. apply depth_check in Hc.
    unfold ret. intros E. injection E as <- <-.
    assert (Hlen : (36 <= List.length m)%nat).
    { unfold Buffer.readUInt32LE in Hread.
      destruct (Nat.leb_spec (32 + 4) (List.length m)); [lia | discriminate]. }
    assert (Hs : List.length (Buffer.slice m 0 32) = 32%nat)
      by (apply slice_lo_length; lia).
    rewrite copy_full by (rewrite Hs; reflexivity).
    split; [reflexivity|]. split; [exact Hc|]. split; [exact Hs|].
    exists m. simpl. auto.
  - destruct (negb ((1 <=? default MAX_DEPTH depthArg)
                    && (default MAX_DEPTH depthArg <=? MAX_DEPTH))) eqn:Hc.
    { unfold MerkleTree.constructor, bind. rewrite Hc. discriminate. }
    apply depth_check in Hc.
    unfold bind at 1. rewrite constructor_fresh by exact Hc.
    unfold bind, ret. rewrite writeMetaData_spec.
    set (t0 := {| MerkleTree.name := name; MerkleTree.depth := default MAX_DEPTH depthArg;
                  MerkleTree.root := Buffer.copy _ (Buffer.alloc 32 x00) 0 |}).
    destruct (metadata t0) as [m|] eqn:Hmeta; [|discriminate].
    case_key; [discriminate|].
    intros E. injection E as <- <-.
    split; [reflexivity|].
    apply (metadata_restorable t0 m); auto.
    unfold t0. cbn [MerkleTree.root].
    rewrite copy_length by (rewrite alloc_length; lia).
    apply alloc_length.
Qed.

(** So can what [updateElement] returns; the newest request of the
    update is the write of a 40-byte record. *)
Lemma updateElement_restorable (l l' : log) (t t' : MerkleTree.t) (index : Z)
    (value : Buffer) :
  restorable l t ->
  MerkleTree.updateElement t index value l = (Ok t', l') ->
  MerkleTree.name t' = MerkleTree.name t
  /\ restorable l' t'
  /\ exists m older, l' = Put (Buffer.from (MerkleTree.name t)) m :: older
                     /\ metadata t' = Some m /\ List.length m = 40%nat.
Proof.
  intros (Hd & Hr & _) E.
  destruct (updateElement_spec t index value l ltac:(lia)) as (gets & _ & E').
  rewrite E' in E.
  destruct (update_from copied l index (hash value) _ _) as [[d es]|e]; [|discriminate].
  destruct (metadata (updated t d)) as [m|] eqn:Hmeta; [|discriminate].
  destruct (decide (Buffer.from (MerkleTree.name t) = [])); [discriminate|].
  injection E as <- <-.
  assert (Hr' : List.length (MerkleTree.root (updated t d)) = 32%nat)
    by (unfold updated; cbn [MerkleTree.root]; rewrite copy_length by lia; exact Hr).
  destruct (metadata_restorable (updated t d) m
              (served (map put_event es) ++ gets ++ l) Hd Hr' Hmeta) as [Hlen Hres].
  split; [reflexivity|]. split; [exact Hres|].
  exists m, (served (map put_event es) ++ gets ++ l). auto.
Qed.

Lemma updateAll_restorable (us : list (Z * Buffer)) :
  forall l l' t t',
    restorable l t -> updateAll t us l = (Ok t', l') ->
    MerkleTree.name t' = MerkleTree.name t /\ restorable l' t'
    /\ (us <> [] ->
        exists m older, l' = Put (Buffer.from (MerkleTree.name t)) m :: older
                        /\ metadata t' = Some m /\ List.length m = 40%nat).
Proof.
  induction us as [|[index value] us IH]; intros l l' t t' Hres E.
  - injection E as <- <-. split; [reflexivity|]. split; [exact Hres|].
    intros Hne; contradiction.
  - simpl in E. unfold bind in E.
    destruct (MerkleTree.updateElement t index value l) as [[t1|e] l1] eqn:E1;
      [|discriminate].
    destruct (updateElement_restorable _ _ _ _ _ _ Hres E1) as (Hn1 & Hres1 & Hlast1).
    destruct (IH _ _ _ _ Hres1 E) as (Hn & Hres' & Hlast).
    split; [congruence|]. split; [exact Hres'|]. intros _.
    destruct us as [|u us'].
    + injection E as <- <-. exact Hlast1.
    + rewrite <- Hn1. apply Hlast. discriminate.
Qed.

(** C3.  Restoration round trip.  After a tree has been obtained from
    [new] under a name and any sequence of updates has been performed on
    it, [new] with the same store and name, whatever its depth argument,
    returns a tree with the same root and depth, whose [getHashPath]
    gives for every index the result the original gives.  Each update
    ends by writing under the name a record of 40 bytes, from which the
    root (bytes 0 to 31) and the depth (bytes 32 to 35, least significant
    first; the last four bytes are left zero) are read back. *)
Theorem restore_round_trip (name : string) (depthArg : option Z) (l0 l1 : log)
    (t0 : MerkleTree.t) (us : list (Z * Buffer)) (t : MerkleTree.t) (l : log) :
  MerkleTree.new name depthArg l0 = (Ok t0, l1) ->
  updateAll t0 us l1 = (Ok t, l) ->
  forall depthArg' : option Z,
    exists t',
      MerkleTree.new name depthArg' l = (Ok t', Get (Buffer.from name) :: l)
      /\ MerkleTree.getRoot t' = MerkleTree.getRoot t
      /\ MerkleTree.depth t' = MerkleTree.depth t
      /\ (forall index,
            fst (MerkleTree.getHashPath t' index (Get (Buffer.from name) :: l))
            = fst (MerkleTree.getHashPath t index l))
      /\ (us <> [] ->
          exists m older,
            l = Put (Buffer.from name) m :: older /\ List.length m = 40%nat
            /\ Buffer.slice m 0 32 = MerkleTree.getRoot t
            /\ Buffer.readUInt32LE m 32 = Some (MerkleTree.depth t)).
Proof.
  intros Enew Eall depthArg'.
  destruct (new_restorable _ _ _ _ _ Enew) as [Hname Hres0].
  destruct (updateAll_restorable us _ _ _ _ Hres0 Eall) as (Hn & Hres & Hlast).
  rewrite Hname in Hn, Hlast.
  exists t. rewrite <- Hn. split; [apply restorable_new; exact Hres|].
  split; [reflexivity|]. split; [reflexivity|]. split.
  - intros index. destruct Hres as (Hd & _).
    destruct (getHashPath_spec t index l ltac:(lia)) as (g1 & _ & E1).
    destruct (getHashPath_spec t index (Get (Buffer.from (MerkleTree.name t)) :: l)
                ltac:(lia)) as (g2 & _ & E2).
    rewrite E1, E2. simpl.
    rewrite (path_from_ext (Get (Buffer.from (MerkleTree.name t)) :: l) l) by reflexivity.
    reflexivity.
  - intros Hne. destruct (Hlast Hne) as (m & older & -> & Hmeta & Hlen).
    exists m, older. rewrite Hn. split; [reflexivity|]. split; [exact Hlen|].
    destruct Hres as (Hd & Hr & m' & Hm' & Hread & Hslice).
    simpl in Hm'. rewrite Hn, decide_True in Hm' by reflexivity.
    injection Hm' as <-. auto.
Qed.

End Restoring.

(* ===================================================================== *)
(** ** The scenario of the specification *)
(* ===================================================================== *)

Section ScenarioFacts.
Import Scenario.

Lemma scenario_new : MerkleTree.new "test" (Some 2) [] = (Ok tree0, log0).
Proof. vm_compute. reflexivity. Qed.

Lemma scenario_update :
  MerkleTree.updateElement tree0 3 value log0 = (Ok tree1, log1).
Proof. vm_compute. reflexivity. Qed.

Lemma scenario_updateAll : updateAll tree0 [(3, value)] log0 = (Ok tree1, log1).
Proof.
  unfold updateAll, bind. rewrite scenario_update. reflexivity.
Qed.

Lemma scenario_constructed : fullyConstructed log0 tree0 = true.
Proof. vm_compute. reflexivity. Qed.

Lemma scenario_name : List.length (Buffer.from "test") <> 32%nat.
Proof. vm_compute. discriminate. Qed.

Lemma scenario_named : MerkleTree.name tree0 <> ""%string.
Proof. discriminate. Qed.

Lemma scenario_collision_free : collision_free "test" log1 = true.
Proof. vm_compute. reflexivity. Qed.

Lemma scenario_meta : lookup_key (Buffer.from "test") log1 = Some meta1.
Proof. vm_compute. reflexivity. Qed.

Lemma scenario_path_before :
  fst (MerkleTree.getHashPath tree0 0 log0)
  = Ok {| data := [(zero_digest 0, zero_digest 0);
                   (zero_digest 1, zero_digest 1)] |}.
Proof. vm_compute. reflexivity. Qed.

Lemma scenario_path_after :
  fst (MerkleTree.getHashPath tree1 0 log1)
  = Ok {| data := [(zero_digest 0, zero_digest 0);
                   (zero_digest 1, compress (zero_digest 0) (hash value))] |}.
Proof. vm_compute. reflexivity. Qed.

Lemma scenario_digests_differ :
  compress (zero_digest 0) (hash value) <> zero_digest 1.
Proof. apply (proj1 (bool_decide_eq_false _)). vm_compute. reflexivity. Qed.

(** The reference root of the empty tree of depth 32. *)
Example reference_root :
  zero_digest 32
  = hex "1c9a7e5ff1cf48b4ad1582d3f4e4a1004f3b20d8c5a2b71387a4254ad933ebc5".
Proof. vm_compute. reflexivity. Qed.

Lemma paths_differ (a b c d : Buffer) :
  d <> c ->
  Ok {| data := [(a, a); (b, d)] |} <> Ok {| data := [(a, a); (b, c)] |}.
Proof. intros Hne E. injection E as E. exact (Hne E). Qed.

(** The claim of the specification that an update leaves the paths of
    the indices on the other side of the tree alone fails on its own
    scenario: indices 3 and 0 part at the root, yet after the update of
    index 3 the pair of the root in the path of index 0 has changed. *)
Lemma update_changes_path_of_other_index :
  fullyConstructed log0 tree0 = true
  /\ MerkleTree.updateElement tree0 3 value log0 = (Ok tree1, log1)
  /\ (0 <= 3 < 2 ^ 2 /\ 0 <= 0 < 2 ^ 2 /\ Z.testbit 3 1 <> Z.testbit 0 1)
  /\ fst (MerkleTree.getHashPath tree0 0 log0)
     = Ok {| data := [(zero_digest 0, zero_digest 0);
                      (zero_digest 1, zero_digest 1)] |}
  /\ fst (MerkleTree.getHashPath tree1 0 log1)
     = Ok {| data := [(zero_digest 0, zero_digest 0);
                      (zero_digest 1, compress (zero_digest 0) (hash value))] |}
  /\ fst (MerkleTree.getHashPath tree1 0 log1)
     <> fst (MerkleTree.getHashPath tree0 0 log0).
Proof.
  split; [exact scenario_constructed|].
  split; [exact scenario_update|].
  split; [split; [lia|split; [lia|vm_compute; discriminate]]|].
  split; [exact scenario_path_before|]. split; [exact scenario_path_after|].
  rewrite scenario_path_before, scenario_path_after.
  apply paths_differ. exact scenario_digests_differ.
Qed.

Lemma update_then_verify_witness :
  fullyConstructed log0 tree0 = true
  /\ List.length (Buffer.from (MerkleTree.name tree0)) <> 32%nat
  /\ MerkleTree.updateElement tree0 3 value log0 = (Ok tree1, log1)
  /\ collision_free (MerkleTree.name tree0) log1 = true
  /\ exists path gets,
       forallb is_get gets = true
       /\ MerkleTree.getHashPath tree1 3 log1 = (Ok path, gets ++ log1)
       /\ List.length (data path) = Z.to_nat (MerkleTree.depth tree0)
       /\ recompute (data path) 3 0 (hash value) = Some (MerkleTree.getRoot tree1).
Proof.
  split; [exact scenario_constructed|]. split; [exact scenario_name|].
  split; [exact scenario_update|]. split; [exact scenario_collision_free|].
  exact (update_then_verify log0 log1 tree0 tree1 3 value
           scenario_constructed scenario_name scenario_update scenario_collision_free).
Defined.

Lemma fresh_construction_witness :
  1 <= 2 <= 32
  /\ "test"%string <> ""%string
  /\ lookup_key (Buffer.from "test") [] = None
  /\ exists meta,
       metadata {| MerkleTree.name := "test"; MerkleTree.depth := 2;
                   MerkleTree.root := level_digest 2 0 |} = Some meta
       /\ MerkleTree.new "test" (Some 2) []
          = (Ok {| MerkleTree.name := "test"; MerkleTree.depth := 2;
                   MerkleTree.root := level_digest 2 0 |},
             Put (Buffer.from "test") meta
               :: map (level_entry 2) (seq 0 2) ++ Get (Buffer.from "test") :: []).
Proof.
  assert (H1 : 1 <= 2 <= 32) by lia.
  assert (H2 : lookup_key (Buffer.from "test") [] = None) by reflexivity.
  split; [exact H1|]. split; [exact scenario_named|]. split; [exact H2|].
  exact (proj1 (proj2 (proj2 (fresh_construction "test" (Some 2) []
                                H1 scenario_named H2)))).
Defined.

Lemma restore_round_trip_witness :
  MerkleTree.new "test" (Some 2) [] = (Ok tree0, log0)
  /\ updateAll tree0 [(3, value)] log0 = (Ok tree1, log1)
  /\ exists t',
       MerkleTree.new "test" None log1 = (Ok t', Get (Buffer.from "test") :: log1)
       /\ MerkleTree.getRoot t' = MerkleTree.getRoot tree1
       /\ MerkleTree.depth t' = MerkleTree.depth tree1
       /\ (forall index,
             fst (MerkleTree.getHashPath t' index (Get (Buffer.from "test") :: log1))
             = fst (MerkleTree.getHashPath tree1 index log1))
       /\ ([(3, value)] <> [] ->
           exists m older,
             log1 = Put (Buffer.from "test") m :: older /\ List.length m = 40%nat
             /\ Buffer.slice m 0 32 = MerkleTree.getRoot tree1
             /\ Buffer.readUInt32LE m 32 = Some (MerkleTree.depth tree1)).
Proof.
  split; [exact scenario_new|]. split; [exact scenario_updateAll|].
  exact (restore_round_trip "test" (Some 2) [] log0 tree0 [(3, value)] tree1 log1
           scenario_new scenario_updateAll None).
Defined.

Lemma getHashPath_leaf_to_root_witness :
  fullyConstructed log0 tree0 = true
  /\ exists path,
       (exists gets, forallb is_get gets = true
          /\ MerkleTree.getHashPath tree0 3 log0 = (Ok {| data := path |}, gets ++ log0))
       /\ (exists gets, forallb is_get gets = true
          /\ MerkleTree2.getHashPath tree0 3 log0 = (Ok {| data := path |}, gets ++ log0))
       /\ List.length path = 2%nat
       /\ forall k, (k < 2)%nat ->
            exists d v,
              node_at log0 3 2 (MerkleTree.root tree0) k = Some d
              /\ lookup_key d log0 = Some v
              /\ nth_error path (2 - 1 - k) = Some (lo v, hi v).
Proof.
  split; [exact scenario_constructed|].
  exact (getHashPath_leaf_to_root log0 tree0 3 scenario_constructed).
Defined.

Lemma store_content_addressed_witness :
  (List.length (Buffer.from "test") <> 32%nat
   /\ lookup_key (Buffer.from "test") [] = None
   /\ MerkleTree.new "test" (Some 2) [] = (Ok tree0, log0)
   /\ keeps_addressing "test" [] log0)
  /\ (fullyConstructed log0 tree0 = true
      /\ MerkleTree.updateElement tree0 3 value log0 = (Ok tree1, log1)
      /\ keeps_addressing (MerkleTree.name tree0) log0 log1).
Proof.
  assert (H2 : lookup_key (Buffer.from "test") [] = None) by reflexivity.
  split.
  - split; [exact scenario_name|]. split; [exact H2|]. split; [exact scenario_new|].
    exact (proj1 store_content_addressed "test"%string (Some 2) [] log0 tree0
             scenario_name H2 scenario_new).
  - split; [exact scenario_constructed|]. split; [exact scenario_update|].
    exact (proj2 store_content_addressed log0 log1 tree0 tree1 3 value
             scenario_name scenario_constructed scenario_update).
Defined.

Lemma update_keeps_pairs_below_fork_witness :
  fullyConstructed log0 tree0 = true
  /\ List.length (Buffer.from (MerkleTree.name tree0)) <> 32%nat
  /\ MerkleTree.updateElement tree0 3 value log0 = (Ok tree1, log1)
  /\ collision_free (MerkleTree.name tree0) log1 = true
  /\ 0 <= 1 < MerkleTree.depth tree0
  /\ Z.testbit 3 1 <> Z.testbit 0 1
  /\ (forall q, 1 < q < MerkleTree.depth tree0 -> Z.testbit 3 q = Z.testbit 0 q)
  /\ exists before after after_i,
       fst (MerkleTree.getHashPath tree0 0 log0) = Ok before
       /\ fst (MerkleTree.getHashPath tree1 0 log1) = Ok after
       /\ fst (MerkleTree.getHashPath tree1 3 log1) = Ok after_i
       /\ List.length (data after) = Z.to_nat (MerkleTree.depth tree0)
       /\ firstn (Z.to_nat 1) (data after) = firstn (Z.to_nat 1) (data before)
       /\ skipn (Z.to_nat 1) (data after) = skipn (Z.to_nat 1) (data after_i).
Proof.
  assert (H5 : 0 <= 1 < MerkleTree.depth tree0) by (simpl; lia).
  assert (H6 : Z.testbit 3 1 <> Z.testbit 0 1) by (vm_compute; discriminate).
  assert (H7 : forall q, 1 < q < MerkleTree.depth tree0 -> Z.testbit 3 q = Z.testbit 0 q)
    by (simpl; intros q Hq; lia).
  split; [exact scenario_constructed|]. split; [exact scenario_name|].
  split; [exact scenario_update|]. split; [exact scenario_collision_free|].
  split; [exact H5|]. split; [exact H6|]. split; [exact H7|].
  exact (update_keeps_pairs_below_fork log0 log1 tree0 tree1 3 0 value 1
           scenario_constructed scenario_name scenario_update scenario_collision_free
           H5 H6 H7).
Defined.

Lemma new_restores_from_metadata_witness :
  lookup_key (Buffer.from "test") log1 = Some meta1
  /\ MerkleTree.new "test" (Some 7) log1 = MerkleTree.new "test" None log1
  /\ snd (MerkleTree.new "test" (Some 7) log1) = Get (Buffer.from "test") :: log1
  /\ (List.length meta1 = 40%nat -> Buffer.readUInt32LE meta1 32 = Some 2 ->
      1 <= 2 <= 32 ->
      MerkleTree.new "test" (Some 7) log1
      = (Ok {| MerkleTree.name := "test"; MerkleTree.depth := 2;
               MerkleTree.root := Buffer.slice meta1 0 32 |},
         Get (Buffer.from "test") :: log1)
      /\ MerkleTree2.new "test" (Some 7) log1
         = (Ok {| MerkleTree.name := "test"; MerkleTree.depth := 2;
                  MerkleTree.root := Buffer.slice meta1 0 32 |},
            Get (Buffer.from "test") :: log1)).
Proof.
  pose proof (new_restores_from_metadata "test" log1 meta1 scenario_meta (Some 7) None)
    as (E1 & _ & E3 & _ & E5).
  split; [exact scenario_meta|]. split; [exact E1|]. split; [exact E3|]. exact (E5 2).
Defined.

Lemma updateElement_any_length_witness :
  fullyConstructed log0 tree0 = true
  /\ MerkleTree.name tree0 <> ""%string
  /\ exists this' l' es,
       MerkleTree.updateElement tree0 3 [x07; x07; x07; x07; x07] log0 = (Ok this', l')
       /\ update_from copied log0 3 (hash [x07; x07; x07; x07; x07])
            (MerkleTree.root tree0) (Z.to_nat (MerkleTree.depth tree0))
          = Ok (MerkleTree.getRoot this', es).
Proof.
  split; [exact scenario_constructed|]. split; [exact scenario_named|].
  exact (proj1 (updateElement_any_length log0 tree0 3 [x07; x07; x07; x07; x07]
                  scenario_constructed scenario_named)).
Defined.

End ScenarioFacts.

(* ===================================================================== *)
(** ** Further properties: the requests made to the store *)
(* ===================================================================== *)

Lemma reads_ext (l1 l2 : log) (index : Z) :
  (forall k, lookup_key k l1 = lookup_key k l2) ->
  forall n cur, reads l1 index cur n = reads l2 index cur n.
Proof.
  intros Hl. induction n as [|n IH]; intros cur; simpl; auto.
  rewrite Hl. destruct (lookup_key cur l2); auto. rewrite IH. reflexivity.
Qed.

Lemma reads_S (l : log) (index : Z) (cur : Buffer) (m : nat) :
  reads l index cur (S m)
  = match lookup_key cur l with
    | None => [Get cur]
    | Some v => reads l index (if goesRight index m then hi v else lo v) m ++ [Get cur]
    end.
Proof. reflexivity. Qed.

Lemma reads_are_gets (l : log) (index : Z) :
  forall n cur, forallb is_get (reads l index cur n) = true
                /\ (List.length (reads l index cur n) <= n)%nat.
Proof.
  induction n as [|n IH]; intros cur; [split; [reflexivity | simpl; lia]|].
  rewrite reads_S. destruct (lookup_key cur l) as [v|]; [|split; [reflexivity | simpl; lia]].
  destruct (IH (if goesRight index n then hi v else lo v)) as [Hg Hlen].
  split; [apply forallb_is_get_app; auto|].
  rewrite length_app. simpl. lia.
Qed.

Section Requests.
Context `{HH : Hasher}.

Lemma getHashPathRecursively_requests (this : MerkleTree.t) (index : Z) :
  forall n cur k l,
    Z.of_nat (S n) = MerkleTree.depth this - k ->
    MerkleTree.getHashPathRecursively this index (S n) cur k l
    = (path_from l index cur (S n), reads l index cur (S n) ++ l).
Proof.
  induction n as [|n IH]; intros cur k l Hk;
    rewrite getHashPathRecursively_S, path_from_S, reads_S;
    unfold bind at 1; unfold LevelUp.get;
    destruct (lookup_key cur l) as [v|]; try reflexivity.
  - replace (MerkleTree.depth this =? k + 1) with true
      by (symmetry; apply Z.eqb_eq; lia).
    reflexivity.
  - replace (MerkleTree.depth this =? k + 1) with false
      by (symmetry; apply Z.eqb_neq; lia).
    replace (MerkleTree.depth this - k - 1) with (Z.of_nat (S n)) by lia.
    fold (goesRight index (S n)).
    unfold bind. rewrite IH by lia.
    rewrite (path_from_ext (Get cur :: l) l) by reflexivity.
    rewrite (reads_ext (Get cur :: l) l) by reflexivity.
    rewrite <- app_assoc. simpl app.
    destruct (path_from l index _ (S n)); reflexivity.
Qed.

Lemma getHashPathRecursive_requests (this : MerkleTree.t) (index : Z) :
  forall n cur k acc l,
    Z.of_nat n = MerkleTree.depth this - k ->
    MerkleTree2.getHashPathRecursive this index n cur k acc l
    = (match path_from l index cur n with
       | Ok p => Ok (acc ++ p)
       | Err e => Err e
       end, reads l index cur n ++ l).
Proof.
  induction n as [|n IH]; intros cur k acc l Hk.
  - simpl. unfold MerkleTree2.isLeaf.
    replace (MerkleTree.depth this =? k) with true
      by (symmetry; apply Z.eqb_eq; lia).
    rewrite app_nil_r. reflexivity.
  - rewrite getHashPathRecursive_S, path_from_S, reads_S. unfold MerkleTree2.isLeaf.
    replace (MerkleTree.depth this =? k) with false
      by (symmetry; apply Z.eqb_neq; lia).
    unfold bind at 1. unfold LevelUp.get.
    destruct (lookup_key cur l) as [v|]; [|reflexivity].
    replace (MerkleTree.depth this - k - 1) with (Z.of_nat n) by lia.
    fold (goesRight index n).
    unfold bind, ret. rewrite IH by lia.
    rewrite (path_from_ext (Get cur :: l) l) by reflexivity.
    rewrite (reads_ext (Get cur :: l) l) by reflexivity.
    rewrite <- !app_assoc. simpl app.
    destruct (path_from l index _ n) as [p|e]; [|reflexivity].
    rewrite app_assoc. reflexivity.
Qed.

Lemma updateRecursively_requests (this : MerkleTree.t) (index : Z) (value : Buffer) :
  forall n cur k l,
    Z.of_nat n = MerkleTree.depth this - k ->
    MerkleTree.updateRecursively this index value n cur k l
    = match update_from copied l index (hash value) cur n with
      | Ok (d, es) => (Ok d, served (map put_event es) ++ reads l index cur n ++ l)
      | Err e => (Err e, reads l index cur n ++ l)
      end.
Proof.
  induction n as [|n IH]; intros cur k l Hk.
  - simpl.
    replace (MerkleTree.depth this =? k) with true
      by (symmetry; apply Z.eqb_eq; lia).
    reflexivity.
  - rewrite updateRecursively_S, update_from_S, reads_S.
    replace (MerkleTree.depth this =? k) with false
      by (symmetry; apply Z.eqb_neq; lia).
    unfold bind at 1. unfold LevelUp.get.
    destruct (lookup_key cur l) as [v|]; [|reflexivity].
    replace (MerkleTree.depth this - k - 1) with (Z.of_nat n) by lia.
    fold (goesRight index n).
    pose proof (IH (if goesRight index n then hi v else lo v)
                  (k + 1) (Get cur :: l) ltac:(lia)) as E.
    rewrite (update_from_ext copied (Get cur :: l) l) in E by reflexivity.
    rewrite (reads_ext (Get cur :: l) l) in E by reflexivity.
    rewrite <- !app_assoc. simpl app.
    destruct (goesRight index n); unfold bind, ret; rewrite E;
      destruct (update_from copied l index (hash value) _ n) as [[d es]|e];
      try reflexivity;
      rewrite detached_put; cbn [map put_event fst snd served app];
      case_key; reflexivity.
Qed.

Lemma updateRecursive_requests (this : MerkleTree.t) (index : Z) (value : Buffer) :
  forall n cur k l,
    Z.of_nat n = MerkleTree.depth this - k ->
    MerkleTree2.updateRecursive this index value n cur k l
    = match update_from concatenated l index (hash value) cur n with
      | Ok (d, es) => bind (puts es) (fun _ => ret d) (reads l index cur n ++ l)
      | Err e => (Err e, reads l index cur n ++ l)
      end.
Proof.
  induction n as [|n IH]; intros cur k l Hk.
  - simpl. unfold MerkleTree2.isLeaf.
    replace (MerkleTree.depth this =? k) with true
      by (symmetry; apply Z.eqb_eq; lia).
    reflexivity.
  - rewrite updateRecursive_S, update_from_S, reads_S. unfold MerkleTree2.isLeaf.
    replace (MerkleTree.depth this =? k) with false
      by (symmetry; apply Z.eqb_neq; lia).
    unfold bind at 1. unfold LevelUp.get.
    destruct (lookup_key cur l) as [v|]; [|reflexivity].
    replace (MerkleTree.depth this - k - 1) with (Z.of_nat n) by lia.
    fold (goesRight index n).
    pose proof (IH (if goesRight index n then hi v else lo v)
                  (k + 1) (Get cur :: l) ltac:(lia)) as E.
    rewrite (update_from_ext concatenated (Get cur :: l) l) in E by reflexivity.
    rewrite (reads_ext (Get cur :: l) l) in E by reflexivity.
    rewrite <- !app_assoc. simpl app.
    destruct (goesRight index n); unfold bind, ret; rewrite E;
      destruct (update_from concatenated l index (hash value) _ n) as [[d es]|e];
      try reflexivity;
      cbn [puts fst snd]; unfold bind, ret;
      match goal with
      | |- context [puts es ?l0] => destruct (puts es l0) as [[[]|x] l1]
      end; try reflexivity;
      destruct (LevelUp.put _ _ l1) as [[[]|x] l2]; reflexivity.
Qed.

Lemma getHashPath_requests (this : MerkleTree.t) (index : Z) (l : log) :
  1 <= MerkleTree.depth this ->
  MerkleTree.getHashPath this index l
  = (match path_from l index (MerkleTree.root this)
             (Z.to_nat (MerkleTree.depth this)) with
     | Ok p => Ok {| data := p |}
     | Err e => Err e
     end,
     reads l index (MerkleTree.root this) (Z.to_nat (MerkleTree.depth this)) ++ l).
Proof.
  intros Hd. unfold MerkleTree.getHashPath.
  destruct (Z.to_nat (MerkleTree.depth this)) as [|n] eqn:En; [lia|].
  unfold bind. rewrite getHashPathRecursively_requests by lia.
  destruct (path_from l index (MerkleTree.root this) (S n)); reflexivity.
Qed.

Lemma getHashPath2_requests (this : MerkleTree.t) (index : Z) (l : log) :
  0 <= MerkleTree.depth this ->
  MerkleTree2.getHashPath this index l
  = (match path_from l index (MerkleTree.root this)
             (Z.to_nat (MerkleTree.depth this)) with
     | Ok p => Ok {| data := p |}
     | Err e => Err e
     end,
     reads l index (MerkleTree.root this) (Z.to_nat (MerkleTree.depth this)) ++ l).
Proof.
  intros Hd. unfold MerkleTree2.getHashPath.
  unfold bind. rewrite getHashPathRecursive_requests by lia.
  destruct (path_from l index (MerkleTree.root this) _); reflexivity.
Qed.

Lemma updateElement_requests (this : MerkleTree.t) (index : Z) (value : Buffer) (l : log) :
  0 <= MerkleTree.depth this ->
  MerkleTree.updateElement this index value l
  = match update_from copied l index (hash value) (MerkleTree.root this)
            (Z.to_nat (MerkleTree.depth this)) with
    | Ok (d, es) =>
        bind (MerkleTree.writeMetaData (updated this d))
             (fun _ => ret (updated this d))
             (served (map put_event es)
                ++ reads l index (MerkleTree.root this) (Z.to_nat (MerkleTree.depth this))
                ++ l)
    | Err e =>
        (Err e,
         reads l index (MerkleTree.root this) (Z.to_nat (MerkleTree.depth this)) ++ l)
    end.
Proof.
  intros Hd. unfold MerkleTree.updateElement.
  unfold bind at 1. rewrite updateRecursively_requests by lia.
  destruct (update_from copied l index (hash value) _ _) as [[d es]|e]; reflexivity.
Qed.

Lemma updateElement2_requests (this : MerkleTree.t) (index : Z) (value : Buffer) (l : log) :
  0 <= MerkleTree.depth this ->
  MerkleTree2.updateElement this index value l
  = match update_from concatenated l index (hash value) (MerkleTree.root this)
            (Z.to_nat (MerkleTree.depth this)) with
    | Ok (d, es) =>
        bind (puts es)
             (fun _ => bind (MerkleTree.writeMetaData (updated2 this d))
                            (fun _ => ret (updated2 this d)))
             (reads l index (MerkleTree.root this) (Z.to_nat (MerkleTree.depth this))
                ++ l)
    | Err e =>
        (Err e,
         reads l index (MerkleTree.root this) (Z.to_nat (MerkleTree.depth this)) ++ l)
    end.
Proof.
  intros Hd. unfold MerkleTree2.updateElement.
  unfold bind at 1. rewrite updateRecursive_requests by lia.
  destruct (update_from concatenated l index (hash value) _ _) as [[d es]|e];
    [|reflexivity].
  fold (updated2 this d). unfold bind, ret.
  destruct (puts es _) as [[[]|x] l1]; reflexivity.
Qed.

(** X1.  For a tree of depth at least 1 the two renditions of
    [getHashPath] are the same computation: on every store and for every
    index they return the same path or throw the same error after the same
    requests. *)
Theorem getHashPath_renditions_agree (this : MerkleTree.t) (index : Z) (l : log) :
  1 <= MerkleTree.depth this ->
  MerkleTree2.getHashPath this index l = MerkleTree.getHashPath this index l.
Proof.
  intros Hd.
  rewrite getHashPath_requests, getHashPath2_requests by lia. reflexivity.
Qed.

End Requests.

Section Accounting.
Context `{HH : Hasher} `{!DigestLength HH}.

Lemma merkle_reads_length (l : log) (index : Z) :
  forall n cur, merkle l cur n = true -> List.length (reads l index cur n) = n.
Proof.
  induction n as [|n IH]; intros cur Hm; [reflexivity|].
  apply merkle_S_inv in Hm as (v & Hv & _ & Hl & Hr).
  rewrite reads_S, Hv, length_app, IH by (destruct (goesRight index n); assumption).
  simpl. lia.
Qed.

(** On a complete tree the stored value does not depend on how the two
    digests are joined. *)
Lemma update_from_joins mk1 mk2 (l : log) (index : Z) (leaf : Buffer) :
  joins mk1 -> joins mk2 -> List.length leaf = 32%nat ->
  forall n cur, merkle l cur n = true ->
    update_from mk1 l index leaf cur n = update_from mk2 l index leaf cur n.
Proof.
  intros H1 H2 Hleaf. induction n as [|n IH]; intros cur Hm; [reflexivity|].
  apply merkle_S_inv in Hm as (v & Hv & [Hlen Hk] & Hl & Hr).
  cbn [fst snd] in Hlen.
  pose proof (lo_length v Hlen) as Hlo. pose proof (hi_length v Hlen) as Hhi.
  rewrite !update_from_S, Hv.
  destruct (goesRight index n).
  - rewrite (IH _ Hr).
    destruct (merkle_update mk2 l index leaf H2 Hleaf n (hi v) Hr)
      as (d & es & E & _ & Hd & _).
    rewrite E, (H1 _ _ Hlo Hd), (H2 _ _ Hlo Hd). reflexivity.
  - rewrite (IH _ Hl).
    destruct (merkle_update mk2 l index leaf H2 Hleaf n (lo v) Hl)
      as (d & es & E & _ & Hd & _).
    rewrite E, (H1 _ _ Hd Hhi), (H2 _ _ Hd Hhi). reflexivity.
Qed.

(** X2.  On a fully constructed tree the two renditions of
    [updateElement] are the same computation: same tree returned, same
    requests to the store, in the same order.  (Filling a 64-byte buffer by
    two copies and concatenating give the same value for 32-byte
    digests.) *)
Theorem updateElement_renditions_agree (l : log) (this : MerkleTree.t) (index : Z)
    (value : Buffer) :
  fullyConstructed l this = true ->
  MerkleTree2.updateElement this index value l
  = MerkleTree.updateElement this index value l.
Proof.
  intros Hfc. pose proof (fullyConstructed_root_length _ _ Hfc) as Hroot.
  apply fullyConstructed_inv in Hfc as [Hd Hm].
  rewrite updateElement_requests, updateElement2_requests by lia.
  rewrite (update_from_joins concatenated copied l index (hash value)
             concatenated_joins copied_joins (hash_length value) _ _ Hm).
  destruct (merkle_update copied l index (hash value) copied_joins (hash_length value)
              _ _ Hm) as (d & es & E & _ & Hlen & Hadd).
  rewrite E.
  replace (updated this d) with (updated2 this d)
    by (unfold updated, updated2; rewrite copy_full by congruence; reflexivity).
  unfold bind at 1. rewrite (puts_addressed es _ Hadd), (served_addressed es Hadd).
  reflexivity.
Qed.

(** X3.  The requests of the two operations on a fully constructed tree
    whose name is not empty.  [getHashPath] makes exactly [depth] requests,
    all of them [get]s.  [updateElement] makes exactly [depth] [get]s, then
    [depth] [put]s of content-addressed node entries, then one [put] of the
    40-byte metadata record under the name: all reads come before the
    first write. *)
Theorem requests_per_operation (l : log) (this : MerkleTree.t) (index : Z)
    (value : Buffer) :
  fullyConstructed l this = true ->
  MerkleTree.name this <> ""%string ->
  let n := Z.to_nat (MerkleTree.depth this) in
  (exists gets,
     forallb is_get gets = true /\ List.length gets = n
     /\ snd (MerkleTree.getHashPath this index l) = gets ++ l)
  /\ (exists gets es m this',
        forallb is_get gets = true /\ List.length gets = n
        /\ List.length es = n /\ Forall addressed es
        /\ List.length m = 40%nat
        /\ MerkleTree.updateElement this index value l
           = (Ok this',
              Put (Buffer.from (MerkleTree.name this)) m
                :: map put_event es ++ gets ++ l)).
Proof.
  intros Hfc Hnamed n. pose proof (fullyConstructed_root_length _ _ Hfc) as Hroot.
  apply fullyConstructed_inv in Hfc as [Hd Hm]. fold n in Hm.
  destruct (reads_are_gets l index n (MerkleTree.root this)) as [Hg _].
  pose proof (merkle_reads_length l index n _ Hm) as Hlen.
  split.
  - exists (reads l index (MerkleTree.root this) n).
    rewrite getHashPath_requests by lia. auto.
  - destruct (merkle_update copied l index (hash value) copied_joins (hash_length value)
                _ _ Hm) as (d & es & E & Hes & Hdl & Hadd).
    rewrite updateElement_requests by lia. fold n. rewrite E.
    replace (updated this d) with (updated2 this d)
      by (unfold updated, updated2; rewrite copy_full by congruence; reflexivity).
    destruct (metadata_Some (updated2 this d)) as [m Hmeta]; [simpl; lia|].
    unfold bind. rewrite (writeMetaData_named (updated2 this d) m) by assumption.
    rewrite (served_addressed es Hadd).
    destruct (metadata_restorable (updated2 this d) m [] ltac:(simpl; lia) Hdl Hmeta)
      as [Hm40 _].
    exists (reads l index (MerkleTree.root this) n), es, m, (updated2 this d).
    auto 10.
Qed.

End Accounting.

Section Failing.
Context `{HH : Hasher}.

Lemma update_from_error mk (l : log) (index : Z) (leaf : Buffer) :
  forall n cur e,
    update_from mk l index leaf cur n = Err e ->
    exists k, e = NotFound k /\ lookup_key k l = None.
Proof.
  induction n as [|n IH]; intros cur e E; [discriminate|].
  rewrite update_from_S in E.
  destruct (lookup_key cur l) as [v|] eqn:Hv.
  - destruct (update_from mk l index leaf _ n) as [[d es]|e'] eqn:E'; [discriminate|].
    injection E as <-. apply (IH _ _ E').
  - injection E as <-. eauto.
Qed.

Lemma path_from_error (l : log) (index : Z) :
  forall n cur e,
    path_from l index cur n = Err e ->
    exists k, e = NotFound k /\ lookup_key k l = None.
Proof.
  induction n as [|n IH]; intros cur e E; [discriminate|].
  rewrite path_from_S in E.
  destruct (lookup_key cur l) as [v|] eqn:Hv.
  - destruct (path_from l index _ n) as [p|e'] eqn:E'; [discriminate|].
    injection E as <-. apply (IH _ _ E').
  - injection E as <-. eauto.
Qed.

(** X4.  An update that fails on a missing key writes nothing.  For a
    tree of legal depth, on any store and in both renditions: when
    [updateElement] throws the absence of a key, that key is one the store
    does not hold, the requests made are [get]s only, and every key is
    bound after the call as before it.  (The [put]s are all made on the way
    back up, after the last [get]; a [put] the store refuses is another
    failure, and comes after the node entries below it are written.) *)
Theorem update_missing_a_key_writes_nothing (l l' : log) (this : MerkleTree.t)
    (index : Z) (value : Buffer) (k : Buffer) :
  1 <= MerkleTree.depth this <= 32 ->
  MerkleTree.updateElement this index value l = (Err (NotFound k), l')
  \/ MerkleTree2.updateElement this index value l = (Err (NotFound k), l') ->
  lookup_key k l = None
  /\ (exists gets, forallb is_get gets = true /\ l' = gets ++ l)
  /\ forall k', lookup_key k' l' = lookup_key k' l.
Proof.
  intros Hd E.
  destruct (reads_are_gets l index (Z.to_nat (MerkleTree.depth this))
              (MerkleTree.root this)) as [Hg _].
  assert (Hcase : lookup_key k l = None
                  /\ l' = reads l index (MerkleTree.root this)
                            (Z.to_nat (MerkleTree.depth this)) ++ l).
  { destruct E as [E|E].
    - rewrite updateElement_requests in E by lia.
      destruct (update_from copied l index (hash value) _ _) as [[d es]|e0] eqn:Eu.
      + exfalso. unfold bind in E. rewrite writeMetaData_spec in E.
        destruct (metadata (updated this d)); [|discriminate].
        destruct (decide (Buffer.from (MerkleTree.name (updated this d)) = []));
          discriminate.
      + injection E as -> <-. split; [|reflexivity].
        destruct (update_from_error _ _ _ _ _ _ _ Eu) as (k0 & Ek & Hk).
        injection Ek as ->. exact Hk.
    - rewrite updateElement2_requests in E by lia.
      destruct (update_from concatenated l index (hash value) _ _) as [[d es]|e0] eqn:Eu.
      + exfalso. unfold bind in E.
        pose proof (puts_throws es
                      (reads l index (MerkleTree.root this)
                         (Z.to_nat (MerkleTree.depth this)) ++ l)) as Hp.
        destruct (puts es _) as [[[]|x] l1]; simpl in Hp.
        * rewrite writeMetaData_spec in E.
          destruct (metadata (updated2 this d)); [|discriminate].
          destruct (decide (Buffer.from (MerkleTree.name (updated2 this d)) = []));
            discriminate.
        * destruct Hp as [Hp|Hp]; [discriminate|].
          injection Hp as ->. discriminate.
      + injection E as -> <-. split; [|reflexivity].
        destruct (update_from_error _ _ _ _ _ _ _ Eu) as (k0 & Ek & Hk).
        injection Ek as ->. exact Hk. }
  destruct Hcase as [Hk ->]. split; [exact Hk|]. split; [eauto|].
  intros k'. apply lookup_key_gets. exact Hg.
Qed.

(** X5.  A tree whose root the store does not hold.  For a tree of legal
    depth, in both renditions, [getHashPath] and [updateElement] throw the
    absence of the root after a single [get] of it, whatever the index and
    the value. *)
Theorem missing_root_is_reported (l : log) (this : MerkleTree.t) (index : Z)
    (value : Buffer) :
  1 <= MerkleTree.depth this <= 32 ->
  lookup_key (MerkleTree.root this) l = None ->
  let failure {A} : result A * log :=
    (Err (NotFound (MerkleTree.root this)), Get (MerkleTree.root this) :: l) in
  MerkleTree.getHashPath this index l = failure
  /\ MerkleTree2.getHashPath this index l = failure
  /\ MerkleTree.updateElement this index value l = failure
  /\ MerkleTree2.updateElement this index value l = failure.
Proof.
  intros Hd Hroot failure. unfold failure.
  rewrite getHashPath_requests, getHashPath2_requests,
    updateElement_requests, updateElement2_requests by lia.
  destruct (Z.to_nat (MerkleTree.depth this)) as [|n] eqn:En; [lia|].
  rewrite path_from_S, !update_from_S, reads_S, Hroot. auto.
Qed.

End Failing.

(* ===================================================================== *)
(** ** Further properties: indices, proofs and repeated updates *)
(* ===================================================================== *)

Section Indices.
Context `{HH : Hasher}.

Lemma path_from_bits (l : log) (i j : Z) :
  forall n cur,
    (forall m, (m < n)%nat -> goesRight i m = goesRight j m) ->
    path_from l i cur n = path_from l j cur n.
Proof.
  induction n as [|n IH]; intros cur Hb; [reflexivity|].
  rewrite !path_from_S, (Hb n) by lia.
  destruct (lookup_key cur l) as [v|]; [|reflexivity].
  rewrite IH by (intros m Hm; apply Hb; lia). reflexivity.
Qed.

Lemma update_from_bits mk (l : log) (i j : Z) (leaf : Buffer) :
  forall n cur,
    (forall m, (m < n)%nat -> goesRight i m = goesRight j m) ->
    update_from mk l i leaf cur n = update_from mk l j leaf cur n.
Proof.
  induction n as [|n IH]; intros cur Hb; [reflexivity|].
  rewrite !update_from_S, (Hb n) by lia.
  destruct (lookup_key cur l) as [v|]; [|reflexivity].
  rewrite IH by (intros m Hm; apply Hb; lia). reflexivity.
Qed.

Lemma reads_bits (l : log) (i j : Z) :
  forall n cur,
    (forall m, (m < n)%nat -> goesRight i m = goesRight j m) ->
    reads l i cur n = reads l j cur n.
Proof.
  induction n as [|n IH]; intros cur Hb; [reflexivity|].
  rewrite !reads_S, (Hb n) by lia.
  destruct (lookup_key cur l) as [v|]; [|reflexivity].
  rewrite IH by (intros m Hm; apply Hb; lia). reflexivity.
Qed.

Lemma goesRight_mod (index : Z) (n m : nat) :
  (m < n)%nat -> (n <= 32)%nat ->
  goesRight (index mod 2 ^ Z.of_nat n) m = goesRight index m.
Proof.
  intros Hm Hn. unfold goesRight.
  rewrite !shouldGoRight_testbit by lia.
  apply Z.mod_pow2_bits_low. lia.
Qed.

(** X6.  No bounds check on the index: only its [depth] low bits are
    looked at.  For a tree of legal depth, on any store and in both
    renditions, [getHashPath] and [updateElement] called with any integer
    index (negative, or [2^depth] and above) do exactly what they do with
    [index mod 2^depth]: an out-of-range index reads or overwrites an
    in-range leaf. *)
Theorem index_taken_modulo_leaf_count (l : log) (this : MerkleTree.t) (index : Z)
    (value : Buffer) :
  1 <= MerkleTree.depth this <= 32 ->
  let index' := index mod 2 ^ MerkleTree.depth this in
  MerkleTree.getHashPath this index l = MerkleTree.getHashPath this index' l
  /\ MerkleTree2.getHashPath this index l = MerkleTree2.getHashPath this index' l
  /\ MerkleTree.updateElement this index value l
     = MerkleTree.updateElement this index' value l
  /\ MerkleTree2.updateElement this index value l
     = MerkleTree2.updateElement this index' value l.
Proof.
  intros Hd index'.
  assert (Hb : forall m, (m < Z.to_nat (MerkleTree.depth this))%nat ->
                 goesRight index m = goesRight index' m).
  { intros m Hm. unfold index'.
    rewrite <- (Z2Nat.id (MerkleTree.depth this)) at 1 by lia.
    symmetry. apply goesRight_mod; lia. }
  rewrite !getHashPath_requests, !getHashPath2_requests,
    !updateElement_requests, !updateElement2_requests by lia.
  rewrite (path_from_bits l index index' _ _ Hb), (reads_bits l index index' _ _ Hb),
    (update_from_bits copied l index index' _ _ _ Hb),
    (update_from_bits concatenated l index index' _ _ _ Hb).
  auto.
Qed.

(** X7.  The routing expression of the source,
    [(index >> (this.depth - depth - 1)) & 1], is bit
    [this.depth - depth - 1] of the index for every level of a tree of legal
    depth and every integer index, also where the 32-bit conversion of [>>]
    makes the index negative (indices from [2^31] in a tree of depth 32). *)
Theorem routing_bit (this_depth depth index : Z) :
  1 <= this_depth <= 32 -> 0 <= depth < this_depth ->
  truthy (js_and (js_shr index (this_depth - depth - 1)) 1)
  = Z.testbit index (this_depth - depth - 1).
Proof. intros Hd Hk. apply shouldGoRight_testbit. lia. Qed.

Lemma leaf_digest_S (l : log) (index : Z) (cur : Buffer) (m : nat) :
  leaf_digest l index cur (S m)
  = match lookup_key cur l with
    | None => None
    | Some v => leaf_digest l index (if goesRight index m then hi v else lo v) m
    end.
Proof. reflexivity. Qed.

(** On a complete tree the path to a leaf checks against the digest the
    store holds for that leaf. *)
Lemma merkle_proof (l : log) (index : Z) :
  forall n cur,
    merkle l cur n = true ->
    (forall m, (m < n)%nat -> goesRight index m = Z.testbit index (Z.of_nat m)) ->
    exists leaf p,
      leaf_digest l index cur n = Some leaf
      /\ path_from l index cur n = Ok p /\ List.length p = n
      /\ recompute p index 0 leaf = Some cur.
Proof.
  induction n as [|n IH]; intros cur Hm Hb.
  - exists cur, []. repeat split.
  - apply merkle_S_inv in Hm as (v & Hv & [Hlen Hk] & Hl & Hr).
    cbn [fst snd] in Hk.
    pose proof (Hb n ltac:(lia)) as Hbn.
    destruct (IH (if goesRight index n then hi v else lo v)) as (leaf & p & E1 & E2 & E3 & E4).
    { destruct (goesRight index n); assumption. }
    { intros m Hlt. apply Hb. lia. }
    exists leaf, (p ++ [(lo v, hi v)]).
    rewrite leaf_digest_S, path_from_S, Hv, E1, E2.
    split; [reflexivity|]. split; [reflexivity|].
    split; [rewrite length_app, E3; simpl; lia|].
    rewrite recompute_app, E4. simpl. rewrite E3, <- Hbn.
    rewrite decide_True by reflexivity. rewrite <- Hk. reflexivity.
Qed.

(** X8.  Every path is a proof.  On a fully constructed tree, for every
    index, the path [getHashPath] returns checks against the digest the
    store holds for that leaf: the verifier's computation started from it
    succeeds at every pair and ends in [getRoot ()]. *)
Theorem path_proves_stored_leaf (l : log) (this : MerkleTree.t) (index : Z) :
  fullyConstructed l this = true ->
  exists leaf path,
    leaf_digest l index (MerkleTree.root this) (Z.to_nat (MerkleTree.depth this))
    = Some leaf
    /\ fst (MerkleTree.getHashPath this index l) = Ok path
    /\ recompute (data path) index 0 leaf = Some (MerkleTree.getRoot this).
Proof.
  intros Hfc. unfold fullyConstructed in Hfc.
  apply andb_prop in Hfc as [Hd Hm]. apply andb_prop in Hd as [Hd1 Hd2].
  apply Z.leb_le in Hd1, Hd2. unfold MAX_DEPTH in Hd2.
  destruct (merkle_proof l index _ _ Hm) as (leaf & p & E1 & E2 & _ & E4).
  { intros m Hlt. unfold goesRight. apply shouldGoRight_testbit. lia. }
  exists leaf, {| data := p |}.
  rewrite getHashPath_requests by lia. rewrite E2. auto.
Qed.

End Indices.

Section Repeating.
Context `{HH : Hasher} `{!DigestLength HH}.

(** Writing a leaf digest that is already there gives back the digest of
    the node. *)
Lemma update_same mk (l : log) (index : Z) :
  forall n cur x d es,
    merkle l cur n = true ->
    leaf_digest l index cur n = Some x ->
    update_from mk l index x cur n = Ok (d, es) ->
    d = cur.
Proof.
  induction n as [|n IH]; intros cur x d es Hm Hx E.
  - injection Hx as <-. injection E as <- _. reflexivity.
  - apply merkle_S_inv in Hm as (v & Hv & [Hlen Hk] & Hl & Hr).
    cbn [fst snd] in Hk.
    rewrite leaf_digest_S, Hv in Hx. rewrite update_from_S, Hv in E.
    destruct (update_from mk l index x _ n) as [[d0 es0]|] eqn:E0; [|discriminate].
    assert (Hd0 : d0 = (if goesRight index n then hi v else lo v)).
    { apply (IH _ x d0 es0); auto. destruct (goesRight index n); assumption. }
    injection E as <- _. rewrite Hk.
    destruct (goesRight index n); rewrite Hd0; reflexivity.
Qed.

(** X9.  Writing what is already there keeps the root.  On a fully
    constructed tree whose name is not empty, [updateElement (index, value)]
    with a value whose hash is the digest the store holds for that leaf
    succeeds and leaves [getRoot ()] as it was. *)
Theorem update_to_current_value_keeps_root (l : log) (this : MerkleTree.t) (index : Z)
    (value : Buffer) :
  fullyConstructed l this = true ->
  MerkleTree.name this <> ""%string ->
  leaf_digest l index (MerkleTree.root this) (Z.to_nat (MerkleTree.depth this))
  = Some (hash value) ->
  exists this' l',
    MerkleTree.updateElement this index value l = (Ok this', l')
    /\ MerkleTree.getRoot this' = MerkleTree.getRoot this.
Proof.
  intros Hfc Hnamed Hleaf.
  destruct (updateElement_on_tree l this index value Hfc Hnamed)
    as (d & es & gets & m & Hg & E & Hd & Hn & Hes & Hmeta & Eu).
  apply fullyConstructed_inv in Hfc as [_ Hm].
  eexists (updated2 this d), _. split; [exact Eu|].
  simpl. apply (update_same copied l index _ _ _ d es Hm Hleaf E).
Qed.

(** A second update of the same leaf computes what it would have computed
    without the first. *)
Lemma update_twice mk (l l' : log) (index : Z) (x1 x2 : Buffer) :
  joins mk -> List.length x1 = 32%nat ->
  forall n cur d1 es1,
    merkle l cur n = true ->
    update_from mk l index x1 cur n = Ok (d1, es1) ->
    holds l' es1 ->
    update_from mk l' index x2 d1 n = update_from mk l index x2 cur n.
Proof.
  intros Hmk Hx1. induction n as [|n IH]; intros cur d1 es1 Hm E Hh; [reflexivity|].
  apply merkle_S_inv in Hm as (v & Hv & [Hlen Hk] & Hl & Hr).
  cbn [fst snd] in Hlen.
  pose proof (lo_length v Hlen) as Hlo. pose proof (hi_length v Hlen) as Hhi.
  rewrite update_from_S, Hv in E. rewrite !update_from_S, Hv.
  destruct (goesRight index n) eqn:B.
  - destruct (merkle_update mk l index x1 Hmk Hx1 n (hi v) Hr)
      as (d0 & es0 & E0 & _ & Hd0 & _).
    rewrite E0 in E. injection E as <- <-.
    pose proof (Hh _ (or_introl eq_refl)) as Hroot. cbn [fst snd] in Hroot.
    rewrite (Hmk _ _ Hlo Hd0) in Hroot.
    rewrite Hroot, lo_app, hi_app by assumption.
    rewrite (IH (hi v) d0 es0 Hr E0) by (intros e He; apply Hh; right; exact He).
    reflexivity.
  - destruct (merkle_update mk l index x1 Hmk Hx1 n (lo v) Hl)
      as (d0 & es0 & E0 & _ & Hd0 & _).
    rewrite E0 in E. injection E as <- <-.
    pose proof (Hh _ (or_introl eq_refl)) as Hroot. cbn [fst snd] in Hroot.
    rewrite (Hmk _ _ Hd0 Hhi) in Hroot.
    rewrite Hroot, lo_app, hi_app by assumption.
    rewrite (IH (lo v) d0 es0 Hl E0) by (intros e He; apply Hh; right; exact He).
    reflexivity.
Qed.

(** X10.  The last update of a leaf wins.  On a fully constructed tree,
    after [updateElement (index, value1)] a further
    [updateElement (index, value2)] succeeds and leaves the very tree
    (name, depth, root) that [updateElement (index, value2)] alone leaves.
    Stated for a store in which [compress] has produced no collision among
    the node values written, and a tree name that is not 32 bytes long. *)
Theorem second_update_overrides_first (l l1 : log) (this this1 : MerkleTree.t)
    (index : Z) (value1 value2 : Buffer) :
  fullyConstructed l this = true ->
  List.length (Buffer.from (MerkleTree.name this)) <> 32%nat ->
  MerkleTree.updateElement this index value1 l = (Ok this1, l1) ->
  collision_free (MerkleTree.name this) l1 = true ->
  exists this2 l2 l2',
    MerkleTree.updateElement this1 index value2 l1 = (Ok this2, l2)
    /\ MerkleTree.updateElement this index value2 l = (Ok this2, l2').
Proof.
  intros Hfc Hname Eu Hcf.
  destruct (updateElement_succeeded l _ this _ index value1 Hfc Eu)
    as (d1 & es1 & gets1 & m1 & Hg1 & E1 & Hd1 & Hn1 & Hes1 & Hmeta1 & Hnamed & -> & ->).
  destruct (update_binding _ m1 es1 gets1 l Hname Hes1 Hg1 Hcf) as [Hh _].
  destruct (updateElement_on_tree l this index value2 Hfc Hnamed)
    as (d2 & es2 & gets2 & m2 & Hg2 & E2 & Hd2 & Hn2 & Hes2 & Hmeta2 & Eu2).
  pose proof Hfc as Hfc'. apply fullyConstructed_inv in Hfc' as [Hdep Hm].
  pose proof (update_twice copied l _ index (hash value1) (hash value2) copied_joins
                (hash_length value1) _ _ d1 es1 Hm E1 Hh) as Etw.
  rewrite E2 in Etw.
  eexists (updated2 this d2), _, _. split; [|exact Eu2].
  rewrite updateElement_requests by (simpl; lia).
  simpl MerkleTree.root. simpl MerkleTree.depth. simpl MerkleTree.name.
  rewrite Etw.
  replace (updated (updated2 this d1) d2) with (updated2 this d2)
    by (unfold updated, updated2; simpl; rewrite copy_full by congruence; reflexivity).
  unfold bind.
  rewrite (writeMetaData_named (updated2 this d2) m2 _ Hnamed Hmeta2). reflexivity.
Qed.

End Repeating.

(* ===================================================================== *)
(** ** Further properties: records, construction and order of updates *)
(* ===================================================================== *)

Section Records.
Context `{HH : Hasher}.

(** X11.  A record that cannot be decoded stops [new].  When the store
    has a record under the name, in both renditions and whatever depth the
    caller passes: a record shorter than 36 bytes makes [new] throw the
    range error of [readUInt32LE], and a record whose bytes 32 to 35 hold a
    depth outside [1, 32] makes it throw the bad-depth error.  In both cases
    the only request made is the [get] of the record: [new] does not fall
    back to a fresh construction. *)
Theorem new_rejects_undecodable_record (name : string) (l : log) (meta : Buffer)
    (depthArg : option Z) :
  lookup_key (Buffer.from name) l = Some meta ->
  ((List.length meta < 36)%nat ->
     MerkleTree.new name depthArg l = (Err RangeError, Get (Buffer.from name) :: l)
     /\ MerkleTree2.new name depthArg l = (Err RangeError, Get (Buffer.from name) :: l))
  /\ (forall d, Buffer.readUInt32LE meta 32 = Some d -> ~ (1 <= d <= 32) ->
        MerkleTree.new name depthArg l = (Err BadDepth, Get (Buffer.from name) :: l)
        /\ MerkleTree2.new name depthArg l = (Err BadDepth, Get (Buffer.from name) :: l)).
Proof.
  intros Hl. split.
  - intros Hlen.
    assert (Hread : Buffer.readUInt32LE meta 32 = None).
    { unfold Buffer.readUInt32LE.
      destruct (Nat.leb_spec (32 + 4) (List.length meta)); [lia | reflexivity]. }
    unfold MerkleTree.new, MerkleTree2.new, bind, LevelUp.get_or_undefined.
    rewrite Hl, Hread. split; reflexivity.
  - intros d Hread Hd.
    unfold MerkleTree.new, MerkleTree2.new, bind, LevelUp.get_or_undefined.
    rewrite Hl, Hread. unfold MerkleTree.constructor, MerkleTree2.constructor.
    destruct (negb ((1 <=? d) && (d <=? MAX_DEPTH))) eqn:Hc; [split; reflexivity|].
    apply depth_check in Hc. contradiction.
Qed.

(** X12.  The record written by the constructor of the second rendition.
    Called without a root and with a name that is not empty, that
    constructor calls [writeMetaData] before it assigns the root it has
    computed, so the record it leaves under the name holds 32 zero bytes as
    root: the tree it returns has the root of the all-zero tree, while
    [new] on the store it leaves rebuilds a tree whose root is 32 zero
    bytes.  ([MerkleTree2.new] itself writes the record again after the
    constructor has returned.) *)
Theorem constructor2_leaves_zero_root_record (name : string) (d : Z) (l : log) :
  1 <= d <= 32 ->
  name <> ""%string ->
  exists t l',
    MerkleTree2.constructor name d None l = (Ok t, l')
    /\ MerkleTree.root t = zero_digest (Z.to_nat d)
    /\ forall depthArg,
         MerkleTree2.new name depthArg l'
         = (Ok {| MerkleTree.name := name; MerkleTree.depth := d;
                  MerkleTree.root := Buffer.alloc 32 x00 |},
            Get (Buffer.from name) :: l').
Proof.
  intros Hd Hnamed. destruct (constructor2_fresh name d l Hd) as (meta0 & Hm0 & E).
  cbn [served] in E. rewrite decide_False in E by (rewrite from_nil; exact Hnamed).
  cbn [app] in E.
  eexists _, _. split; [exact E|]. split; [reflexivity|].
  intros depthArg.
  set (t0 := {| MerkleTree.name := name; MerkleTree.depth := d;
                MerkleTree.root := Buffer.alloc 32 x00 |}) in *.
  destruct (metadata_restorable t0 meta0
              (served (zero_puts concatenated (Z.to_nat d)) ++ l)
              Hd (alloc_length 32 x00) Hm0) as [_ (_ & _ & m & Hm & Hread & Hslice)].
  unfold MerkleTree2.new, bind, LevelUp.get_or_undefined.
  subst t0. cbn [MerkleTree.name MerkleTree.depth MerkleTree.root] in Hm, Hread, Hslice.
  rewrite Hm, Hread, Hslice.
  unfold MerkleTree2.constructor. rewrite (proj2 (depth_check d) Hd). reflexivity.
Qed.

Lemma updateElement_extends (l l' : log) (t t' : MerkleTree.t) (index : Z)
    (value : Buffer) :
  MerkleTree.updateElement t index value l = (Ok t', l') ->
  MerkleTree.name t' = MerkleTree.name t /\ exists new, l' = new ++ l.
Proof.
  intros E. destruct (Z_le_dec 0 (MerkleTree.depth t)) as [Hd|Hd].
  - rewrite updateElement_requests in E by lia.
    destruct (update_from copied l index (hash value) _ _) as [[d es]|e]; [|discriminate].
    unfold bind in E. rewrite writeMetaData_spec in E.
    destruct (metadata (updated t d)) as [m|]; [|discriminate].
    destruct (decide (Buffer.from (MerkleTree.name (updated t d)) = []));
      [discriminate|].
    injection E as <- <-. split; [reflexivity|].
    exists (Put (Buffer.from (MerkleTree.name t)) m :: served (map put_event es)
              ++ reads l index (MerkleTree.root t) (Z.to_nat (MerkleTree.depth t))).
    simpl. rewrite <- app_assoc. reflexivity.
  - exfalso. unfold MerkleTree.updateElement, bind in E.
    replace (Z.to_nat (MerkleTree.depth t)) with 0%nat in E by lia.
    simpl in E.
    replace (MerkleTree.depth t =? 0) with false in E
      by (symmetry; apply Z.eqb_neq; lia).
    discriminate.
Qed.

Lemma updateAll_extends (us : list (Z * Buffer)) :
  forall l l' t t',
    updateAll t us l = (Ok t', l') ->
    MerkleTree.name t' = MerkleTree.name t /\ exists new, l' = new ++ l.
Proof.
  induction us as [|[index value] us IH]; intros l l' t t' E.
  - injection E as <- <-. split; [reflexivity | exists []; reflexivity].
  - simpl in E. unfold bind in E.
    destruct (MerkleTree.updateElement t index value l) as [[t1|e] l1] eqn:E1;
      [|discriminate].
    destruct (updateElement_extends _ _ _ _ _ _ E1) as [Hn1 [new1 ->]].
    destruct (IH _ _ _ _ E) as [Hn [new ->]].
    split; [congruence|]. exists (new ++ new1). rewrite app_assoc. reflexivity.
Qed.

End Records.

Section Reachable.
Context `{HH : Hasher} `{!DigestLength HH}.

Lemma updateAll_fullyConstructed (us : list (Z * Buffer)) :
  forall l l' t t',
    fullyConstructed l t = true ->
    List.length (Buffer.from (MerkleTree.name t)) <> 32%nat ->
    updateAll t us l = (Ok t', l') ->
    collision_free (MerkleTree.name t) l' = true ->
    fullyConstructed l' t' = true.
Proof.
  induction us as [|[index value] us IH]; intros l l' t t' Hfc Hname E Hcf.
  - injection E as <- <-. exact Hfc.
  - simpl in E. unfold bind in E.
    destruct (MerkleTree.updateElement t index value l) as [[t1|e] l1] eqn:E1;
      [|discriminate].
    destruct (updateElement_extends _ _ _ _ _ _ E1) as [Hn1 _].
    destruct (updateAll_extends us _ _ _ _ E) as [_ [new Hl']].
    assert (Hcf1 : collision_free (MerkleTree.name t) l1 = true).
    { apply (collision_free_older _ new). rewrite <- Hl'. exact Hcf. }
    pose proof (updateElement_fullyConstructed _ _ _ _ _ _ Hfc Hname E1 Hcf1) as Hfc1.
    apply (IH _ _ _ _ Hfc1); rewrite ?Hn1; assumption.
Qed.

(** X13.  Every tree the operations reach is fully constructed.  After
    [new] on a store without a record for the name and any sequence of
    successful updates, the store holds under the root of the tree a
    complete tree of its depth in which every node is stored under the
    [compress] of its two children.  Stated for a store in which
    [compress] has produced no collision among the node values written,
    and a name that is not 32 bytes long. *)
Theorem reached_trees_are_fully_constructed (name : string) (depthArg : option Z)
    (l0 l1 l : log) (t0 t : MerkleTree.t) (us : list (Z * Buffer)) :
  List.length (Buffer.from name) <> 32%nat ->
  lookup_key (Buffer.from name) l0 = None ->
  MerkleTree.new name depthArg l0 = (Ok t0, l1) ->
  updateAll t0 us l1 = (Ok t, l) ->
  collision_free name l = true ->
  fullyConstructed l t = true.
Proof.
  intros Hname Hfresh Enew Eall Hcf.
  destruct (new_restorable _ _ _ _ _ Enew) as [Hn0 _].
  destruct (updateAll_extends us _ _ _ _ Eall) as [_ [new Hl]].
  assert (Hcf1 : collision_free name l1 = true).
  { apply (collision_free_older _ new). rewrite <- Hl. exact Hcf. }
  pose proof (new_fullyConstructed _ _ _ _ _ Hname Hfresh Enew Hcf1) as Hfc0.
  apply (updateAll_fullyConstructed us l1 l t0 t Hfc0); rewrite ?Hn0; assumption.
Qed.

(** The entries of a fresh construction are bound in the store it
    leaves. *)
Lemma fresh_bindings (name : string) (meta : Buffer) (n : nat) (l : log) :
  List.length (Buffer.from name) <> 32%nat ->
  collision_free name
    (Put (Buffer.from name) meta :: zero_puts copied n ++ Get (Buffer.from name) :: l)
  = true ->
  forall h, (h < n)%nat ->
    lookup_key (zero_digest (S h))
      (Put (Buffer.from name) meta :: zero_puts copied n ++ Get (Buffer.from name) :: l)
    = Some (zero_digest h ++ zero_digest h).
Proof.
  intros Hname Hcf h Hh.
  set (new := Put (Buffer.from name) meta :: zero_puts copied n ++ [Get (Buffer.from name)]).
  replace (Put (Buffer.from name) meta :: zero_puts copied n ++ Get (Buffer.from name) :: l)
    with (new ++ l) in *
    by (unfold new; simpl; rewrite <- app_assoc; reflexivity).
  assert (Hadd : forall k v, In (Put k v) new -> k <> Buffer.from name -> addressed (k, v)).
  { intros k v [E|Hin] Hne; [injection E as E1 E2; congruence|].
    apply in_app_or in Hin as [Hin|[E|[]]]; [|discriminate].
    apply (zero_puts_addressed copied n copied_joins _ _ Hin). }
  destruct (binding_kept name new l Hname Hadd Hcf) as [Hb _].
  apply Hb.
  - right. apply in_or_app; left.
    clear -Hh DigestLength0. induction n as [|n IHn]; [lia|].
    destruct (decide (h = n)) as [->|Hne].
    + left. rewrite (copied_joins _ _ (zero_digest_length n) (zero_digest_length n)).
      reflexivity.
    + right. apply IHn. lia.
  - intros Ek. apply Hname. rewrite <- Ek. apply zero_digest_length.
Qed.

(** X14.  In a fresh tree all leaves have the same path.  After [new] on
    a store without a record for the name, [getHashPath] returns for every
    index the same path: at position [k] the pair made of twice the digest
    of an all-zero subtree of height [k].  Stated for a store in which
    [compress] has produced no collision among the node values written,
    and a name that is not 32 bytes long. *)
Theorem fresh_tree_paths_are_uniform (name : string) (depthArg : option Z)
    (l l' : log) (t : MerkleTree.t) (index : Z) :
  List.length (Buffer.from name) <> 32%nat ->
  lookup_key (Buffer.from name) l = None ->
  MerkleTree.new name depthArg l = (Ok t, l') ->
  collision_free name l' = true ->
  fst (MerkleTree.getHashPath t index l')
  = Ok {| data := map (fun k => (zero_digest k, zero_digest k))
                      (seq 0 (Z.to_nat (MerkleTree.depth t))) |}.
Proof.
  intros Hname Hfresh E Hcf.
  assert (Hd : 1 <= default MAX_DEPTH depthArg <= 32).
  { unfold MerkleTree.new, bind, LevelUp.get_or_undefined in E.
    rewrite Hfresh in E. unfold MerkleTree.constructor in E.
    destruct (negb _) eqn:Hc in E; [discriminate|].
    apply depth_check in Hc. exact Hc. }
  destruct (new_fresh_succeeded name depthArg l l' t Hfresh E) as [_ Hnamed].
  destruct (new_fresh name depthArg l Hd Hnamed Hfresh) as (meta & Hmeta & E').
  rewrite E' in E. injection E as <- <-.
  rewrite getHashPath_requests by (simpl; lia).
  cbn [MerkleTree.root MerkleTree.depth fst].
  set (n := Z.to_nat (default MAX_DEPTH depthArg)) in *.
  pose proof (fresh_bindings name meta n l Hname Hcf) as Hb.
  set (l' := Put (Buffer.from name) meta :: zero_puts copied n ++ Get (Buffer.from name) :: l)
    in *.
  assert (Hall : forall h, (h <= n)%nat ->
            path_from l' index (zero_digest h) h
            = Ok (map (fun k => (zero_digest k, zero_digest k)) (seq 0 h))).
  { induction h as [|h IH]; intros Hh; [reflexivity|].
    rewrite path_from_S, (Hb h) by lia.
    rewrite lo_app, hi_app by apply zero_digest_length.
    replace (if goesRight index h then zero_digest h else zero_digest h)
      with (zero_digest h) by (destruct (goesRight index h); reflexivity).
    rewrite IH by lia. rewrite seq_S, map_app. reflexivity. }
  rewrite Hall by lia. reflexivity.
Qed.

End Reachable.

Section Commuting.
Context `{HH : Hasher} `{!DigestLength HH}.

(** An update below a node none of whose entries has changed computes what
    it computed before. *)
Lemma update_from_preserved mk (l l' : log) (index : Z) (leaf : Buffer) :
  preserves l l' ->
  forall n cur, merkle l cur n = true ->
    update_from mk l' index leaf cur n = update_from mk l index leaf cur n.
Proof.
  intros Hp. induction n as [|n IH]; intros cur Hm; [reflexivity|].
  apply merkle_S_inv in Hm as (v & Hv & Ha & Hl & Hr).
  rewrite !update_from_S, Hv, (Hp cur v Hv Ha).
  rewrite IH by (destruct (goesRight index n); assumption).
  reflexivity.
Qed.

(** Updates of two different leaves give the same digest in either order. *)
Lemma update_commute mk (l li lj : log) (i j : Z) (x y : Buffer) (p : nat) :
  joins mk -> List.length x = 32%nat -> List.length y = 32%nat ->
  preserves l li -> preserves l lj ->
  forall n cur di esi dj esj,
    merkle l cur n = true ->
    update_from mk l i x cur n = Ok (di, esi) -> holds li esi ->
    update_from mk l j y cur n = Ok (dj, esj) -> holds lj esj ->
    (p < n)%nat ->
    goesRight i p <> goesRight j p ->
    (forall q, (p < q < n)%nat -> goesRight i q = goesRight j q) ->
    exists d es es',
      update_from mk li j y di n = Ok (d, es)
      /\ update_from mk lj i x dj n = Ok (d, es').
Proof.
  intros Hmk Hx Hy Hpi Hpj.
  induction n as [|n IH];
    intros cur di esi dj esj Hm Ei Hhi Ej Hhj Hp Hdiff Hsame; [lia|].
  apply merkle_S_inv in Hm as (v & Hv & [Hlen Hk] & Hl & Hr).
  cbn [fst snd] in Hlen.
  pose proof (lo_length v Hlen) as Hlo. pose proof (hi_length v Hlen) as Hhv.
  rewrite update_from_S, Hv in Ei, Ej.
  destruct (decide (p = n)) as [->|Hne].
  - (* the two paths part at this node *)
    destruct (goesRight i n) eqn:Bi.
    + assert (Bj : goesRight j n = false)
        by (destruct (goesRight j n); [congruence | reflexivity]).
      rewrite Bj in Ej.
      destruct (merkle_update mk l i x Hmk Hx n (hi v) Hr) as (a & ea & Ea & _ & Hla & _).
      destruct (merkle_update mk l j y Hmk Hy n (lo v) Hl) as (b & eb & Eb & _ & Hlb & _).
      rewrite Ea in Ei. rewrite Eb in Ej.
      injection Ei as <- <-. injection Ej as <- <-.
      pose proof (Hhi _ (or_introl eq_refl)) as Ri. cbn [fst snd] in Ri.
      pose proof (Hhj _ (or_introl eq_refl)) as Rj. cbn [fst snd] in Rj.
      rewrite (Hmk _ _ Hlo Hla) in Ri. rewrite (Hmk _ _ Hlb Hhv) in Rj.
      rewrite !update_from_S, Ri, Rj, !lo_app, !hi_app, Bi, Bj by assumption.
      rewrite (update_from_preserved mk l li j y Hpi n _ Hl), Eb.
      rewrite (update_from_preserved mk l lj i x Hpj n _ Hr), Ea.
      eexists _, _, _. split; reflexivity.
    + assert (Bj : goesRight j n = true)
        by (destruct (goesRight j n); [reflexivity | congruence]).
      rewrite Bj in Ej.
      destruct (merkle_update mk l i x Hmk Hx n (lo v) Hl) as (a & ea & Ea & _ & Hla & _).
      destruct (merkle_update mk l j y Hmk Hy n (hi v) Hr) as (b & eb & Eb & _ & Hlb & _).
      rewrite Ea in Ei. rewrite Eb in Ej.
      injection Ei as <- <-. injection Ej as <- <-.
      pose proof (Hhi _ (or_introl eq_refl)) as Ri. cbn [fst snd] in Ri.
      pose proof (Hhj _ (or_introl eq_refl)) as Rj. cbn [fst snd] in Rj.
      rewrite (Hmk _ _ Hla Hhv) in Ri. rewrite (Hmk _ _ Hlo Hlb) in Rj.
      rewrite !update_from_S, Ri, Rj, !lo_app, !hi_app, Bi, Bj by assumption.
      rewrite (update_from_preserved mk l li j y Hpi n _ Hr), Eb.
      rewrite (update_from_preserved mk l lj i x Hpj n _ Hl), Ea.
      eexists _, _, _. split; reflexivity.
  - (* both paths go the same way *)
    assert (Bj : goesRight j n = goesRight i n) by (symmetry; apply Hsame; lia).
    rewrite Bj in Ej.
    destruct (goesRight i n) eqn:Bi.
    + destruct (merkle_update mk l i x Hmk Hx n (hi v) Hr) as (a & ea & Ea & _ & Hla & _).
      destruct (merkle_update mk l j y Hmk Hy n (hi v) Hr) as (b & eb & Eb & _ & Hlb & _).
      rewrite Ea in Ei. rewrite Eb in Ej.
      injection Ei as <- <-. injection Ej as <- <-.
      destruct (IH (hi v) a ea b eb Hr Ea) as (d & es & es' & E1 & E2); auto.
      { intros e He. apply Hhi. right. exact He. }
      { intros e He. apply Hhj. right. exact He. }
      { lia. }
      { intros q Hq. apply Hsame. lia. }
      pose proof (Hhi _ (or_introl eq_refl)) as Ri. cbn [fst snd] in Ri.
      pose proof (Hhj _ (or_introl eq_refl)) as Rj. cbn [fst snd] in Rj.
      rewrite (Hmk _ _ Hlo Hla) in Ri. rewrite (Hmk _ _ Hlo Hlb) in Rj.
      rewrite !update_from_S, Ri, Rj, !lo_app, !hi_app, Bi, Bj, E1, E2 by assumption.
      eexists _, _, _. split; reflexivity.
    + destruct (merkle_update mk l i x Hmk Hx n (lo v) Hl) as (a & ea & Ea & _ & Hla & _).
      destruct (merkle_update mk l j y Hmk Hy n (lo v) Hl) as (b & eb & Eb & _ & Hlb & _).
      rewrite Ea in Ei. rewrite Eb in Ej.
      injection Ei as <- <-. injection Ej as <- <-.
      destruct (IH (lo v) a ea b eb Hl Ea) as (d & es & es' & E1 & E2); auto.
      { intros e He. apply Hhi. right. exact He. }
      { intros e He. apply Hhj. right. exact He. }
      { lia. }
      { intros q Hq. apply Hsame. lia. }
      pose proof (Hhi _ (or_introl eq_refl)) as Ri. cbn [fst snd] in Ri.
      pose proof (Hhj _ (or_introl eq_refl)) as Rj. cbn [fst snd] in Rj.
      rewrite (Hmk _ _ Hla Hhv) in Ri. rewrite (Hmk _ _ Hlb Hhv) in Rj.
      rewrite !update_from_S, Ri, Rj, !lo_app, !hi_app, Bi, Bj, E1, E2 by assumption.
      eexists _, _, _. split; reflexivity.
Qed.

(** X15.  Updates of two different leaves commute.  On a fully
    constructed tree, for two indices that differ in a bit below [depth],
    [updateElement (i, x)] followed by [updateElement (j, y)] and the two in
    the other order both succeed and leave the same tree: same name, same
    depth, same root.  Stated for stores in which [compress] has produced
    no collision among the node values written, and a tree name that is
    not 32 bytes long. *)
Theorem updates_of_different_leaves_commute (l li lj : log)
    (this ti tj : MerkleTree.t) (i j : Z) (x y : Buffer) (p : Z) :
  fullyConstructed l this = true ->
  List.length (Buffer.from (MerkleTree.name this)) <> 32%nat ->
  MerkleTree.updateElement this i x l = (Ok ti, li) ->
  collision_free (MerkleTree.name this) li = true ->
  MerkleTree.updateElement this j y l = (Ok tj, lj) ->
  collision_free (MerkleTree.name this) lj = true ->
  0 <= p < MerkleTree.depth this ->
  Z.testbit i p <> Z.testbit j p ->
  (forall q, p < q < MerkleTree.depth this -> Z.testbit i q = Z.testbit j q) ->
  exists t lij lji,
    MerkleTree.updateElement ti j y li = (Ok t, lij)
    /\ MerkleTree.updateElement tj i x lj = (Ok t, lji).
Proof.
  intros Hfc Hname Ei Hcfi Ej Hcfj Hp Hdiff Hsame.
  destruct (updateElement_succeeded l _ this _ i x Hfc Ei)
    as (di & esi & gi & mi & Hgi & Ui & Hdi & _ & Hesi & _ & Hnamed & -> & ->).
  destruct (updateElement_succeeded l _ this _ j y Hfc Ej)
    as (dj & esj & gj & mj & Hgj & Uj & Hdj & _ & Hesj & _ & _ & -> & ->).
  destruct (update_binding _ mi esi gi l Hname Hesi Hgi Hcfi) as [Hhi Hpi].
  destruct (update_binding _ mj esj gj l Hname Hesj Hgj Hcfj) as [Hhj Hpj].
  apply fullyConstructed_inv in Hfc as [Hdep Hm].
  set (n := Z.to_nat (MerkleTree.depth this)) in *.
  assert (Hbit : forall z q, (q < n)%nat -> goesRight z q = Z.testbit z (Z.of_nat q)).
  { intros z q Hq. unfold goesRight. apply shouldGoRight_testbit. lia. }
  destruct (update_commute copied l _ _ i j (hash x) (hash y) (Z.to_nat p) copied_joins
              (hash_length x) (hash_length y) Hpi Hpj n _ di esi dj esj Hm Ui Hhi Uj Hhj)
    as (d & es & es' & E1 & E2).
  { unfold n. lia. }
  { rewrite !Hbit by (unfold n; lia). rewrite Z2Nat.id by lia. exact Hdiff. }
  { intros q Hq. rewrite !Hbit by lia. apply Hsame. unfold n in Hq. lia. }
  assert (Hd : List.length d = 32%nat).
  { assert (Hn : (0 < n)%nat) by (unfold n; lia).
    revert Hn E1. generalize n. intros [|n'] Hn E1; [lia|].
    rewrite update_from_S in E1.
    destruct (lookup_key di _) as [v|]; [|discriminate].
    destruct (update_from copied _ j (hash y) _ n') as [[d0 es0]|]; [|discriminate].
    injection E1 as <- _. apply compress_length. }
  destruct (metadata_Some (updated2 this d)) as [m Hmeta]; [simpl; lia|].
  exists (updated2 this d).
  rewrite !updateElement_requests by (simpl; lia).
  cbn [MerkleTree.root MerkleTree.depth MerkleTree.name updated2].
  fold n. rewrite E1, E2.
  replace (updated (updated2 this di) d) with (updated2 this d)
    by (unfold updated, updated2; simpl; rewrite copy_full by congruence; reflexivity).
  replace (updated (updated2 this dj) d) with (updated2 this d)
    by (unfold updated, updated2; simpl; rewrite copy_full by congruence; reflexivity).
  unfold bind. rewrite !(writeMetaData_named (updated2 this d) m _ Hnamed Hmeta).
  eexists _, _. split; reflexivity.
Qed.

End Commuting.

Section Leaves.
Context `{HH : Hasher} `{!DigestLength HH}.

Lemma leaf_digest_preserved (l l' : log) (index : Z) :
  preserves l l' ->
  forall n cur, merkle l cur n = true ->
    leaf_digest l' index cur n = leaf_digest l index cur n.
Proof.
  intros Hp. induction n as [|n IH]; intros cur Hm; [reflexivity|].
  apply merkle_S_inv in Hm as (v & Hv & Ha & Hl & Hr).
  rewrite !leaf_digest_S, Hv, (Hp cur v Hv Ha).
  apply IH. destruct (goesRight index n); assumption.
Qed.

(** After an update the leaf at the index holds the digest written. *)
Lemma update_sets_leaf mk (l l' : log) (index : Z) (x : Buffer) :
  joins mk -> List.length x = 32%nat ->
  forall n cur d es,
    merkle l cur n = true ->
    update_from mk l index x cur n = Ok (d, es) ->
    holds l' es ->
    leaf_digest l' index d n = Some x.
Proof.
  intros Hmk Hx. induction n as [|n IH]; intros cur d es Hm E Hh.
  - simpl in E. injection E as <- _. reflexivity.
  - apply merkle_S_inv in Hm as (v & Hv & [Hlen Hk] & Hl & Hr).
    cbn [fst snd] in Hlen.
    pose proof (lo_length v Hlen) as Hlo. pose proof (hi_length v Hlen) as Hhv.
    rewrite update_from_S, Hv in E.
    destruct (goesRight index n) eqn:B.
    + destruct (merkle_update mk l index x Hmk Hx n (hi v) Hr) as (a & ea & Ea & _ & Hla & _).
      rewrite Ea in E. injection E as <- <-.
      pose proof (Hh _ (or_introl eq_refl)) as R. cbn [fst snd] in R.
      rewrite (Hmk _ _ Hlo Hla) in R.
      rewrite leaf_digest_S, R, B, hi_app by assumption.
      apply (IH (hi v) a ea Hr Ea). intros e He. apply Hh. right. exact He.
    + destruct (merkle_update mk l index x Hmk Hx n (lo v) Hl) as (a & ea & Ea & _ & Hla & _).
      rewrite Ea in E. injection E as <- <-.
      pose proof (Hh _ (or_introl eq_refl)) as R. cbn [fst snd] in R.
      rewrite (Hmk _ _ Hla Hhv) in R.
      rewrite leaf_digest_S, R, B, lo_app by assumption.
      apply (IH (lo v) a ea Hl Ea). intros e He. apply Hh. right. exact He.
Qed.

(** An update leaves the digest of every other leaf as it was. *)
Lemma update_keeps_leaf mk (l l' : log) (i j : Z) (x : Buffer) :
  joins mk -> List.length x = 32%nat -> preserves l l' ->
  forall n cur d es,
    merkle l cur n = true ->
    update_from mk l i x cur n = Ok (d, es) ->
    holds l' es ->
    ~ (forall p, (p < n)%nat -> goesRight i p = goesRight j p) ->
    leaf_digest l' j d n = leaf_digest l j cur n.
Proof.
  intros Hmk Hx Hp. induction n as [|n IH]; intros cur d es Hm E Hh Hne.
  - exfalso. apply Hne. intros p Hlt. lia.
  - apply merkle_S_inv in Hm as (v & Hv & [Hlen Hk] & Hl & Hr).
    cbn [fst snd] in Hlen.
    pose proof (lo_length v Hlen) as Hlo. pose proof (hi_length v Hlen) as Hhv.
    rewrite update_from_S, Hv in E.
    assert (Hbelow : goesRight i n = goesRight j n ->
                     ~ (forall p, (p < n)%nat -> goesRight i p = goesRight j p)).
    { intros Hn Hall. apply Hne. intros p Hlt.
      destruct (decide (p = n)) as [->|]; [exact Hn | apply Hall; lia]. }
    destruct (goesRight i n) eqn:Bi.
    + destruct (merkle_update mk l i x Hmk Hx n (hi v) Hr) as (a & ea & Ea & _ & Hla & _).
      rewrite Ea in E. injection E as <- <-.
      pose proof (Hh _ (or_introl eq_refl)) as R. cbn [fst snd] in R.
      rewrite (Hmk _ _ Hlo Hla) in R.
      rewrite !leaf_digest_S, R, Hv.
      destruct (goesRight j n) eqn:Bj.
      * rewrite hi_app by assumption.
        apply (IH (hi v) a ea Hr Ea); [|apply Hbelow; reflexivity].
        intros e He. apply Hh. right. exact He.
      * rewrite lo_app by assumption.
        apply (leaf_digest_preserved l l' j Hp n (lo v) Hl).
    + destruct (merkle_update mk l i x Hmk Hx n (lo v) Hl) as (a & ea & Ea & _ & Hla & _).
      rewrite Ea in E. injection E as <- <-.
      pose proof (Hh _ (or_introl eq_refl)) as R. cbn [fst snd] in R.
      rewrite (Hmk _ _ Hla Hhv) in R.
      rewrite !leaf_digest_S, R, Hv.
      destruct (goesRight j n) eqn:Bj.
      * rewrite hi_app by assumption.
        apply (leaf_digest_preserved l l' j Hp n (hi v) Hr).
      * rewrite lo_app by assumption.
        apply (IH (lo v) a ea Hl Ea); [|apply Hbelow; reflexivity].
        intros e He. apply Hh. right. exact He.
Qed.

(** Two indices whose routing bits agree at every level of the tree are
    the same leaf. *)
Lemma same_route_same_leaf (i j : Z) (n : nat) :
  (n <= 32)%nat ->
  (forall p, (p < n)%nat -> goesRight i p = goesRight j p) ->
  i mod 2 ^ Z.of_nat n = j mod 2 ^ Z.of_nat n.
Proof.
  intros Hn Hall. apply Z.bits_inj'. intros q Hq.
  destruct (Z_lt_le_dec q (Z.of_nat n)) as [Hlt|Hge].
  - rewrite !Z.mod_pow2_bits_low by lia.
    pose proof (Hall (Z.to_nat q) ltac:(lia)) as E.
    unfold goesRight in E. rewrite !shouldGoRight_testbit in E by lia.
    rewrite Z2Nat.id in E by lia. exact E.
  - rewrite !Z.mod_pow2_bits_high by lia. reflexivity.
Qed.

(** X16.  An update sets one leaf and no other.  After a successful
    [updateElement (index, value)] on a fully constructed tree, the store
    holds under the new root the digest [hash value] for the leaf at
    [index], and for every index that names another leaf the digest it held
    under the old root.  Stated for a store in which [compress] has
    produced no collision among the node values written, and a tree name
    that is not 32 bytes long. *)
Theorem update_sets_one_leaf (l l' : log) (this this' : MerkleTree.t) (index : Z)
    (value : Buffer) :
  fullyConstructed l this = true ->
  List.length (Buffer.from (MerkleTree.name this)) <> 32%nat ->
  MerkleTree.updateElement this index value l = (Ok this', l') ->
  collision_free (MerkleTree.name this) l' = true ->
  leaf_digest l' index (MerkleTree.root this') (Z.to_nat (MerkleTree.depth this'))
  = Some (hash value)
  /\ forall other,
       other mod 2 ^ MerkleTree.depth this <> index mod 2 ^ MerkleTree.depth this ->
       leaf_digest l' other (MerkleTree.root this') (Z.to_nat (MerkleTree.depth this'))
       = leaf_digest l other (MerkleTree.root this) (Z.to_nat (MerkleTree.depth this)).
Proof.
  intros Hfc Hname Eu Hcf.
  destruct (updateElement_succeeded l _ this _ index value Hfc Eu)
    as (d & es & gets & m & Hg & E & Hd & Hn & Hes & Hmeta & _ & -> & ->).
  destruct (update_binding _ m es gets l Hname Hes Hg Hcf) as [Hh Hp].
  apply fullyConstructed_inv in Hfc as [Hdep Hm].
  cbn [updated2 MerkleTree.root MerkleTree.depth].
  split.
  - exact (update_sets_leaf copied l _ index (hash value) copied_joins (hash_length value)
             _ _ d es Hm E Hh).
  - intros other Hne.
    apply (update_keeps_leaf copied l _ index other (hash value) copied_joins
             (hash_length value) Hp _ _ d es Hm E Hh).
    intros Hall. apply Hne. symmetry.
    rewrite <- (Z2Nat.id (MerkleTree.depth this)) by lia.
    apply same_route_same_leaf; [lia | exact Hall].
Qed.

(** X17.  Earlier roots stay readable.  After a successful
    [updateElement] the store still holds the complete tree under the root
    the tree had before the call, and [getHashPath] on a tree object with
    that earlier root (as the constructor builds one from a given root)
    returns for every index the path it returned before: an update adds
    nodes and rebinds none.  Stated for a store in which [compress] has
    produced no collision among the node values written, and a tree name
    that is not 32 bytes long. *)
Theorem earlier_root_stays_readable (l l' : log) (this this' : MerkleTree.t)
    (index : Z) (value : Buffer) :
  fullyConstructed l this = true ->
  List.length (Buffer.from (MerkleTree.name this)) <> 32%nat ->
  MerkleTree.updateElement this index value l = (Ok this', l') ->
  collision_free (MerkleTree.name this) l' = true ->
  fullyConstructed l' this = true
  /\ forall other,
       fst (MerkleTree.getHashPath this other l')
       = fst (MerkleTree.getHashPath this other l).
Proof.
  intros Hfc Hname Eu Hcf.
  destruct (updateElement_succeeded l _ this _ index value Hfc Eu)
    as (d & es & gets & m & Hg & E & Hd & Hn & Hes & Hmeta & _ & -> & ->).
  destruct (update_binding _ m es gets l Hname Hes Hg Hcf) as [Hh Hp].
  apply fullyConstructed_inv in Hfc as [Hdep Hm].
  split.
  - apply fullyConstructed_intro; [exact Hdep|].
    exact (merkle_preserved l _ Hp _ _ Hm).
  - intros other. rewrite !getHashPath_requests by lia. cbn [fst].
    rewrite (path_from_preserved l _ other Hp _ _ Hm). reflexivity.
Qed.

End Leaves.

Section Refusals.
Context `{HH : Hasher} `{!DigestLength HH}.

(** X18.  The empty name.  The store refuses a put under an empty key,
    and the record of a tree is put under its name, so for the name [""]:
    a fresh [new] (no record, legal depth) writes the node entries of the
    levels and then throws the refusal of the record, in both renditions
    (the record put from inside the second constructor is refused too, but
    not awaited); and [updateElement] on a fully constructed tree makes
    its [get]s, writes its [depth] node entries and then throws the
    refusal, again in both renditions.  No record is left, and nothing is
    rolled back. *)
Theorem empty_name_is_refused :
  (forall (depthArg : option Z) (l : log),
      1 <= default MAX_DEPTH depthArg <= 32 ->
      lookup_key (Buffer.from "") l = None ->
      let n := Z.to_nat (default MAX_DEPTH depthArg) in
      MerkleTree.new "" depthArg l
      = (Err WriteError, zero_puts copied n ++ Get (Buffer.from "") :: l)
      /\ MerkleTree2.new "" depthArg l
         = (Err WriteError, zero_puts concatenated n ++ Get (Buffer.from "") :: l))
  /\ (forall (l : log) (this : MerkleTree.t) (index : Z) (value : Buffer),
      fullyConstructed l this = true ->
      MerkleTree.name this = ""%string ->
      exists es gets,
        forallb is_get gets = true
        /\ List.length es = Z.to_nat (MerkleTree.depth this)
        /\ Forall addressed es
        /\ MerkleTree.updateElement this index value l
           = (Err WriteError, map put_event es ++ gets ++ l)
        /\ MerkleTree2.updateElement this index value l
           = (Err WriteError, map put_event es ++ gets ++ l)).
Proof.
  split.
  - intros depthArg l Hd Hfresh n. split.
    + unfold MerkleTree.new, bind at 1, LevelUp.get_or_undefined.
      rewrite Hfresh. unfold bind at 1.
      rewrite constructor_fresh, served_zero_puts by exact Hd.
      unfold bind. rewrite writeMetaData_spec. cbn [MerkleTree.name].
      destruct (metadata_Some
                  {| MerkleTree.name := ""; MerkleTree.depth := default MAX_DEPTH depthArg;
                     MerkleTree.root :=
                       Buffer.copy (zero_digest n) (Buffer.alloc 32 x00) 0 |})
        as [m Hm]; [simpl; lia|].
      fold n. rewrite Hm. reflexivity.
    + destruct (constructor2_fresh "" (default MAX_DEPTH depthArg)
                  (Get (Buffer.from "") :: l) Hd) as (meta0 & _ & E).
      unfold MerkleTree2.new, bind at 1, LevelUp.get_or_undefined.
      rewrite Hfresh. unfold bind at 1. rewrite E.
      cbn [served]. rewrite decide_True by reflexivity.
      rewrite served_zero_puts.
      unfold bind. rewrite writeMetaData2_spec, writeMetaData_spec.
      cbn [MerkleTree.name].
      destruct (metadata_Some
                  {| MerkleTree.name := ""; MerkleTree.depth := default MAX_DEPTH depthArg;
                     MerkleTree.root := zero_digest n |})
        as [m Hm]; [simpl; lia|].
      fold n. rewrite Hm. reflexivity.
  - intros l this index value Hfc Hname.
    pose proof (fullyConstructed_root_length _ _ Hfc) as Hroot.
    apply fullyConstructed_inv in Hfc as [Hd Hm].
    destruct (reads_are_gets l index (Z.to_nat (MerkleTree.depth this))
                (MerkleTree.root this)) as [Hg _].
    destruct (merkle_update copied l index (hash value) copied_joins (hash_length value)
                _ _ Hm) as (d & es & E & Hes & Hdl & Hadd).
    exists es, (reads l index (MerkleTree.root this) (Z.to_nat (MerkleTree.depth this))).
    split; [exact Hg|]. split; [exact Hes|]. split; [exact Hadd|].
    rewrite updateElement_requests, updateElement2_requests by lia.
    rewrite (update_from_joins concatenated copied l index (hash value)
               concatenated_joins copied_joins (hash_length value) _ _ Hm).
    rewrite E. unfold bind at 2. rewrite (puts_addressed es _ Hadd).
    rewrite (served_addressed es Hadd).
    unfold bind. rewrite !writeMetaData_spec.
    cbn [updated updated2 MerkleTree.name]. rewrite Hname.
    destruct (metadata_Some (updated this d)) as [m1 Hm1]; [simpl; lia|].
    destruct (metadata_Some (updated2 this d)) as [m2 Hm2]; [simpl; lia|].
    rewrite Hm1, Hm2. split; reflexivity.
Qed.

End Refusals.

(* ===================================================================== *)
(** ** The further properties on the scenario of the specification *)
(* ===================================================================== *)

Section Scenario2Facts.
Import Scenario Scenario2.

Lemma distinct_keys_keyed `{HH : Hasher} (name : string) (l : log) :
  distinct_keys (keyed name l) = collision_free name l.
Proof.
  unfold distinct_keys, keyed, collision_free.
  generalize (node_values name l). intros vs.
  assert (Hin : forall (ws : list Buffer) (p : Buffer * Buffer),
    forallb (fun q => implb (bool_decide (fst p = fst q)) (bool_decide (snd p = snd q)))
      (map (fun v => (compress (lo v) (hi v), v)) ws)
    = forallb (fun v' => implb (bool_decide (fst p = compress (lo v') (hi v')))
                               (bool_decide (snd p = v'))) ws).
  { induction ws as [|w ws IH]; intros p; [reflexivity|].
    cbn [map forallb fst snd]. rewrite IH. reflexivity. }
  assert (Hout : forall us ws : list Buffer,
    forallb (fun p =>
      forallb (fun q => implb (bool_decide (fst p = fst q)) (bool_decide (snd p = snd q)))
        (map (fun v => (compress (lo v) (hi v), v)) ws))
      (map (fun v => (compress (lo v) (hi v), v)) us)
    = forallb (fun v =>
        forallb (fun v' =>
          implb (bool_decide (compress (lo v) (hi v) = compress (lo v') (hi v')))
                (bool_decide (v = v'))) ws) us).
  { induction us as [|u us IH]; intros ws; [reflexivity|].
    cbn [map forallb]. rewrite IH, Hin. reflexivity. }
  apply Hout.
Qed.

Lemma pair_of_fst {A B} (x : A * B) (a : A) : fst x = a -> x = (a, snd x).
Proof. destruct x. simpl. intros ->. reflexivity. Qed.

Lemma scenario_tree_depth : 1 <= MerkleTree.depth tree0 <= 32.
Proof. simpl. lia. Qed.

Lemma scenario_empty : lookup_key (Buffer.from "test") [] = None.
Proof. reflexivity. Qed.

Lemma scenario_extends : exists new, log1 = new ++ log0.
Proof. exact (proj2 (updateElement_extends _ _ _ _ _ _ scenario_update)). Qed.

Lemma scenario_collision_free_fresh : collision_free "test" log0 = true.
Proof.
  destruct scenario_extends as [new E].
  apply (collision_free_older "test" new log0). rewrite <- E.
  exact scenario_collision_free.
Qed.

Lemma scenario_blank_leaf :
  leaf_digest log0 3 (MerkleTree.root tree0) (Z.to_nat (MerkleTree.depth tree0))
  = Some (hash blank).
Proof. vm_compute. reflexivity. Qed.

Lemma scenario_update_other :
  MerkleTree.updateElement tree0 0 value log0 = (Ok tree2, log2).
Proof. unfold log2. apply pair_of_fst. vm_compute. reflexivity. Qed.

Lemma scenario_collision_free_other : collision_free "test" log2 = true.
Proof. rewrite <- distinct_keys_keyed. vm_compute. reflexivity. Qed.

Lemma scenario_fork :
  0 <= 1 < MerkleTree.depth tree0
  /\ Z.testbit 3 1 <> Z.testbit 0 1
  /\ (forall q, 1 < q < MerkleTree.depth tree0 -> Z.testbit 3 q = Z.testbit 0 q).
Proof.
  split; [simpl; lia|]. split; [vm_compute; discriminate|].
  simpl. intros q Hq. lia.
Qed.

Lemma scenario_truncated : lookup_key (Buffer.from "test") truncated = Some [].
Proof. vm_compute. reflexivity. Qed.

Lemma scenario_zeroed :
  lookup_key (Buffer.from "test") zeroed = Some (Buffer.alloc 40 x00).
Proof. vm_compute. reflexivity. Qed.

Lemma scenario_zeroed_depth : Buffer.readUInt32LE (Buffer.alloc 40 x00) 32 = Some 0.
Proof. vm_compute. reflexivity. Qed.

Lemma scenario_unwritten :
  MerkleTree.updateElement tree0 3 value [] = (Err (NotFound (MerkleTree.root tree0)),
                                               [Get (MerkleTree.root tree0)]).
Proof. rewrite updateElement_requests by (simpl; lia). reflexivity. Qed.

Lemma getHashPath_renditions_agree_witness :
  1 <= MerkleTree.depth tree0
  /\ MerkleTree2.getHashPath tree0 3 log0 = MerkleTree.getHashPath tree0 3 log0.
Proof.
  assert (H : 1 <= MerkleTree.depth tree0) by (simpl; lia).
  split; [exact H|]. exact (getHashPath_renditions_agree tree0 3 log0 H).
Defined.

Lemma updateElement_renditions_agree_witness :
  fullyConstructed log0 tree0 = true
  /\ MerkleTree2.updateElement tree0 3 value log0
     = MerkleTree.updateElement tree0 3 value log0.
Proof.
  split; [exact scenario_constructed|].
  exact (updateElement_renditions_agree log0 tree0 3 value scenario_constructed).
Defined.

Lemma requests_per_operation_witness :
  fullyConstructed log0 tree0 = true
  /\ MerkleTree.name tree0 <> ""%string
  /\ (exists gets,
        forallb is_get gets = true /\ List.length gets = Z.to_nat (MerkleTree.depth tree0)
        /\ snd (MerkleTree.getHashPath tree0 3 log0) = gets ++ log0)
  /\ (exists gets es m this',
        forallb is_get gets = true /\ List.length gets = Z.to_nat (MerkleTree.depth tree0)
        /\ List.length es = Z.to_nat (MerkleTree.depth tree0) /\ Forall addressed es
        /\ List.length m = 40%nat
        /\ MerkleTree.updateElement tree0 3 value log0
           = (Ok this',
              Put (Buffer.from (MerkleTree.name tree0)) m
                :: map put_event es ++ gets ++ log0)).
Proof.
  split; [exact scenario_constructed|]. split; [exact scenario_named|].
  exact (requests_per_operation log0 tree0 3 value scenario_constructed scenario_named).
Defined.

Lemma update_missing_a_key_writes_nothing_witness :
  1 <= MerkleTree.depth tree0 <= 32
  /\ MerkleTree.updateElement tree0 3 value []
     = (Err (NotFound (MerkleTree.root tree0)), [Get (MerkleTree.root tree0)])
  /\ lookup_key (MerkleTree.root tree0) [] = None
  /\ (exists gets, forallb is_get gets = true
        /\ [Get (MerkleTree.root tree0)] = gets ++ [])
  /\ forall k', lookup_key k' [Get (MerkleTree.root tree0)] = lookup_key k' [].
Proof.
  split; [exact scenario_tree_depth|]. split; [exact scenario_unwritten|].
  exact (update_missing_a_key_writes_nothing [] _ tree0 3 value _ scenario_tree_depth
           (or_introl scenario_unwritten)).
Defined.

Lemma missing_root_is_reported_witness :
  1 <= MerkleTree.depth tree0 <= 32
  /\ lookup_key (MerkleTree.root tree0) [] = None
  /\ MerkleTree.getHashPath tree0 3 []
     = (Err (NotFound (MerkleTree.root tree0)), [Get (MerkleTree.root tree0)])
  /\ MerkleTree2.getHashPath tree0 3 []
     = (Err (NotFound (MerkleTree.root tree0)), [Get (MerkleTree.root tree0)])
  /\ MerkleTree.updateElement tree0 3 value []
     = (Err (NotFound (MerkleTree.root tree0)), [Get (MerkleTree.root tree0)])
  /\ MerkleTree2.updateElement tree0 3 value []
     = (Err (NotFound (MerkleTree.root tree0)), [Get (MerkleTree.root tree0)]).
Proof.
  split; [exact scenario_tree_depth|]. split; [reflexivity|].
  exact (missing_root_is_reported [] tree0 3 value scenario_tree_depth eq_refl).
Defined.

Lemma index_taken_modulo_leaf_count_witness :
  1 <= MerkleTree.depth tree0 <= 32
  /\ MerkleTree.getHashPath tree0 7 log0
     = MerkleTree.getHashPath tree0 (7 mod 2 ^ MerkleTree.depth tree0) log0
  /\ MerkleTree2.getHashPath tree0 7 log0
     = MerkleTree2.getHashPath tree0 (7 mod 2 ^ MerkleTree.depth tree0) log0
  /\ MerkleTree.updateElement tree0 7 value log0
     = MerkleTree.updateElement tree0 (7 mod 2 ^ MerkleTree.depth tree0) value log0
  /\ MerkleTree2.updateElement tree0 7 value log0
     = MerkleTree2.updateElement tree0 (7 mod 2 ^ MerkleTree.depth tree0) value log0.
Proof.
  split; [exact scenario_tree_depth|].
  exact (index_taken_modulo_leaf_count log0 tree0 7 value scenario_tree_depth).
Defined.

Lemma routing_bit_witness :
  1 <= 32 <= 32 /\ 0 <= 0 < 32
  /\ truthy (js_and (js_shr (2 ^ 31) (32 - 0 - 1)) 1) = Z.testbit (2 ^ 31) (32 - 0 - 1).
Proof.
  assert (H1 : 1 <= 32 <= 32) by lia. assert (H2 : 0 <= 0 < 32) by lia.
  split; [exact H1|]. split; [exact H2|]. exact (routing_bit 32 0 (2 ^ 31) H1 H2).
Defined.

Lemma path_proves_stored_leaf_witness :
  fullyConstructed log0 tree0 = true
  /\ exists leaf path,
       leaf_digest log0 3 (MerkleTree.root tree0) (Z.to_nat (MerkleTree.depth tree0))
       = Some leaf
       /\ fst (MerkleTree.getHashPath tree0 3 log0) = Ok path
       /\ recompute (data path) 3 0 leaf = Some (MerkleTree.getRoot tree0).
Proof.
  split; [exact scenario_constructed|].
  exact (path_proves_stored_leaf log0 tree0 3 scenario_constructed).
Defined.

Lemma update_to_current_value_keeps_root_witness :
  fullyConstructed log0 tree0 = true
  /\ MerkleTree.name tree0 <> ""%string
  /\ leaf_digest log0 3 (MerkleTree.root tree0) (Z.to_nat (MerkleTree.depth tree0))
     = Some (hash blank)
  /\ exists this' l',
       MerkleTree.updateElement tree0 3 blank log0 = (Ok this', l')
       /\ MerkleTree.getRoot this' = MerkleTree.getRoot tree0.
Proof.
  split; [exact scenario_constructed|]. split; [exact scenario_named|].
  split; [exact scenario_blank_leaf|].
  exact (update_to_current_value_keeps_root log0 tree0 3 blank
           scenario_constructed scenario_named scenario_blank_leaf).
Defined.

Lemma second_update_overrides_first_witness :
  fullyConstructed log0 tree0 = true
  /\ List.length (Buffer.from (MerkleTree.name tree0)) <> 32%nat
  /\ MerkleTree.updateElement tree0 3 value log0 = (Ok tree1, log1)
  /\ collision_free (MerkleTree.name tree0) log1 = true
  /\ exists this2 l2 l2',
       MerkleTree.updateElement tree1 3 blank log1 = (Ok this2, l2)
       /\ MerkleTree.updateElement tree0 3 blank log0 = (Ok this2, l2').
Proof.
  split; [exact scenario_constructed|]. split; [exact scenario_name|].
  split; [exact scenario_update|]. split; [exact scenario_collision_free|].
  exact (second_update_overrides_first log0 log1 tree0 tree1 3 value blank
           scenario_constructed scenario_name scenario_update scenario_collision_free).
Defined.

Lemma new_rejects_undecodable_record_witness :
  (lookup_key (Buffer.from "test") truncated = Some []
   /\ (List.length ([] : Buffer) < 36)%nat
   /\ MerkleTree.new "test" (Some 2) truncated
      = (Err RangeError, Get (Buffer.from "test") :: truncated)
   /\ MerkleTree2.new "test" (Some 2) truncated
      = (Err RangeError, Get (Buffer.from "test") :: truncated))
  /\ (lookup_key (Buffer.from "test") zeroed = Some (Buffer.alloc 40 x00)
      /\ Buffer.readUInt32LE (Buffer.alloc 40 x00) 32 = Some 0
      /\ ~ (1 <= 0 <= 32)
      /\ MerkleTree.new "test" (Some 2) zeroed
         = (Err BadDepth, Get (Buffer.from "test") :: zeroed)
      /\ MerkleTree2.new "test" (Some 2) zeroed
         = (Err BadDepth, Get (Buffer.from "test") :: zeroed)).
Proof.
  assert (H1 : (List.length ([] : Buffer) < 36)%nat) by (simpl; lia).
  assert (H2 : ~ (1 <= 0 <= 32)) by lia.
  split.
  - split; [exact scenario_truncated|]. split; [exact H1|].
    exact (proj1 (new_rejects_undecodable_record "test" truncated [] (Some 2)
                    scenario_truncated) H1).
  - split; [exact scenario_zeroed|]. split; [exact scenario_zeroed_depth|].
    split; [exact H2|].
    exact (proj2 (new_rejects_undecodable_record "test" zeroed (Buffer.alloc 40 x00)
                    (Some 2) scenario_zeroed) 0 scenario_zeroed_depth H2).
Defined.

Lemma constructor2_leaves_zero_root_record_witness :
  1 <= 2 <= 32
  /\ "test"%string <> ""%string
  /\ exists t l',
       MerkleTree2.constructor "test" 2 None [] = (Ok t, l')
       /\ MerkleTree.root t = zero_digest (Z.to_nat 2)
       /\ forall depthArg,
            MerkleTree2.new "test" depthArg l'
            = (Ok {| MerkleTree.name := "test"; MerkleTree.depth := 2;
                     MerkleTree.root := Buffer.alloc 32 x00 |},
               Get (Buffer.from "test") :: l').
Proof.
  assert (H : 1 <= 2 <= 32) by lia.
  split; [exact H|]. split; [exact scenario_named|].
  exact (constructor2_leaves_zero_root_record "test" 2 [] H scenario_named).
Defined.

Lemma reached_trees_are_fully_constructed_witness :
  List.length (Buffer.from "test") <> 32%nat
  /\ lookup_key (Buffer.from "test") [] = None
  /\ MerkleTree.new "test" (Some 2) [] = (Ok tree0, log0)
  /\ updateAll tree0 [(3, value)] log0 = (Ok tree1, log1)
  /\ collision_free "test" log1 = true
  /\ fullyConstructed log1 tree1 = true.
Proof.
  split; [exact scenario_name|]. split; [exact scenario_empty|].
  split; [exact scenario_new|]. split; [exact scenario_updateAll|].
  split; [exact scenario_collision_free|].
  exact (reached_trees_are_fully_constructed "test" (Some 2) [] log0 log1 tree0 tree1
           [(3, value)] scenario_name scenario_empty scenario_new scenario_updateAll
           scenario_collision_free).
Defined.

Lemma fresh_tree_paths_are_uniform_witness :
  List.length (Buffer.from "test") <> 32%nat
  /\ lookup_key (Buffer.from "test") [] = None
  /\ MerkleTree.new "test" (Some 2) [] = (Ok tree0, log0)
  /\ collision_free "test" log0 = true
  /\ fst (MerkleTree.getHashPath tree0 1 log0)
     = Ok {| data := map (fun k => (zero_digest k, zero_digest k))
                         (seq 0 (Z.to_nat (MerkleTree.depth tree0))) |}.
Proof.
  split; [exact scenario_name|]. split; [exact scenario_empty|].
  split; [exact scenario_new|]. split; [exact scenario_collision_free_fresh|].
  exact (fresh_tree_paths_are_uniform "test" (Some 2) [] log0 tree0 1
           scenario_name scenario_empty scenario_new scenario_collision_free_fresh).
Defined.

Lemma updates_of_different_leaves_commute_witness :
  fullyConstructed log0 tree0 = true
  /\ List.length (Buffer.from (MerkleTree.name tree0)) <> 32%nat
  /\ MerkleTree.updateElement tree0 3 value log0 = (Ok tree1, log1)
  /\ collision_free (MerkleTree.name tree0) log1 = true
  /\ MerkleTree.updateElement tree0 0 value log0 = (Ok tree2, log2)
  /\ collision_free (MerkleTree.name tree0) log2 = true
  /\ (0 <= 1 < MerkleTree.depth tree0
      /\ Z.testbit 3 1 <> Z.testbit 0 1
      /\ (forall q, 1 < q < MerkleTree.depth tree0 -> Z.testbit 3 q = Z.testbit 0 q))
  /\ exists t lij lji,
       MerkleTree.updateElement tree1 0 value log1 = (Ok t, lij)
       /\ MerkleTree.updateElement tree2 3 value log2 = (Ok t, lji).
Proof.
  split; [exact scenario_constructed|]. split; [exact scenario_name|].
  split; [exact scenario_update|]. split; [exact scenario_collision_free|].
  split; [exact scenario_update_other|]. split; [exact scenario_collision_free_other|].
  split; [exact scenario_fork|].
  exact (updates_of_different_leaves_commute log0 log1 log2 tree0 tree1 tree2 3 0
           value value 1 scenario_constructed scenario_name scenario_update
           scenario_collision_free scenario_update_other scenario_collision_free_other
           (proj1 scenario_fork) (proj1 (proj2 scenario_fork))
           (proj2 (proj2 scenario_fork))).
Defined.

Lemma scenario_nameless : fullyConstructed log0 nameless = true.
Proof. exact scenario_constructed. Qed.

Lemma scenario_nameless_name : MerkleTree.name nameless = ""%string.
Proof. reflexivity. Qed.

Lemma empty_name_is_refused_witness :
  (1 <= default MAX_DEPTH (Some 2) <= 32
   /\ lookup_key (Buffer.from "") [] = None
   /\ MerkleTree.new "" (Some 2) []
      = (Err WriteError, zero_puts copied 2 ++ [Get (Buffer.from "")])
   /\ MerkleTree2.new "" (Some 2) []
      = (Err WriteError, zero_puts concatenated 2 ++ [Get (Buffer.from "")]))
  /\ (fullyConstructed log0 nameless = true
      /\ MerkleTree.name nameless = ""%string
      /\ exists es gets,
           forallb is_get gets = true
           /\ List.length es = Z.to_nat (MerkleTree.depth nameless)
           /\ Forall addressed es
           /\ MerkleTree.updateElement nameless 3 value log0
              = (Err WriteError, map put_event es ++ gets ++ log0)
           /\ MerkleTree2.updateElement nameless 3 value log0
              = (Err WriteError, map put_event es ++ gets ++ log0)).
Proof.
  assert (H1 : 1 <= default MAX_DEPTH (Some 2) <= 32) by (simpl; lia).
  assert (H2 : lookup_key (Buffer.from "") [] = None) by reflexivity.
  split.
  - split; [exact H1|]. split; [exact H2|].
    exact (proj1 empty_name_is_refused (Some 2) [] H1 H2).
  - split; [exact scenario_nameless|]. split; [exact scenario_nameless_name|].
    exact (proj2 empty_name_is_refused log0 nameless 3 value
             scenario_nameless scenario_nameless_name).
Defined.

Lemma update_sets_one_leaf_witness :
  fullyConstructed log0 tree0 = true
  /\ List.length (Buffer.from (MerkleTree.name tree0)) <> 32%nat
  /\ MerkleTree.updateElement tree0 3 value log0 = (Ok tree1, log1)
  /\ collision_free (MerkleTree.name tree0) log1 = true
  /\ leaf_digest log1 3 (MerkleTree.root tree1) (Z.to_nat (MerkleTree.depth tree1))
     = Some (hash value)
  /\ forall other,
       other mod 2 ^ MerkleTree.depth tree0 <> 3 mod 2 ^ MerkleTree.depth tree0 ->
       leaf_digest log1 other (MerkleTree.root tree1) (Z.to_nat (MerkleTree.depth tree1))
       = leaf_digest log0 other (MerkleTree.root tree0) (Z.to_nat (MerkleTree.depth tree0)).
Proof.
  split; [exact scenario_constructed|]. split; [exact scenario_name|].
  split; [exact scenario_update|]. split; [exact scenario_collision_free|].
  exact (update_sets_one_leaf log0 log1 tree0 tree1 3 value
           scenario_constructed scenario_name scenario_update scenario_collision_free).
Defined.

Lemma earlier_root_stays_readable_witness :
  fullyConstructed log0 tree0 = true
  /\ List.length (Buffer.from (MerkleTree.name tree0)) <> 32%nat
  /\ MerkleTree.updateElement tree0 3 value log0 = (Ok tree1, log1)
  /\ collision_free (MerkleTree.name tree0) log1 = true
  /\ fullyConstructed log1 tree0 = true
  /\ forall other,
       fst (MerkleTree.getHashPath tree0 other log1)
       = fst (MerkleTree.getHashPath tree0 other log0).
Proof.
  split; [exact scenario_constructed|]. split; [exact scenario_name|].
  split; [exact scenario_update|]. split; [exact scenario_collision_free|].
  exact (earlier_root_stays_readable log0 log1 tree0 tree1 3 value
           scenario_constructed scenario_name scenario_update scenario_collision_free).
Defined.

End Scenario2Facts.
